(** * The installer routes of nossocrm

    A shallow embedding of the three installer route handlers

    - [src/app/api/installer/run-stream/route.ts], first module: the
      streaming installation run ([RunStream]),
    - the same file, second module: the administrative project delete
      route ([DeleteRoute]),
    - [src/unnamed/part_003]: the project list route ([ListRoute]),

    and the properties of them that the specification states; then

    - more of the streaming run: the collaborator calls and their
      arguments, the way a run ends, the first name ([Pipeline]),
    - [src/app/(protected)/page.tsx]: the root page ([HomePage]),
    - [src/features/settings/components/McpSection.tsx], second module:
      the variables of a prompt ([Prompts]),
    - [src/unnamed/part_002]: the invites route ([InvitesRoute]),

    with properties read off the code.

    The collaborators under [@/lib/installer/*] and
    [@/lib/security/sameOrigin] are not part of the sources; what each of
    their calls gives back is a parameter of the model. *)

From Stdlib Require Import List ZArith NArith Lia Bool String Ascii Sorted.
Import ListNotations.

Set Implicit Arguments.

(* ================================================================== *)
(** * JavaScript values used by the handlers *)

Module Js.

(** A JavaScript string is a sequence of UTF-16 code units. *)
Definition jsstring := list N.

(** An ASCII literal, one code unit per character. *)
Definition str (s : string) : jsstring :=
  map N_of_ascii (list_ascii_of_string s).

(** [WhiteSpace] and [LineTerminator] of ECMAScript: the code points that
    [String.prototype.trim] removes. All of them are in the BMP. *)
Definition isWhiteSpace (c : N) : bool :=
  ((9 <=? c) && (c <=? 13) || (c =? 32) || (c =? 160) || (c =? 5760)
   || (8192 <=? c) && (c <=? 8202) || (c =? 8232) || (c =? 8233)
   || (c =? 8239) || (c =? 8287) || (c =? 12288) || (c =? 65279))%N.

Fixpoint trimStart (s : jsstring) : jsstring :=
  match s with
  | [] => []
  | c :: r => if isWhiteSpace c then trimStart r else s
  end.

Definition trimEnd (s : jsstring) : jsstring := rev (trimStart (rev s)).

(** [s.trim()] *)
Definition trim (s : jsstring) : jsstring := trimEnd (trimStart s).

(** Truthiness of a string: the empty string is falsy. *)
Definition truthy (s : jsstring) : bool :=
  match s with [] => false | _ :: _ => true end.

(** Truthiness of [string | undefined]. *)
Definition truthy_opt (s : option jsstring) : bool :=
  match s with Some v => truthy v | None => false end.

(** [a || b] where [a] is [string | undefined | null] and [b] a string. *)
Definition or_else (a : option jsstring) (b : jsstring) : jsstring :=
  match a with
  | Some v => if truthy v then v else b
  | None => b
  end.

(** [a || b] where both are [string | undefined | null]. *)
Definition or_opt (a b : option jsstring) : option jsstring :=
  match a with
  | Some v => if truthy v then a else b
  | None => b
  end.

(** [a || undefined] *)
Definition or_undefined (a : option jsstring) : option jsstring := or_opt a None.

(** [a?.trim() || ''] *)
Definition trim_or_empty (a : option jsstring) : jsstring :=
  or_else (option_map trim a) [].

Fixpoint startsWith (s pat : jsstring) : bool :=
  match pat, s with
  | [], _ => true
  | p :: pat', c :: s' => (p =? c)%N && startsWith s' pat'
  | _ :: _, [] => false
  end.

(** [s.replace(pat, rep)] for a string pattern: the first occurrence. *)
Fixpoint replace (pat rep s : jsstring) : jsstring :=
  if startsWith s pat then rep ++ skipn (List.length pat) s
  else match s with
       | [] => []
       | c :: r => c :: replace pat rep r
       end.

Definition eqb (a b : jsstring) : bool :=
  if list_eq_dec N.eq_dec a b then true else false.

(** [a !== b] for [a, b : string | undefined]. *)
Definition strict_neq (a b : option jsstring) : bool :=
  match a, b with
  | Some x, Some y => negb (eqb x y)
  | None, None => false
  | _, _ => true
  end.

(** [n || d] for [n : number | undefined]: [undefined] and [0] are falsy. *)
Definition num_or (n : option Z) (d : Z) : Z :=
  match n with
  | Some v => if (v =? 0)%Z then d else v
  | None => d
  end.

(** What a thrown value looks like to [err instanceof Error]. *)
Inductive Thrown : Type :=
| ErrorObject (message : jsstring)
| NonError.

(** The result of evaluating a call: a value, or a thrown exception (for
    an awaited promise: fulfilled or rejected). *)
Inductive Outcome (A : Type) : Type :=
| Returns (a : A)
| Throws (e : Thrown).

Arguments Throws {A} e.

End Js.

Import Js.

(* ================================================================== *)
(** * The checks every installer route starts with *)

Module Entry.

(** [process.env], the two variables the routes read. *)
Record ProcessEnv : Type := mkProcessEnv {
  INSTALLER_ENABLED : option jsstring;
  INSTALLER_TOKEN : option jsstring
}.

(** A request as the handlers see it: the verdict of [isAllowedOrigin]
    and the result of [Schema.safeParse(await req.json())], [None] when
    the body is not valid JSON or fails the schema. *)
Record HttpRequest (Payload : Type) : Type := mkRequest {
  allowedOrigin : bool;
  parsed : option Payload
}.

(** A JSON error response; [status] is the HTTP status. *)
Record Response (Body : Type) : Type := mkResponse {
  status : Z;
  body : Body
}.

Definition msg_forbidden : jsstring := str "Forbidden".
Definition msg_disabled : jsstring := str "Installer disabled".
Definition msg_invalid_payload : jsstring := str "Invalid payload".
Definition msg_invalid_token : jsstring := str "Invalid installer token".

(** [process.env.INSTALLER_ENABLED === 'false'] *)
Definition installer_disabled (penv : ProcessEnv) : bool :=
  match INSTALLER_ENABLED penv with
  | Some v => eqb v (str "false")
  | None => false
  end.

(** [expectedToken && parsed.data.installerToken !== expectedToken] *)
Definition token_mismatch (penv : ProcessEnv) (installerToken : option jsstring) : bool :=
  truthy_opt (INSTALLER_TOKEN penv)
  && strict_neq installerToken (INSTALLER_TOKEN penv).

(** The four checks every installer route starts with, in source order.
    [inl] is the early error response, [inr] the validated payload. *)
Definition entry_checks (Payload : Type) (installerToken : Payload -> option jsstring)
    (penv : ProcessEnv) (req : HttpRequest Payload)
  : Response jsstring + Payload :=
  if negb (allowedOrigin req) then inl (mkResponse 403 msg_forbidden)
  else if installer_disabled penv then inl (mkResponse 403 msg_disabled)
  else match parsed req with
       | None => inl (mkResponse 400 msg_invalid_payload)
       | Some data =>
           if token_mismatch penv (installerToken data)
           then inl (mkResponse 403 msg_invalid_token)
           else inr data
       end.

(** The installer is enabled and no installer token is configured. *)
Definition open_installer : ProcessEnv := mkProcessEnv None None.

(** The errors of the [Response] constructor; their wording is the
    runtime's. *)
Definition msg_status_range : jsstring :=
  str "RangeError: the status must be in the range of 200 to 599, inclusive.".
Definition msg_null_body_status : jsstring :=
  str "TypeError: invalid response status code for a response with a body.".

(** [new Response(JSON.stringify(body), { status })] for a status that is
    not a literal: the status is converted to an unsigned 16-bit integer;
    the constructor throws a [RangeError] unless the result is in
    200..599, and a [TypeError] when it is a null-body status (204, 205,
    304), since the body is a string. *)
Definition new_Response {Body : Type} (b : Body) (st : Z) : Outcome (Response Body) :=
  let s := (st mod 65536)%Z in
  if ((s <? 200) || (599 <? s))%Z then Throws (ErrorObject msg_status_range)
  else if ((s =? 204) || (s =? 205) || (s =? 304))%Z
       then Throws (ErrorObject msg_null_body_status)
       else Returns (mkResponse s b).

End Entry.

Import Entry.

(* ================================================================== *)
(** * The streaming installation run *)

Module RunStream.

(** ** The Installation Request ([RunSchema]) *)

Inductive Target : Type := production | preview.

Record VercelInput : Type := mkVercel {
  token : jsstring;
  teamId : option jsstring;
  projectId : jsstring;
  targets : list Target
}.

Record SupabaseInput : Type := mkSupabase {
  url : jsstring;
  anonKey : option jsstring;
  serviceRoleKey : option jsstring;
  dbUrl : option jsstring;
  accessToken : option jsstring;
  projectRef : option jsstring;
  deployEdgeFunctions : bool
}.

Record AdminInput : Type := mkAdmin {
  companyName : jsstring;
  email : jsstring;
  password : jsstring
}.

(** The Health-Check Hint. Its [estimatedSeconds] is not read by the
    handler and is left out. *)
Record HealthCheck : Type := mkHealthCheck {
  skipWaitProject : bool;
  skipWaitStorage : bool;
  skipMigrations : bool;
  skipBootstrap : bool
}.

Record RunPayload : Type := mkRunPayload {
  installerToken : option jsstring;
  vercel : VercelInput;
  supabase : SupabaseInput;
  admin : AdminInput;
  healthCheck : option HealthCheck
}.

(** What [RunSchema] asks of the fields, beyond their types. That
    [supabase.url] is a URL and [admin.email] an e-mail address is
    checked by the schema library and not spelled out here. *)
Definition min_length (n : nat) (s : jsstring) : bool := (n <=? List.length s)%nat.

Definition optional (check : jsstring -> bool) (s : option jsstring) : bool :=
  match s with Some v => check v | None => true end.

Definition RunSchema_accepts (data : RunPayload) : bool :=
  min_length 1 (token (vercel data))
  && min_length 1 (projectId (vercel data))
  && (1 <=? List.length (targets (vercel data)))%nat
  && optional (min_length 1) (anonKey (supabase data))
  && optional (min_length 1) (serviceRoleKey (supabase data))
  && optional (min_length 1) (dbUrl (supabase data))
  && min_length 1 (companyName (admin data))
  && (List.length (companyName (admin data)) <=? 200)%nat
  && min_length 6 (password (admin data)).

(** ** The Skip Set *)

Inductive Step : Type := wait_project | wait_storage | migrations | bootstrap.

Definition Step_eqb (a b : Step) : bool :=
  match a, b with
  | wait_project, wait_project | wait_storage, wait_storage
  | migrations, migrations | bootstrap, bootstrap => true
  | _, _ => false
  end.

(** [skippedSteps.includes(s)] *)
Definition includes (l : list Step) (s : Step) : bool := existsb (Step_eqb s) l.

(** [healthCheck?.flag] as a condition. *)
Definition hint (flag : HealthCheck -> bool) (hc : option HealthCheck) : bool :=
  match hc with Some h => flag h | None => false end.

Definition skippedSteps (hc : option HealthCheck) : list Step :=
  (if hint skipWaitProject hc then [wait_project] else [])
  ++ (if hint skipWaitStorage hc then [wait_storage] else [])
  ++ (if hint skipMigrations hc then [migrations] else [])
  ++ (if hint skipBootstrap hc then [bootstrap] else []).

(** ** Phases and stream events *)

Inductive PhaseId : Type :=
  coordinates | signal | station | comms | contact | landing | complete.

Inductive EventType : Type := type_phase | type_progress | type_error | type_complete.

(** [StreamEvent]. The [title] and [subtitle] of a phase event are looked
    up in [PHASES] from the phase id and the admin's first name; they
    decide nothing and are not carried here. *)
Record StreamEvent : Type := mkEvent {
  type : EventType;
  phase : option PhaseId;
  progress : option Z;
  error : option jsstring;
  ok : option bool
}.

Definition phaseEvent (p : PhaseId) (n : Z) : StreamEvent :=
  mkEvent type_phase (Some p) (Some n) None None.
Definition errorEvent (m : jsstring) : StreamEvent :=
  mkEvent type_error None None (Some m) None.
Definition completeEvent : StreamEvent :=
  mkEvent type_complete None None None (Some true).

(** ** The collaborators *)

Inductive KeysResult : Type :=
| keys_ok (publishableKey secretKey : jsstring)
| keys_failed.

Inductive DbResult : Type :=
| db_ok (dbUrl : jsstring)
| db_failed.

(** What each collaborator gives back in this run. Every one of them is
    called at most once in a run, so one outcome per collaborator
    describes the run's environment. The [bool] results are the [ok]
    field of the returned object. [URL_parses] tells whether
    [new URL(s)] accepts [s]; it throws a [TypeError] with message
    [URL_error] otherwise.

    The client that reads the stream belongs to the environment of the
    run as well: [clientReads] is the number of chunks it takes before it
    goes away ([None]: it stays to the end), and [cancelReason] is what
    the operations of the writer reject with once it has gone. *)
Record Collaborators : Type := mkCollaborators {
  extractProjectRefFromSupabaseUrl : jsstring -> option jsstring;
  listEdgeFunctionSlugs : Outcome (list jsstring);
  resolveSupabaseApiKeys : Outcome KeysResult;
  resolveSupabaseDbUrlViaCliLoginRole : Outcome DbResult;
  upsertProjectEnvs : Outcome unit;
  waitForSupabaseProjectReady : Outcome bool;
  runSchemaMigration : Outcome unit;
  setSupabaseEdgeFunctionSecrets : Outcome bool;
  deployAllSupabaseEdgeFunctions : Outcome unit;
  bootstrapInstance : Outcome bool;
  triggerProjectRedeploy : Outcome unit;
  URL_parses : jsstring -> bool;
  URL_error : jsstring;
  clientReads : option nat;
  cancelReason : Thrown
}.

(** A call to a collaborator, with the arguments that name what it
    acts on. *)
Inductive Call : Type :=
| call_listEdgeFunctionSlugs
| call_resolveSupabaseApiKeys (projectRef accessToken : jsstring)
| call_resolveSupabaseDbUrlViaCliLoginRole (projectRef accessToken : jsstring)
| call_upsertProjectEnvs (token projectId : jsstring)
    (envs : list (jsstring * jsstring)) (targets : list Target)
    (teamId : option jsstring)
| call_waitForSupabaseProjectReady (accessToken projectRef : jsstring)
    (timeoutMs pollMs : Z)
| call_runSchemaMigration (dbUrl : jsstring)
| call_setSupabaseEdgeFunctionSecrets
    (projectRef accessToken supabaseUrl anonKey serviceRoleKey : jsstring)
| call_deployAllSupabaseEdgeFunctions (projectRef accessToken : jsstring)
| call_bootstrapInstance
    (supabaseUrl serviceRoleKey companyName email password : jsstring)
| call_triggerProjectRedeploy (token projectId : jsstring)
    (teamId : option jsstring).

(** [listEdgeFunctionSlugs] reads the local project tree; every other
    collaborator talks to one of the two external platforms or to the
    target database. *)
Definition is_external (c : Call) : bool :=
  match c with
  | call_listEdgeFunctionSlugs => false
  | _ => true
  end.

(** ** Console output, one constructor per [console.log] site. The
    elapsed time that [log] prints is not modelled. *)
Inductive LogLine : Type :=
| log_skipping_steps (skipped : list Step)
| log_inicio (skipped : list Step)
| log_phase1
| log_resolvendo_chaves (needsKeys : bool)
| log_chaves_obtidas
| log_resolvendo_db (needsDb : bool)
| log_db_obtida
| log_configurando_envs
| log_phase2
| log_skip_wait_project
| log_phase3
| log_executando_migrations
| log_migrations_concluidas
| log_skip_migrations
| log_phase4
| log_configurando_secrets
| log_deployando
| log_phase5
| log_criando_organizacao
| log_skip_bootstrap
| log_phase6
| log_disparando_redeploy
| log_complete.

(** ** The run's world: the stream writer and what has happened so far *)

(** Everything observable the run does, in order. [Write e true] is a
    chunk accepted by the stream; [Write e false] and [Close false] are
    calls that reject: the writer is already closed, or the client has
    gone. *)
Inductive Action : Type :=
| Log (l : LogLine)
| Write (e : StreamEvent) (accepted : bool)
| Close (accepted : bool)
| Called (c : Call).

(** The client as the writer finds it: it stays to the end, it takes
    [n] more chunks, or a write has found it gone (the readable side is
    cancelled and the stream is errored). A client reads what is written
    for as long as it is there: one that stops reading without going
    away would leave [await writer.write()] pending, and is not among
    the clients of the model. *)
Inductive Client : Type := stays | takes (n : nat) | gone.

Definition client_of (reads : option nat) : Client :=
  match reads with None => stays | Some n => takes n end.

(** [writerClosed]: the task has closed the writer. [rejection]: what
    the writer's operations reject with once the client has gone. *)
Record World : Type := mkWorld {
  writerClosed : bool;
  client : Client;
  rejection : Thrown;
  trace : list Action
}.

Definition record (a : Action) (w : World) : World :=
  mkWorld (writerClosed w) (client w) (rejection w) (trace w ++ [a]).

(** The same world with the client in another state. *)
Definition with_client (c : Client) (w : World) : World :=
  mkWorld (writerClosed w) c (rejection w) (trace w).

(** How a block of statements ends: normally with a value, by [return]
    out of the task, or by a thrown exception. *)
Inductive Completion (A : Type) : Type :=
| Normal (a : A)
| Return_
| Throw (e : Thrown).

Arguments Return_ {A}.
Arguments Throw {A} e.

Definition M (A : Type) : Type := World -> Completion A * World.

Definition ret {A} (a : A) : M A := fun w => (Normal a, w).

Definition bind {A B} (m : M A) (k : A -> M B) : M B :=
  fun w =>
    match m w with
    | (Normal a, w1) => k a w1
    | (Return_, w1) => (Return_, w1)
    | (Throw e, w1) => (Throw e, w1)
    end.

Declare Scope run_scope.
Delimit Scope run_scope with run.
Notation "x <- m ;; k" := (bind m (fun x => k))
  (at level 100, m at next level, right associativity) : run_scope.
Notation "m ;; k" := (bind m (fun _ => k))
  (at level 100, right associativity) : run_scope.
Local Open Scope run_scope.

(** [return;] *)
Definition return_ {A} : M A := fun w => (Return_, w).

(** [try { body } catch (err) { handler(err) }] *)
Definition try_catch (body : M unit) (handler : Thrown -> M unit) : M unit :=
  fun w =>
    match body w with
    | (Throw e, w1) => handler e w1
    | r => r
    end.

(** [try { body } catch (err) { handler(err) } finally { final }]: the
    [finally] block runs whatever way the rest ended, and an abrupt end
    of the [finally] block replaces that of the rest. *)
Definition try_catch_finally (body : M unit) (handler : Thrown -> M unit)
    (final : M unit) : M unit :=
  fun w =>
    let (c, w1) := try_catch body handler w in
    match final w1 with
    | (Normal _, w2) => (c, w2)
    | r => r
    end.

(** The message of the [TypeError] with which a closed writer rejects. *)
Definition msg_writer_closed : jsstring := str "Invalid state: WritableStream is closed".

Definition log (l : LogLine) : M unit := fun w => (Normal tt, record (Log l) w).

(** [await writer.write(...)]. A closed writer rejects with a
    [TypeError]. An open writer accepts the chunk as long as the client
    takes chunks; the write that finds the client gone rejects with the
    cancel reason, and so does every operation after it. *)
Definition writer_write (e : StreamEvent) : M unit :=
  fun w =>
    if writerClosed w
    then (Throw (ErrorObject msg_writer_closed), record (Write e false) w)
    else
      match client w with
      | stays => (Normal tt, record (Write e true) w)
      | takes (S n) => (Normal tt, record (Write e true) (with_client (takes n) w))
      | takes 0 => (Throw (rejection w), record (Write e false) (with_client gone w))
      | gone => (Throw (rejection w), record (Write e false) w)
      end.

(** [await writer.close()]. It rejects on a closed writer and on a
    stream that a write has found errored. In the task every
    [writer.close()] comes directly after a write or a close, with no
    other [await] in between: when that write was accepted, the close
    finds the stream as the write left it. *)
Definition writer_close : M unit :=
  fun w =>
    if writerClosed w
    then (Throw (ErrorObject msg_writer_closed), record (Close false) w)
    else
      match client w with
      | gone => (Throw (rejection w), record (Close false) w)
      | _ => (Normal tt,
              mkWorld true (client w) (rejection w) (trace w ++ [Close true]))
      end.

(** [await f(args)] for a collaborator [f]. *)
Definition await {A} (c : Call) (o : Outcome A) : M A :=
  fun w =>
    (match o with Returns a => Normal a | Throws e => Throw e end,
     record (Called c) w).

(** [throw e] *)
Definition throw {A} (e : Thrown) : M A := fun w => (Throw e, w).

Definition sendEvent (e : StreamEvent) : M unit := writer_write e.

Definition sendPhase (p : PhaseId) (n : Z) : M unit := sendEvent (phaseEvent p n).

(** ** The messages of the error events *)

Definition msg_no_access_token : jsstring :=
  str "Token de acesso Supabase n" ++ [227%N] ++ str "o fornecido.".
Definition msg_no_project_ref : jsstring :=
  str "Refer" ++ [234%N] ++ str "ncia do projeto Supabase n" ++ [227%N]
  ++ str "o encontrada.".
Definition msg_keys : jsstring := str "Falha ao obter chaves de acesso.".
Definition msg_db : jsstring := str "Falha ao conectar com o banco de dados.".
Definition msg_not_ready : jsstring :=
  str "Destino n" ++ [227%N] ++ str "o respondeu a tempo.".
Definition msg_secrets : jsstring := str "Falha ao configurar comunicadores.".
Definition msg_bootstrap : jsstring := str "Falha ao estabelecer primeiro contato.".
Definition msg_generic : jsstring :=
  str "Erro durante a miss" ++ [227%N] ++ str "o.".

(** ** The background task of [POST] (lines 161-378) *)

Section Task.

Variable data : RunPayload.
Variable co : Collaborators.

Definition skipped : list Step := skippedSteps (healthCheck data).

Definition resolvedProjectRef : jsstring :=
  or_else (or_opt (option_map trim (projectRef (supabase data)))
                  (extractProjectRefFromSupabaseUrl co (url (supabase data))))
          [].

Definition resolvedAccessToken : jsstring :=
  trim_or_empty (accessToken (supabase data)).

(** The three secrets as supplied, before any is derived. *)
Definition suppliedAnonKey : jsstring := trim_or_empty (anonKey (supabase data)).
Definition suppliedServiceRoleKey : jsstring :=
  trim_or_empty (serviceRoleKey (supabase data)).
Definition suppliedDbUrl : jsstring := trim_or_empty (dbUrl (supabase data)).

Definition needsKeys : bool :=
  negb (truthy suppliedAnonKey) || negb (truthy suppliedServiceRoleKey).

Definition needsDb : bool := negb (truthy suppliedDbUrl).

Definition hasLocalEdgeFunctions (localEdgeFunctionSlugs : list jsstring) : bool :=
  (0 <? List.length localEdgeFunctionSlugs)%nat.

Definition needsManagementApi (hasLocal : bool) : bool :=
  needsKeys || needsDb || (deployEdgeFunctions (supabase data) && hasLocal).

(** The handled failure of a step: one error event, close, return. *)
Definition fail_with {A} (message : jsstring) : M A :=
  sendEvent (errorEvent message) ;; writer_close ;; return_.

(** Lines 206-220; gives the anon key and the service-role key. *)
Definition resolve_keys : M (jsstring * jsstring) :=
  log (log_resolvendo_chaves needsKeys) ;;
  if needsKeys then
    keys <- await (call_resolveSupabaseApiKeys resolvedProjectRef resolvedAccessToken)
                  (resolveSupabaseApiKeys co) ;;
    match keys with
    | keys_failed => fail_with msg_keys
    | keys_ok publishableKey secretKey =>
        log log_chaves_obtidas ;; ret (publishableKey, secretKey)
    end
  else ret (suppliedAnonKey, suppliedServiceRoleKey).

(** [new URL(s)], for its exception only. *)
Definition new_URL (s : jsstring) : M unit :=
  if URL_parses co s then ret tt else throw (ErrorObject (URL_error co)).

(** Lines 224-237; gives the DB connection string. *)
Definition resolve_db : M jsstring :=
  log (log_resolvendo_db needsDb) ;;
  if needsDb then
    db <- await (call_resolveSupabaseDbUrlViaCliLoginRole resolvedProjectRef
                   resolvedAccessToken)
                (resolveSupabaseDbUrlViaCliLoginRole co) ;;
    match db with
    | db_failed => fail_with msg_db
    | db_ok u =>
        new_URL (replace (str "postgresql://") (str "http://") u) ;;
        log log_db_obtida ;; ret u
    end
  else ret suppliedDbUrl.

(** Phase 1 (lines 202-254). *)
Definition phase_coordinates : M (jsstring * jsstring * jsstring) :=
  log log_phase1 ;;
  sendPhase coordinates 5 ;;
  keys <- resolve_keys ;;
  sendPhase coordinates 10 ;;
  resolvedDbUrl <- resolve_db ;;
  sendPhase coordinates 15 ;;
  log log_configurando_envs ;;
  await (call_upsertProjectEnvs (token (vercel data)) (projectId (vercel data))
           [ (str "NEXT_PUBLIC_SUPABASE_URL", url (supabase data));
             (str "NEXT_PUBLIC_SUPABASE_ANON_KEY", fst keys);
             (str "SUPABASE_SERVICE_ROLE_KEY", snd keys);
             (str "INSTALLER_ENABLED", str "false") ]
           (targets (vercel data))
           (or_undefined (teamId (vercel data))))
        (upsertProjectEnvs co) ;;
  sendPhase coordinates 20 ;;
  ret (fst keys, snd keys, resolvedDbUrl).

(** Phase 2 (lines 256-278). *)
Definition phase_signal : M unit :=
  log log_phase2 ;;
  if negb (includes skipped wait_project) then
    sendPhase signal 25 ;;
    (if truthy resolvedAccessToken && truthy resolvedProjectRef then
       ready <- await (call_waitForSupabaseProjectReady resolvedAccessToken
                         resolvedProjectRef 210000 4000)
                      (waitForSupabaseProjectReady co) ;;
       if negb ready then fail_with msg_not_ready else ret tt
     else ret tt) ;;
    sendPhase signal 35
  else log log_skip_wait_project.

(** Phase 3 (lines 280-292). *)
Definition phase_station (resolvedDbUrl : jsstring) : M unit :=
  log log_phase3 ;;
  if negb (includes skipped migrations) then
    sendPhase station 40 ;;
    log log_executando_migrations ;;
    await (call_runSchemaMigration resolvedDbUrl) (runSchemaMigration co) ;;
    log log_migrations_concluidas ;;
    sendPhase station 55
  else log log_skip_migrations.

(** Phase 4 (lines 294-323). The array that the deploy returns is kept
    in [functions] and never read. *)
Definition phase_comms (hasLocal : bool) (resolvedAnonKey resolvedServiceRoleKey : jsstring)
  : M unit :=
  log log_phase4 ;;
  sendPhase comms 60 ;;
  (if deployEdgeFunctions (supabase data) && hasLocal then
     log log_configurando_secrets ;;
     secrets <- await (call_setSupabaseEdgeFunctionSecrets resolvedProjectRef
                         resolvedAccessToken (url (supabase data))
                         resolvedAnonKey resolvedServiceRoleKey)
                      (setSupabaseEdgeFunctionSecrets co) ;;
     if negb secrets then fail_with msg_secrets
     else
       sendPhase comms 65 ;;
       log log_deployando ;;
       await (call_deployAllSupabaseEdgeFunctions resolvedProjectRef
                resolvedAccessToken)
             (deployAllSupabaseEdgeFunctions co)
   else ret tt) ;;
  sendPhase comms 75.

(** Phase 5 (lines 325-348). *)
Definition phase_contact (resolvedServiceRoleKey : jsstring) : M unit :=
  log log_phase5 ;;
  if negb (includes skipped bootstrap) then
    sendPhase contact 80 ;;
    log log_criando_organizacao ;;
    bootstrap_ok <- await (call_bootstrapInstance (url (supabase data))
                             resolvedServiceRoleKey (companyName (admin data))
                             (email (admin data)) (password (admin data)))
                          (bootstrapInstance co) ;;
    (if negb bootstrap_ok then fail_with msg_bootstrap else ret tt) ;;
    sendPhase contact 90
  else log log_skip_bootstrap.

(** Phase 6 (lines 350-365). *)
Definition phase_landing : M unit :=
  log log_phase6 ;;
  sendPhase landing 92 ;;
  try_catch
    (log log_disparando_redeploy ;;
     await (call_triggerProjectRedeploy (token (vercel data))
              (projectId (vercel data)) (or_undefined (teamId (vercel data))))
           (triggerProjectRedeploy co))
    (fun _ => ret tt) ;;
  sendPhase landing 98.

(** Lines 367-370. *)
Definition phase_complete : M unit :=
  log log_complete ;;
  sendPhase complete 100 ;;
  sendEvent completeEvent.

(** The phases, once the request has passed the credential check. *)
Definition phases (hasLocal : bool) : M unit :=
  r <- phase_coordinates ;;
  let '(resolvedAnonKey, resolvedServiceRoleKey, resolvedDbUrl) := r in
  phase_signal ;;
  phase_station resolvedDbUrl ;;
  phase_comms hasLocal resolvedAnonKey resolvedServiceRoleKey ;;
  phase_contact resolvedServiceRoleKey ;;
  phase_landing ;;
  phase_complete.

(** The [try] block (lines 172-370). *)
Definition try_block : M unit :=
  localEdgeFunctionSlugs <-
    (if deployEdgeFunctions (supabase data)
     then await call_listEdgeFunctionSlugs (listEdgeFunctionSlugs co)
     else ret []) ;;
  let hasLocal := hasLocalEdgeFunctions localEdgeFunctionSlugs in
  if needsManagementApi hasLocal
     && (negb (truthy resolvedAccessToken) || negb (truthy resolvedProjectRef))
  then
    fail_with (if negb (truthy resolvedAccessToken)
               then msg_no_access_token else msg_no_project_ref)
  else phases hasLocal.

(** The [catch] block (lines 372-374). *)
Definition catch_block (err : Thrown) : M unit :=
  sendEvent (errorEvent (match err with
                         | ErrorObject message => message
                         | NonError => msg_generic
                         end)).

(** The whole task. *)
Definition task : M unit :=
  log (log_inicio skipped) ;;
  try_catch_finally try_block catch_block writer_close.

(** The world in which the task starts: an open writer, the client of
    this run, and the console line of lines 137-139 when some step is
    skipped. *)
Definition initial_world : World :=
  mkWorld false (client_of (clientReads co)) (cancelReason co)
    (match skipped with
     | [] => []
     | _ :: _ => [Log (log_skipping_steps skipped)]
     end).

(** How the task's promise settles, and the world it leaves. *)
Definition run : Completion unit * World := task initial_world.

End Task.

(** ** What a run leaves behind *)

(** The events the client receives, in order. *)
Definition sent (t : list Action) : list StreamEvent :=
  flat_map (fun a => match a with Write e true => [e] | _ => [] end) t.

(** The collaborator calls made, in order. *)
Definition calls (t : list Action) : list Call :=
  flat_map (fun a => match a with Called c => [c] | _ => [] end) t.

(** The calls of [writer.close()], each with whether it was accepted. *)
Definition closes (t : list Action) : list bool :=
  flat_map (fun a => match a with Close b => [b] | _ => [] end) t.

Definition is_writer_action (a : Action) : bool :=
  match a with Write _ _ | Close _ => true | _ => false end.

(** What happens on the writer: the trace without console lines and
    collaborator calls. *)
Definition stream (t : list Action) : list Action := filter is_writer_action t.

(** Accepted writes of the given events. *)
Definition writes (es : list StreamEvent) : list Action :=
  map (fun e => Write e true) es.

(** The progress values the sent events carry. *)
Definition progress_values (es : list StreamEvent) : list Z :=
  flat_map (fun e => match progress e with Some n => [n] | None => [] end) es.



Definition is_error (e : StreamEvent) : bool :=
  match type e with type_error => true | _ => false end.

(** The phase events of a run in which nothing fails, by phase. The
    events of the comms phase depend on whether functions are deployed. *)
Definition events_coordinates : list StreamEvent :=
  [phaseEvent coordinates 5; phaseEvent coordinates 10;
   phaseEvent coordinates 15; phaseEvent coordinates 20].
Definition events_signal (data : RunPayload) : list StreamEvent :=
  if includes (skipped data) wait_project then []
  else [phaseEvent signal 25; phaseEvent signal 35].
Definition events_station (data : RunPayload) : list StreamEvent :=
  if includes (skipped data) migrations then []
  else [phaseEvent station 40; phaseEvent station 55].
Definition events_comms (data : RunPayload) (hasLocal : bool) : list StreamEvent :=
  if deployEdgeFunctions (supabase data) && hasLocal
  then [phaseEvent comms 60; phaseEvent comms 65; phaseEvent comms 75]
  else [phaseEvent comms 60; phaseEvent comms 75].
Definition events_contact (data : RunPayload) : list StreamEvent :=
  if includes (skipped data) bootstrap then []
  else [phaseEvent contact 80; phaseEvent contact 90].
Definition events_landing : list StreamEvent :=
  [phaseEvent landing 92; phaseEvent landing 98].
Definition events_complete : list StreamEvent :=
  [phaseEvent complete 100; completeEvent].

Definition expected_events (data : RunPayload) (hasLocal : bool) : list StreamEvent :=
  events_coordinates ++ events_signal data ++ events_station data
  ++ events_comms data hasLocal ++ events_contact data
  ++ events_landing ++ events_complete.

(** The events sent before a call or a check that can end a phase: the
    points at which a run can stop short with the writer still taking
    writes. *)
Definition cuts_coordinates : list (list StreamEvent) :=
  [[phaseEvent coordinates 5];
   [phaseEvent coordinates 5; phaseEvent coordinates 10];
   [phaseEvent coordinates 5; phaseEvent coordinates 10; phaseEvent coordinates 15]].
Definition cuts_signal (data : RunPayload) : list (list StreamEvent) :=
  if includes (skipped data) wait_project then [] else [[phaseEvent signal 25]].
Definition cuts_station (data : RunPayload) : list (list StreamEvent) :=
  if includes (skipped data) migrations then [] else [[phaseEvent station 40]].
Definition cuts_comms (data : RunPayload) (hasLocal : bool) : list (list StreamEvent) :=
  if deployEdgeFunctions (supabase data) && hasLocal
  then [[phaseEvent comms 60]; [phaseEvent comms 60; phaseEvent comms 65]]
  else [].
Definition cuts_contact (data : RunPayload) : list (list StreamEvent) :=
  if includes (skipped data) bootstrap then [] else [[phaseEvent contact 80]].

(** The cuts of a block followed by another: those of the first, and
    those of the second after all the events of the first. *)
Definition cuts_then (es1 : list StreamEvent) (C1 C2 : list (list StreamEvent))
  : list (list StreamEvent) :=
  C1 ++ map (app es1) C2.

Definition cuts_phases (data : RunPayload) (hasLocal : bool) : list (list StreamEvent) :=
  cuts_then events_coordinates cuts_coordinates
    (cuts_then (events_signal data) (cuts_signal data)
       (cuts_then (events_station data) (cuts_station data)
          (cuts_then (events_comms data hasLocal) (cuts_comms data hasLocal)
             (cuts_then (events_contact data) (cuts_contact data) [])))).

(** The cuts of the [try] block: before anything is sent (the listing
    of the local bundles, the credential check), and those of the
    phases. *)
Definition expected_cuts (data : RunPayload) (hasLocal : bool) : list (list StreamEvent) :=
  [] :: cuts_phases data hasLocal.


(** Whether this run finds local function bundles: the result of
    [listEdgeFunctionSlugs], consulted only when deployment is on. *)
Definition found_local (data : RunPayload) (co : Collaborators) : bool :=
  deployEdgeFunctions (supabase data)
  && match listEdgeFunctionSlugs co with
     | Returns l => hasLocalEdgeFunctions l
     | Throws _ => false
     end.

(** The listing of the local function bundles as lines 185-187 make it:
    [listEdgeFunctionSlugs] is awaited only when deployment is on. *)
Definition localEdgeFunctionSlugs (data : RunPayload) (co : Collaborators)
  : Outcome (list jsstring) :=
  if deployEdgeFunctions (supabase data) then listEdgeFunctionSlugs co else Returns [].

(** The message the [catch] block sends for a thrown value. *)
Definition catch_message (err : Thrown) : jsstring :=
  match err with
  | ErrorObject message => message
  | NonError => msg_generic
  end.

(** The world in which the [try] block starts. *)
Definition try_world (data : RunPayload) (co : Collaborators) : World :=
  record (Log (log_inicio (skipped data))) (initial_world data co).






Definition is_bootstrap (c : Call) : bool :=
  match c with call_bootstrapInstance _ _ _ _ _ => true | _ => false end.
Definition is_set_secrets (c : Call) : bool :=
  match c with call_setSupabaseEdgeFunctionSecrets _ _ _ _ _ => true | _ => false end.
Definition is_deploy (c : Call) : bool :=
  match c with call_deployAllSupabaseEdgeFunctions _ _ => true | _ => false end.
Definition is_redeploy (c : Call) : bool :=
  match c with call_triggerProjectRedeploy _ _ _ => true | _ => false end.

(** The console lines of a run, in order. *)
Definition console (t : list Action) : list LogLine :=
  flat_map (fun a => match a with Log l => [l] | _ => [] end) t.

(** Every upload of functions comes after a call that sets the secrets,
    and that call reported success. *)
Definition secrets_before_deploy (co : Collaborators) (cs : list Call) : Prop :=
  forall pre c post,
    cs = pre ++ c :: post -> is_deploy c = true ->
    setSupabaseEdgeFunctionSecrets co = Returns true
    /\ exists c', In c' pre /\ is_set_secrets c' = true.


(** Actions that call no collaborator satisfying [bad]. *)
Definition no_call (bad : Call -> bool) (a : Action) : Prop :=
  match a with Called c => bad c = false | _ => True end.

(** Actions that are not an accepted write of [e]. *)
Definition no_write (e : StreamEvent) (a : Action) : Prop :=
  a <> Write e true.

(** ** Judgements on blocks of the task *)

Definition Prefix {A} (p l : list A) : Prop := exists q, l = p ++ q.

(** The writer takes a write: the task has not closed it and no write
    has found the client gone. *)
Definition writable (w : World) : Prop :=
  writerClosed w = false /\ client w <> gone.

(** [emits m es C]: started with a writable writer, the block [m] writes
    the events [es] when it ends normally and leaves the writer writable.
    When it throws with the writer still writable (an exception of a
    collaborator), it has written one of the initial parts [C] of [es].
    When one of its writes finds the client gone, it has written an
    initial part of [es], and the rejected write is the last action on
    the writer. When it returns out of the task it has written one of
    [C], then one error event, and has closed the writer. A client that
    stays, stays. *)
Definition emits {A} (m : M A) (es : list StreamEvent)
    (C : list (list StreamEvent)) : Prop :=
  forall w, writable w ->
    (client w = stays -> client (snd (m w)) = stays)
    /\ match m w with
       | (Normal _, w') =>
           writable w'
           /\ stream (trace w') = stream (trace w) ++ writes es
       | (Throw _, w') =>
           (writable w'
            /\ exists p, In p C
               /\ stream (trace w') = stream (trace w) ++ writes p)
           \/ (writerClosed w' = false /\ client w' = gone
               /\ exists p e, (Prefix p es \/ In p C)
                  /\ stream (trace w') =
                     stream (trace w) ++ writes p ++ [Write e false])
       | (Return_, w') =>
           writerClosed w' = true /\ client w' <> gone
           /\ exists p message, In p C
              /\ stream (trace w') =
                 stream (trace w) ++ writes p
                 ++ [Write (errorEvent message) true; Close true]
       end.

(** [appends D m]: whatever the world, [m] extends the trace by some
    actions [d] with [D d]. *)
Definition appends {A} (D : list Action -> Prop) (m : M A) : Prop :=
  forall w, exists d, trace (snd (m w)) = trace w ++ d /\ D d.

(** [footprint ok m]: [m] only adds actions that satisfy [ok]. *)
Definition footprint {A} (ok : Action -> Prop) (m : M A) : Prop :=
  appends (Forall ok) m.

(** A Hoare triple; the postcondition sees how the block ended. *)
Definition triple {A} (P : World -> Prop) (m : M A)
    (Q : Completion A -> World -> Prop) : Prop :=
  forall w, P w -> Q (fst (m w)) (snd (m w)).

(** The ways a run ends, by how its [try] block ended: the completion
    of the task and what happened on the writer. In the last two the
    client has gone: the error event of the [catch] block and the close of
    the [finally] block are rejected, and so is the task's promise. *)
Inductive run_shape (data : RunPayload) (co : Collaborators)
  : Completion unit -> Completion unit -> list Action -> Prop :=
| run_success :
    run_shape data co (Normal tt) (Normal tt)
      (writes (expected_events data (found_local data co)) ++ [Close true])
| run_handled_failure p message :
    In p (expected_cuts data (found_local data co)) ->
    run_shape data co Return_ (Throw (ErrorObject msg_writer_closed))
      (writes p ++ [Write (errorEvent message) true; Close true; Close false])
| run_exception p e :
    In p (expected_cuts data (found_local data co)) ->
    run_shape data co (Throw e) (Normal tt)
      (writes p ++ [Write (errorEvent (catch_message e)) true; Close true])
| run_exception_unheard p e r :
    In p (expected_cuts data (found_local data co)) ->
    run_shape data co (Throw e) (Throw r)
      (writes p ++ [Write (errorEvent (catch_message e)) false; Close false])
| run_client_gone p ev e r :
    Prefix p (expected_events data (found_local data co)) ->
    run_shape data co (Throw e) (Throw r)
      (writes p ++ [Write ev false; Write (errorEvent (catch_message e)) false;
                    Close false]).

(** The local function bundles as the [try] block sees them: the result
    of the listing when deployment is on, none otherwise. *)
Definition listed (data : RunPayload) (co : Collaborators) (l : list jsstring) : Prop :=
  if deployEdgeFunctions (supabase data)
  then listEdgeFunctionSlugs co = Returns l
  else l = [].

(** Properties of what a block adds to the trace. *)
Definition guarded (co : Collaborators) (d : list Action) : Prop :=
  secrets_before_deploy co (calls d).

Definition is_deployer (c : Call) : bool := is_set_secrets c || is_deploy c.





(** No redeploy has been requested so far. *)
Definition not_landed (w : World) : Prop :=
  Forall (fun c => is_redeploy c = false) (calls (trace w)).

Definition before_landing (w : World) : Prop :=
  writable w /\ not_landed w.

(** A block that ends abruptly has not requested the redeploy. *)
Definition still_before_landing {A} (c : Completion A) (w : World) : Prop :=
  match c with
  | Normal _ => before_landing w
  | _ => not_landed w
  end.

(** If the redeploy was requested, the block ended normally, or one of
    the writes after the redeploy found the client gone. *)
Definition landed_well (c : Completion unit) (w : World) : Prop :=
  Exists (fun c => is_redeploy c = true) (calls (trace w)) ->
  c = Normal tt \/ ((exists e, c = Throw e) /\ client w = gone).

(** The same request, with another [installerToken]. *)
Definition with_installerToken (data : RunPayload) (t : option jsstring) : RunPayload :=
  mkRunPayload t (vercel data) (supabase data) (admin data) (healthCheck data).

(** The same collaborators, with another outcome of the redeploy. *)
Definition with_redeploy (co : Collaborators) (o : Outcome unit) : Collaborators :=
  mkCollaborators (extractProjectRefFromSupabaseUrl co) (listEdgeFunctionSlugs co)
    (resolveSupabaseApiKeys co) (resolveSupabaseDbUrlViaCliLoginRole co)
    (upsertProjectEnvs co) (waitForSupabaseProjectReady co)
    (runSchemaMigration co) (setSupabaseEdgeFunctionSecrets co)
    (deployAllSupabaseEdgeFunctions co) (bootstrapInstance co) o
    (URL_parses co) (URL_error co) (clientReads co) (cancelReason co).

(** The same collaborators, with another client. *)
Definition with_clientReads (co : Collaborators) (reads : option nat) : Collaborators :=
  mkCollaborators (extractProjectRefFromSupabaseUrl co) (listEdgeFunctionSlugs co)
    (resolveSupabaseApiKeys co) (resolveSupabaseDbUrlViaCliLoginRole co)
    (upsertProjectEnvs co) (waitForSupabaseProjectReady co)
    (runSchemaMigration co) (setSupabaseEdgeFunctionSecrets co)
    (deployAllSupabaseEdgeFunctions co) (bootstrapInstance co)
    (triggerProjectRedeploy co) (URL_parses co) (URL_error co) reads
    (cancelReason co).

(** The same collaborators, with another outcome of the listing of the
    local function bundles. *)
Definition with_listing (co : Collaborators) (o : Outcome (list jsstring)) : Collaborators :=
  mkCollaborators (extractProjectRefFromSupabaseUrl co) o
    (resolveSupabaseApiKeys co) (resolveSupabaseDbUrlViaCliLoginRole co)
    (upsertProjectEnvs co) (waitForSupabaseProjectReady co)
    (runSchemaMigration co) (setSupabaseEdgeFunctionSecrets co)
    (deployAllSupabaseEdgeFunctions co) (bootstrapInstance co)
    (triggerProjectRedeploy co) (URL_parses co) (URL_error co) (clientReads co)
    (cancelReason co).

(** ** Concrete requests and environments *)

Module Examples.

(** Every collaborator succeeds; no local function bundle. *)
Definition all_ok : Collaborators :=
  mkCollaborators (fun _ => None) (Returns [])
    (Returns (keys_ok (str "pk") (str "sk")))
    (Returns (db_ok (str "postgresql://u:p@db.host:5432/postgres")))
    (Returns tt) (Returns true) (Returns tt) (Returns true) (Returns tt)
    (Returns true) (Returns tt) (fun _ => true) (str "Invalid URL")
    None (ErrorObject (str "The client has gone.")).

(** As [all_ok], with one local function bundle. *)
Definition with_bundle : Collaborators :=
  mkCollaborators (fun _ => Some (str "abcd")) (Returns [str "notify"])
    (Returns (keys_ok (str "pk") (str "sk")))
    (Returns (db_ok (str "postgresql://u:p@db.host:5432/postgres")))
    (Returns tt) (Returns true) (Returns tt) (Returns true) (Returns tt)
    (Returns true) (Returns tt) (fun _ => true) (str "Invalid URL")
    None (ErrorObject (str "The client has gone.")).

(** As [all_ok], but writing the deployment variables throws. *)
Definition upsert_throws : Collaborators :=
  mkCollaborators (fun _ => None) (Returns [])
    (Returns (keys_ok (str "pk") (str "sk")))
    (Returns (db_ok (str "postgresql://u:p@db.host:5432/postgres")))
    (Throws (ErrorObject (str "connect ECONNREFUSED 10.0.0.5:443")))
    (Returns true) (Returns tt) (Returns true) (Returns tt)
    (Returns true) (Returns tt) (fun _ => true) (str "Invalid URL")
    None (ErrorObject (str "The client has gone.")).

(** As [with_bundle], but the project never becomes ready. *)
Definition never_ready : Collaborators :=
  mkCollaborators (fun _ => Some (str "abcd")) (Returns [str "notify"])
    (Returns (keys_ok (str "pk") (str "sk")))
    (Returns (db_ok (str "postgresql://u:p@db.host:5432/postgres")))
    (Returns tt) (Returns false) (Returns tt) (Returns true) (Returns tt)
    (Returns true) (Returns tt) (fun _ => true) (str "Invalid URL")
    None (ErrorObject (str "The client has gone.")).

(** As [all_ok], but the redeploy throws. *)
Definition redeploy_throws : Collaborators :=
  with_redeploy all_ok (Throws (ErrorObject (str "Vercel 500"))).

Definition a_vercel : VercelInput :=
  mkVercel (str "vtok") None (str "prj_1") [production].

Definition an_admin : AdminInput :=
  mkAdmin (str "Acme Ltda") (str "ana@acme.test") (str "s3cret!").

(** All three secrets supplied. *)
Definition supplied (deploy : bool) (hc : option HealthCheck) : RunPayload :=
  mkRunPayload None a_vercel
    (mkSupabase (str "https://abcd.supabase.co") (Some (str "anon"))
       (Some (str "service")) (Some (str "postgresql://db")) None None deploy)
    an_admin hc.

(** The service-role key is missing, and so is the access token. *)
Definition no_service_key : RunPayload :=
  mkRunPayload None a_vercel
    (mkSupabase (str "https://abcd.supabase.co") (Some (str "anon"))
       None (Some (str "postgresql://db")) None (Some (str "abcd")) false)
    an_admin None.

(** Secrets supplied, access token given, functions to be deployed. *)
Definition with_token : RunPayload :=
  mkRunPayload None a_vercel
    (mkSupabase (str "https://abcd.supabase.co") (Some (str "anon"))
       (Some (str "service")) (Some (str "postgresql://db"))
       (Some (str "sbp_token")) None true)
    an_admin None.

(** As [no_service_key], with the deployment of functions on. *)
Definition no_service_key_deploying : RunPayload :=
  mkRunPayload None a_vercel
    (mkSupabase (str "https://abcd.supabase.co") (Some (str "anon"))
       None (Some (str "postgresql://db")) None (Some (str "abcd")) true)
    an_admin None.

(** As [all_ok], but the listing of the local function bundles throws. *)
Definition listing_throws : Collaborators :=
  with_listing all_ok
    (Throws (ErrorObject (str "EACCES: permission denied, scandir 'supabase/functions'"))).

End Examples.

(** ** The handler *)

(** [POST]: an error response, or the stream together with the
    background task that feeds it. *)
Definition POST (penv : ProcessEnv) (co : Collaborators)
    (req : HttpRequest RunPayload)
  : Response jsstring + Completion unit * World :=
  match entry_checks installerToken penv req with
  | inl r => inl r
  | inr data => inr (run data co)
  end.

End RunStream.

(* ================================================================== *)
(** * The administrative project delete route *)

Module DeleteRoute.

Record DeletePayload : Type := mkDeletePayload {
  installerToken : option jsstring;
  accessToken : jsstring;
  projectRef : jsstring;
  confirmRef : jsstring
}.

(** What [deleteSupabaseProject] resolves to. *)
Inductive DeleteResult : Type :=
| delete_ok
| delete_failed (error : jsstring) (status : option Z).

Inductive Call : Type :=
| call_deleteSupabaseProject (accessToken projectRef : jsstring).

Inductive Body : Type :=
| body_error (error : jsstring)
| body_failed (error : jsstring) (status : option Z)
| body_ok.

(** What [Schema] asks of the fields, beyond their types. *)
Definition Schema_accepts (data : DeletePayload) : bool :=
  (1 <=? List.length (accessToken data))%nat
  && (1 <=? List.length (projectRef data))%nat
  && (1 <=? List.length (confirmRef data))%nat.

Definition msg_mismatch : jsstring :=
  str "Confirmation mismatch. Type the project ref exactly to confirm deletion.".

(** [POST]: the collaborator calls made, and the response, or the
    exception the handler ends with when the collaborator throws. *)
Definition POST (penv : ProcessEnv) (deleteSupabaseProject : Outcome DeleteResult)
    (req : HttpRequest DeletePayload)
  : list Call * Outcome (Response Body) :=
  match entry_checks installerToken penv req with
  | inl r => ([], Returns (mkResponse (status r) (body_error (body r))))
  | inr data =>
      let ref := trim (projectRef data) in
      if negb (eqb (trim (confirmRef data)) ref)
      then ([], Returns (mkResponse 400 (body_error msg_mismatch)))
      else
        ([call_deleteSupabaseProject (trim (accessToken data)) ref],
         match deleteSupabaseProject with
         | Returns delete_ok => Returns (mkResponse 200 body_ok)
         | Returns (delete_failed e st) =>
             new_Response (body_failed e st) (num_or st 500)
         | Throws e => Throws e
         end)
  end.

(** The same request, with another [installerToken]. *)
Definition with_installerToken (data : DeletePayload) (t : option jsstring)
  : DeletePayload :=
  mkDeletePayload t (accessToken data) (projectRef data) (confirmRef data).

(** A confirmation that differs from the project ref by a trailing space. *)
Definition trailing_space : DeletePayload :=
  mkDeletePayload None (str "sbp_token") (str "abcdefgh") (str "abcdefgh ").

(** A confirmation for another project. *)
Definition other_project : DeletePayload :=
  mkDeletePayload None (str "sbp_token") (str "abcdefgh") (str "zyxwvuts").

End DeleteRoute.

(* ================================================================== *)
(** * The project list route *)

Module ListRoute.

Record ListPayload : Type := mkListPayload {
  installerToken : option jsstring;
  accessToken : jsstring;
  organizationSlug : jsstring;
  statuses : option (list jsstring)
}.

Section Route.

(** The organization and project records of the platform; the handler
    reads only the [ref] of a project. *)
Variables Organization Project : Type.
Variable ref : Project -> jsstring.

Inductive OrgResult : Type :=
| org_ok (organization : Organization)
| org_failed (error : jsstring) (status : option Z).

Inductive ProjectsResult : Type :=
| projects_ok (projects : list Project)
| projects_failed (error : jsstring) (status : option Z).

Inductive Call : Type :=
| call_getSupabaseOrganization (accessToken organizationSlug : jsstring)
| call_listSupabaseOrganizationProjects (accessToken organizationSlug : jsstring)
    (statuses : option (list jsstring)) (limit : Z).

Inductive Body : Type :=
| body_error (error : jsstring)
| body_failed (error : jsstring) (status : option Z)
| body_ok (organization : Organization) (count : nat)
    (projects : list (Project * jsstring)).

(** [`https://${p.ref}.supabase.co`] *)
Definition supabaseUrl (p : Project) : jsstring :=
  str "https://" ++ ref p ++ str ".supabase.co".

Definition POST (penv : ProcessEnv)
    (getSupabaseOrganization : Outcome OrgResult)
    (listSupabaseOrganizationProjects : Outcome ProjectsResult)
    (req : HttpRequest ListPayload)
  : list Call * Outcome (Response Body) :=
  match entry_checks installerToken penv req with
  | inl r => ([], Returns (mkResponse (status r) (body_error (body r))))
  | inr data =>
      let token := trim (accessToken data) in
      let slug := trim (organizationSlug data) in
      let c1 := call_getSupabaseOrganization token slug in
      match getSupabaseOrganization with
      | Throws e => ([c1], Throws e)
      | Returns (org_failed e st) =>
          ([c1], new_Response (body_failed e st) (num_or st 500))
      | Returns (org_ok organization) =>
          let c2 := call_listSupabaseOrganizationProjects token slug
                      (statuses data) 200 in
          ([c1; c2],
           match listSupabaseOrganizationProjects with
           | Throws e => Throws e
           | Returns (projects_failed e st) =>
               new_Response (body_failed e st) (num_or st 500)
           | Returns (projects_ok projects) =>
               Returns (mkResponse 200
                          (body_ok organization (List.length projects)
                             (map (fun p => (p, supabaseUrl p)) projects)))
           end)
      end
  end.

End Route.

(** The same request, with another [installerToken]. *)
Definition with_installerToken (data : ListPayload) (t : option jsstring)
  : ListPayload :=
  mkListPayload t (accessToken data) (organizationSlug data) (statuses data).

End ListRoute.

(* ================================================================== *)
(** * More on the streaming installation run *)

Module Pipeline.

Import RunStream.
Local Open Scope run_scope.

(** ** The first name in the titles (lines 142-144, 56-94) *)

(** [s.split(' ')[0]]: what precedes the first space. *)
Fixpoint before_space (s : jsstring) : jsstring :=
  match s with
  | [] => []
  | c :: r => if (c =? 32)%N then [] else c :: before_space r
  end.

Definition voce : jsstring := str "voc" ++ [234%N].

(** [admin.companyName.split(' ')[0] || 'você'] *)
Definition firstName (data : RunPayload) : jsstring :=
  or_else (Some (before_space (companyName (admin data)))) voce.

(** ** The collaborators in the order of the pipeline *)

Definition call_rank (c : Call) : nat :=
  match c with
  | call_listEdgeFunctionSlugs => 0
  | call_resolveSupabaseApiKeys _ _ => 1
  | call_resolveSupabaseDbUrlViaCliLoginRole _ _ => 2
  | call_upsertProjectEnvs _ _ _ _ _ => 3
  | call_waitForSupabaseProjectReady _ _ _ _ => 4
  | call_runSchemaMigration _ => 5
  | call_setSupabaseEdgeFunctionSecrets _ _ _ _ _ => 6
  | call_deployAllSupabaseEdgeFunctions _ _ => 7
  | call_bootstrapInstance _ _ _ _ _ => 8
  | call_triggerProjectRedeploy _ _ _ => 9
  end.

Section Resolved.

Variable data : RunPayload.
Variable co : Collaborators.

(** The anon key and the service-role key with which the run goes on
    after lines 206-220: those of the resolver as soon as one of the two
    is missing, the supplied ones otherwise. When the resolver gives no
    keys the run stops there, and the value is of no account. *)
Definition resolvedKeys : jsstring * jsstring :=
  if needsKeys data then
    match resolveSupabaseApiKeys co with
    | Returns (keys_ok publishableKey secretKey) => (publishableKey, secretKey)
    | _ => ([], [])
    end
  else (suppliedAnonKey data, suppliedServiceRoleKey data).

(** The DB connection string with which the run goes on after lines
    224-237. *)
Definition resolvedDbUrl : jsstring :=
  if needsDb data then
    match resolveSupabaseDbUrlViaCliLoginRole co with
    | Returns (db_ok u) => u
    | _ => []
    end
  else suppliedDbUrl data.

Definition ref : jsstring := resolvedProjectRef data co.
Definition tok : jsstring := resolvedAccessToken data.

(** Where the two keys of a later call come from: the resolver when one
    of them is missing in the request, the request otherwise. *)
Definition keys_source (a s : jsstring) : Prop :=
  if needsKeys data
  then resolveSupabaseApiKeys co = Returns (keys_ok a s)
  else a = suppliedAnonKey data /\ s = suppliedServiceRoleKey data.

(** Where the DB connection string of the migration comes from. *)
Definition db_source (u : jsstring) : Prop :=
  if needsDb data
  then resolveSupabaseDbUrlViaCliLoginRole co = Returns (db_ok u)
  else u = suppliedDbUrl data.

(** The calls of each phase when nothing stops it. *)
Definition calls_coordinates : list Call :=
  (if needsKeys data then [call_resolveSupabaseApiKeys ref tok] else [])
  ++ (if needsDb data then [call_resolveSupabaseDbUrlViaCliLoginRole ref tok] else [])
  ++ [call_upsertProjectEnvs (token (vercel data)) (projectId (vercel data))
        [ (str "NEXT_PUBLIC_SUPABASE_URL", url (supabase data));
          (str "NEXT_PUBLIC_SUPABASE_ANON_KEY", fst resolvedKeys);
          (str "SUPABASE_SERVICE_ROLE_KEY", snd resolvedKeys);
          (str "INSTALLER_ENABLED", str "false") ]
        (targets (vercel data)) (or_undefined (teamId (vercel data)))].

Definition calls_signal : list Call :=
  if negb (includes (skipped data) wait_project) && (truthy tok && truthy ref)
  then [call_waitForSupabaseProjectReady tok ref 210000 4000]
  else [].

Definition calls_station : list Call :=
  if negb (includes (skipped data) migrations)
  then [call_runSchemaMigration resolvedDbUrl]
  else [].

Definition calls_comms (hasLocal : bool) : list Call :=
  if deployEdgeFunctions (supabase data) && hasLocal
  then [call_setSupabaseEdgeFunctionSecrets ref tok (url (supabase data))
          (fst resolvedKeys) (snd resolvedKeys);
        call_deployAllSupabaseEdgeFunctions ref tok]
  else [].

Definition calls_contact : list Call :=
  if negb (includes (skipped data) bootstrap)
  then [call_bootstrapInstance (url (supabase data)) (snd resolvedKeys)
          (companyName (admin data)) (email (admin data)) (password (admin data))]
  else [].

Definition calls_landing : list Call :=
  [call_triggerProjectRedeploy (token (vercel data)) (projectId (vercel data))
     (or_undefined (teamId (vercel data)))].

Definition calls_phases (hasLocal : bool) : list Call :=
  calls_coordinates ++ calls_signal ++ calls_station ++ calls_comms hasLocal
  ++ calls_contact ++ calls_landing.

(** The calls of a run in which nothing fails. *)
Definition expected_calls : list Call :=
  (if deployEdgeFunctions (supabase data) then [call_listEdgeFunctionSlugs] else [])
  ++ calls_phases (found_local data co).

End Resolved.

(** [invokes m cs R]: the block [m] makes the calls [cs], in this order,
    and hands on a value with [R], when it ends normally; it has made an
    initial part of [cs] when it ends otherwise. *)
Definition invokes {A} (m : M A) (cs : list Call) (R : A -> Prop) : Prop :=
  forall w, exists d,
    calls (trace (snd (m w))) = calls (trace w) ++ d
    /\ match fst (m w) with
       | Normal a => d = cs /\ R a
       | _ => Prefix d cs
       end.

(** What a block does from a world, moved behind the trace [t]. *)
Definition shift {A} (t : list Action) (r : Completion A * World)
  : Completion A * World :=
  (fst r,
   mkWorld (writerClosed (snd r)) (client (snd r)) (rejection (snd r))
     (t ++ trace (snd r))).

(** [framed m]: what [m] does and adds to the trace does not depend on
    the trace so far. *)
Definition framed {A} (m : M A) : Prop :=
  forall cl c r t, m (mkWorld cl c r t) = shift t (m (mkWorld cl c r [])).

(** The complete event has not been sent so far. *)
Definition not_completed (w : World) : Prop :=
  ~ In completeEvent (sent (trace w)).

Definition before_complete (w : World) : Prop :=
  writable w /\ not_completed w.

(** A block that ends abruptly has not sent the complete event. *)
Definition still_before_complete {A} (c : Completion A) (w : World) : Prop :=
  match c with
  | Normal _ => before_complete w
  | _ => not_completed w
  end.

(** If the complete event was sent, the block ended normally. *)
Definition completed_normally (c : Completion unit) (w : World) : Prop :=
  In completeEvent (sent (trace w)) -> c = Normal tt.

(** The phase that the progress of a phase event belongs to. *)
Definition phase_of_progress (n : Z) : PhaseId :=
  if (n <=? 20)%Z then coordinates
  else if (n <=? 35)%Z then signal
  else if (n <=? 55)%Z then station
  else if (n <=? 75)%Z then comms
  else if (n <=? 90)%Z then contact
  else if (n <=? 98)%Z then landing
  else complete.

(** The same request, with another Health-Check Hint. *)
Definition with_healthCheck (data : RunPayload) (hc : option HealthCheck) : RunPayload :=
  mkRunPayload (installerToken data) (vercel data) (supabase data) (admin data) hc.

(** The messages of the handled failures. *)
Definition handled_messages : list jsstring :=
  [msg_no_access_token; msg_no_project_ref; msg_keys; msg_db; msg_not_ready;
   msg_secrets; msg_bootstrap].

(** An action that is not the write of an error event with a message
    outside [handled_messages]. *)
Definition handled_error_only (a : Action) : Prop :=
  match a with
  | Write e _ =>
      is_error e = true -> exists m, e = errorEvent m /\ In m handled_messages
  | _ => True
  end.

(** An exception that reaches the [catch] block comes from a
    collaborator other than the redeploy, whose exception is swallowed,
    or from [new URL] on the derived DB connection string. *)
Definition thrown_by (co : Collaborators) (e : Thrown) : Prop :=
  listEdgeFunctionSlugs co = Throws e
  \/ resolveSupabaseApiKeys co = Throws e
  \/ resolveSupabaseDbUrlViaCliLoginRole co = Throws e
  \/ (exists u, resolveSupabaseDbUrlViaCliLoginRole co = Returns (db_ok u)
                /\ URL_parses co (replace (str "postgresql://") (str "http://") u) = false
                /\ e = ErrorObject (URL_error co))
  \/ upsertProjectEnvs co = Throws e
  \/ waitForSupabaseProjectReady co = Throws e
  \/ runSchemaMigration co = Throws e
  \/ setSupabaseEdgeFunctionSecrets co = Throws e
  \/ deployAllSupabaseEdgeFunctions co = Throws e
  \/ bootstrapInstance co = Throws e.

(** [needsManagementApi && (!resolvedAccessToken || !resolvedProjectRef)]
    (lines 185-199), for the local bundles this run finds. *)
Definition credentials_missing (data : RunPayload) (co : Collaborators) : bool :=
  needsManagementApi data (found_local data co)
  && (negb (truthy (resolvedAccessToken data))
      || negb (truthy (resolvedProjectRef data co))).

(** What makes the task send an error event of its own and return. *)
Definition handled_cause (data : RunPayload) (co : Collaborators) : Prop :=
  credentials_missing data co = true
  \/ resolveSupabaseApiKeys co = Returns keys_failed
  \/ resolveSupabaseDbUrlViaCliLoginRole co = Returns db_failed
  \/ waitForSupabaseProjectReady co = Returns false
  \/ setSupabaseEdgeFunctionSecrets co = Returns false
  \/ bootstrapInstance co = Returns false.

(** How a block ends when it starts with a writer that takes writes:
    normally with the writer still taking writes, by [return] after a
    handled failure, with an exception of a collaborator, or with the
    rejection of a write that found the client gone. *)
Definition raises (data : RunPayload) (co : Collaborators) {A}
    (c : Completion A) (w : World) : Prop :=
  match c with
  | Normal _ => writable w
  | Return_ => handled_cause data co
  | Throw e => thrown_by co e \/ client w = gone
  end.

(** Whether the call of a collaborator fails in this run: it throws, or
    it reports a failure that the task checks. The upload of the
    functions and the redeploy fail by throwing only, and the exception of
    the redeploy is swallowed; a derived DB connection string that
    [new URL] rejects counts as a failure of its resolver. *)
Definition throws {A} (o : Outcome A) : bool :=
  match o with Throws _ => true | Returns _ => false end.

Definition reports_ok (o : Outcome bool) : bool :=
  match o with Returns true => true | _ => false end.

Definition fails (co : Collaborators) (c : Call) : bool :=
  match c with
  | call_listEdgeFunctionSlugs => throws (listEdgeFunctionSlugs co)
  | call_resolveSupabaseApiKeys _ _ =>
      match resolveSupabaseApiKeys co with
      | Returns (keys_ok _ _) => false
      | _ => true
      end
  | call_resolveSupabaseDbUrlViaCliLoginRole _ _ =>
      match resolveSupabaseDbUrlViaCliLoginRole co with
      | Returns (db_ok u) =>
          negb (URL_parses co (replace (str "postgresql://") (str "http://") u))
      | _ => true
      end
  | call_upsertProjectEnvs _ _ _ _ _ => throws (upsertProjectEnvs co)
  | call_waitForSupabaseProjectReady _ _ _ _ =>
      negb (reports_ok (waitForSupabaseProjectReady co))
  | call_runSchemaMigration _ => throws (runSchemaMigration co)
  | call_setSupabaseEdgeFunctionSecrets _ _ _ _ _ =>
      negb (reports_ok (setSupabaseEdgeFunctionSecrets co))
  | call_deployAllSupabaseEdgeFunctions _ _ => throws (deployAllSupabaseEdgeFunctions co)
  | call_bootstrapInstance _ _ _ _ _ => negb (reports_ok (bootstrapInstance co))
  | call_triggerProjectRedeploy _ _ _ => false
  end.

(** In [d], a call that satisfies [bad] is the last one. *)
Definition stops_at (bad : Call -> bool) (d : list Call) : Prop :=
  forall pre c post, d = pre ++ c :: post -> bad c = true -> post = [].

(** [halts bad m]: a call of [m] that satisfies [bad] is its last call,
    and [m] does not end normally after one. *)
Definition halts (bad : Call -> bool) {A} (m : M A) : Prop :=
  forall w, exists d,
    calls (trace (snd (m w))) = calls (trace w) ++ d
    /\ match fst (m w) with
       | Normal _ => Forall (fun c => bad c = false) d
       | _ => stops_at bad d
       end.

(** The writer is open and the client is one that stays. *)
Definition staying (w : World) : Prop :=
  writerClosed w = false /\ client w = stays.

(** How a block ends for a client that stays: normally, or otherwise
    after a call that failed. *)
Definition blames (co : Collaborators) {A} (c : Completion A) (w : World) : Prop :=
  match c with
  | Normal _ => staying w
  | _ => Exists (fun c => fails co c = true) (calls (trace w))
  end.

(** [aborts m]: [m] calls nothing and does not end normally. *)
Definition aborts {A} (m : M A) : Prop :=
  forall w, calls (trace (snd (m w))) = calls (trace w)
            /\ forall a, fst (m w) <> Normal a.

(** The resolver of the keys reports a failure and the redeploy throws;
    the other collaborators succeed. *)
Definition resolver_down : Collaborators :=
  mkCollaborators (fun _ => None) (Returns []) (Returns keys_failed)
    (Returns (db_ok (str "postgresql://u:p@db.host:5432/postgres")))
    (Returns tt) (Returns true) (Returns tt) (Returns true) (Returns tt)
    (Returns true) (Throws (ErrorObject (str "Vercel 500"))) (fun _ => true)
    (str "Invalid URL") None (ErrorObject (str "The client has gone.")).

(** A request that supplies only the anon key. *)
Definition anon_key_only : RunPayload :=
  mkRunPayload None Examples.a_vercel
    (mkSupabase (str "https://abcd.supabase.co") (Some (str "my-anon"))
       None (Some (str "postgresql://db")) (Some (str "sbp_token")) None false)
    Examples.an_admin None.

(** A company name that starts with a space. *)
Definition padded_company : RunPayload :=
  mkRunPayload None Examples.a_vercel
    (mkSupabase (str "https://abcd.supabase.co") (Some (str "anon"))
       (Some (str "service")) (Some (str "postgresql://db")) None None false)
    (mkAdmin (str " Acme") (str "ana@acme.test") (str "s3cret!")) None.

End Pipeline.

(* ================================================================== *)
(** * Concrete environments and requests of the routes *)

Module RouteExamples.

(** The installer is switched off. *)
Definition disabled_installer : ProcessEnv := mkProcessEnv (Some (str "false")) None.

(** The installer is enabled and expects a token. *)
Definition token_installer : ProcessEnv := mkProcessEnv None (Some (str "s3cr3t")).

Definition a_list_request : HttpRequest ListRoute.ListPayload :=
  mkRequest true (Some (ListRoute.mkListPayload None (str " sbp_token ") (str "acme") None)).

End RouteExamples.

(* ================================================================== *)
(** * The root page ([src/app/(protected)/page.tsx]) *)

Module HomePage.

Inductive PageCall : Type :=
| page_createClient
| page_rpc (fn : jsstring).

(** What is thrown in the page: the signal that [redirect] of
    [next/navigation] throws to leave the page (its return type is
    [never]), or any other value. *)
Inductive Exception : Type :=
| NEXT_REDIRECT (path : jsstring)
| Other (e : Thrown).

(** A block of the page: the calls it makes, and its value or the
    exception it ends with. *)
Definition Page (A : Type) : Type := list PageCall * (A + Exception).

Definition page_ret {A} (a : A) : Page A := ([], inl a).

Definition page_bind {A B} (m : Page A) (k : A -> Page B) : Page B :=
  match m with
  | (cs, inl a) => let (cs', r) := k a in (cs ++ cs', r)
  | (cs, inr e) => (cs, inr e)
  end.

(** [try { body } catch { }] *)
Definition try_catch_all (body : Page unit) : Page unit :=
  match body with
  | (cs, inr _) => (cs, inl tt)
  | r => r
  end.

Definition redirect {A} (path : jsstring) : Page A := ([], inr (NEXT_REDIRECT path)).

Definition page_await {A} (c : PageCall) (o : Outcome A) : Page A :=
  ([c], match o with Returns a => inl a | Throws e => inr (Other e) end).

(** The [{ data, error }] of [supabase.rpc]: [data] is [Some b] when it
    is the boolean [b], [error] is the message of the error object. *)
Record RpcResult : Type := mkRpcResult {
  data : option bool;
  error : option jsstring
}.

(** [!error && data === false] *)
Definition not_initialized (r : RpcResult) : bool :=
  match error r, data r with
  | None, Some false => true
  | _, _ => false
  end.

Definition Home (penv : ProcessEnv) (createClient : Outcome unit)
    (rpc : Outcome RpcResult) : Page unit :=
  page_bind (if negb (installer_disabled penv) then redirect (str "/install") else page_ret tt)
    (fun _ =>
  page_bind (try_catch_all
          (page_bind (page_await page_createClient createClient) (fun _ =>
           page_bind (page_await (page_rpc (str "is_instance_initialized")) rpc) (fun r =>
           if not_initialized r then redirect (str "/setup") else page_ret tt))))
    (fun _ =>
  redirect (str "/dashboard"))).

End HomePage.

(* ================================================================== *)
(** * The variables of a prompt
      ([src/features/settings/components/McpSection.tsx], second module) *)

Module Prompts.

(** [s.indexOf(pat)], from position [i] of the whole string; [None] is -1. *)
Fixpoint indexOf_from (pat s : jsstring) (i : nat) : option nat :=
  if startsWith s pat then Some i
  else match s with
       | [] => None
       | _ :: r => indexOf_from pat r (S i)
       end.

Definition indexOf (pat s : jsstring) : option nat := indexOf_from pat s 0.

(** [s.split(sep)] for a separator of one code unit. *)
Fixpoint split (sep : N) (s : jsstring) : list jsstring :=
  match s with
  | [] => [[]]
  | c :: r =>
      if (c =? sep)%N then [] :: split sep r
      else match split sep r with
           | h :: t => (c :: h) :: t
           | [] => [[c]]
           end
  end.

Definition comma : N := 44.
Definition period : N := 46.

(** ['variáveis:'] *)
Definition marker : jsstring := str "vari" ++ [225%N] ++ str "veis:".

Section Extract.

(** [String.prototype.toLowerCase], which follows the Unicode case
    mappings and may change the length of a string. *)
Variable toLowerCase : jsstring -> jsstring.

Definition extractVariablesFromNotes (notes : option jsstring) : list jsstring :=
  match notes with
  | None => []
  | Some notes =>
      if negb (truthy notes) then []
      else
        match indexOf marker (toLowerCase notes) with
        | None => []
        | Some idx =>
            let after := trim (skipn (idx + List.length marker) notes) in
            let segment :=
              trim (match indexOf [period] after with
                    | None => after
                    | Some end_ => firstn end_ after
                    end) in
            if negb (truthy segment) then []
            else filter truthy (map trim (split comma segment))
        end
  end.

End Extract.

(** ASCII lower case, for examples. *)
Definition ascii_lower (s : jsstring) : jsstring :=
  map (fun c => if ((65 <=? c) && (c <=? 90))%N then (c + 32)%N else c) s.

End Prompts.

(* ================================================================== *)
(** * The invites route of the administration ([src/unnamed/part_002]) *)

Module InvitesRoute.

Record User : Type := mkUser { user_id : jsstring }.

(** A row of [profiles], the three columns the handlers select. *)
Record Profile : Type := mkProfile {
  id : jsstring;
  role : jsstring;
  organization_id : option jsstring
}.

(** The [{ data, error }] of a query; [error] is the message of the
    error object. *)
Record QueryResult (A : Type) : Type := mkResult {
  data : option A;
  error : option jsstring
}.

Inductive Role : Type := admin | vendedor.

(** What [CreateInviteSchema] gives: [role] with its default applied,
    [expiresAt] and [email] with [None] for [null] and [undefined]. *)
Record InvitePayload : Type := mkInvitePayload {
  invite_role : Role;
  expiresAt : option jsstring;
  email : option jsstring
}.

Inductive Query : Type :=
| call_createClient
| call_getUser
| call_selectProfile (user_id : jsstring)
| call_selectInvites (organization_id : jsstring) (limit : Z)
| call_insertInvite (organization_id : jsstring) (role : Role)
    (email expires_at : option jsstring) (created_by : jsstring).

Section Route.

(** A row of [organization_invites] as the database returns it. *)
Variable Invite : Type.

(** What the database client gives back in this request. *)
Record Database : Type := mkDatabase {
  createClient : Outcome unit;
  getUser : Outcome (option User);
  selectProfile : Outcome (QueryResult Profile);
  selectInvites : Outcome (QueryResult (list Invite));
  insertInvite : Outcome (QueryResult Invite)
}.

Inductive InvitesBody : Type :=
| body_error (error : jsstring)
| body_invites (invites : list Invite)
| body_invite (invite : option Invite).

(** How a block of a handler ends: with a value, by [return] of a
    response, or by an exception. *)
Inductive Result (A : Type) : Type :=
| Value (a : A)
| Respond (r : Response InvitesBody)
| Raise (e : Thrown).

Arguments Respond {A} r.
Arguments Raise {A} e.

Definition Handler (A : Type) : Type := list Query * Result A.

Definition handler_ret {A} (a : A) : Handler A := ([], Value a).

Definition handler_bind {A B} (m : Handler A) (k : A -> Handler B) : Handler B :=
  match m with
  | (cs, Value a) => let (cs', r) := k a in (cs ++ cs', r)
  | (cs, Respond r) => (cs, Respond r)
  | (cs, Raise e) => (cs, Raise e)
  end.

Definition handler_await {A} (c : Query) (o : Outcome A) : Handler A :=
  ([c], match o with Returns a => Value a | Throws e => Raise e end).

(** [return json(body, status)] *)
Definition json {A} (b : InvitesBody) (status : Z) : Handler A := ([], Respond (mkResponse status b)).

(** The handler as a whole: its calls and its response or exception. *)
Definition handler (m : Handler (Response InvitesBody)) : list Query * Outcome (Response InvitesBody) :=
  match m with
  | (cs, Value r) => (cs, Returns r)
  | (cs, Respond r) => (cs, Returns r)
  | (cs, Raise e) => (cs, Throws e)
  end.

Variable co : Database.

(** Lines 27-42 and 67-82: the profile of an administrator. *)
Definition administrator : Handler (jsstring * jsstring) :=
  handler_bind (handler_await call_createClient (createClient co)) (fun _ =>
  handler_bind (handler_await call_getUser (getUser co)) (fun user =>
  match user with
  | None => json (body_error (str "Unauthorized")) 401
  | Some user =>
      handler_bind (handler_await (call_selectProfile (user_id user)) (selectProfile co)) (fun r =>
      match error r, data r with
      | None, Some me =>
          match organization_id me with
          | Some org =>
              if negb (truthy org)
              then json (body_error (str "Profile not found")) 404
              else if negb (eqb (role me) (str "admin"))
              then json (body_error (str "Forbidden")) 403
              else handler_ret (org, id me)
          | None => json (body_error (str "Profile not found")) 404
          end
      | _, _ => json (body_error (str "Profile not found")) 404
      end)
  end)).

Definition GET : list Query * Outcome (Response InvitesBody) :=
  handler
    (handler_bind administrator (fun me =>
     handler_bind (handler_await (call_selectInvites (fst me) 200) (selectInvites co)) (fun r =>
     match error r with
     | Some message => json (body_error message) 500
     | None =>
         handler_ret (mkResponse 200
                (body_invites (match data r with Some l => l | None => [] end)))
     end))).

Definition POST (req : HttpRequest InvitePayload) : list Query * Outcome (Response InvitesBody) :=
  handler
    (if negb (allowedOrigin req) then json (body_error (str "Forbidden")) 403
     else
       handler_bind administrator (fun me =>
       match parsed req with
       | None => json (body_error (str "Invalid payload")) 400
       | Some p =>
           handler_bind (handler_await (call_insertInvite (fst me) (invite_role p) (email p)
                          (expiresAt p) (snd me))
                       (insertInvite co)) (fun r =>
           match error r with
           | Some message => json (body_error message) 500
           | None => handler_ret (mkResponse 201 (body_invite (data r)))
           end)
       end)).

(** The administrator that the handlers let through: signed in, with a
    profile read without error, an organization and the role [admin]. *)
Definition admin_of (org me_id : jsstring) : Prop :=
  exists user me,
    getUser co = Returns (Some user)
    /\ selectProfile co = Returns (mkResult (Some me) None)
    /\ organization_id me = Some org /\ truthy org = true
    /\ role me = str "admin" /\ id me = me_id.

(** A call that does not touch [organization_invites]. *)
Definition before_invites (c : Query) : Prop :=
  match c with
  | call_selectInvites _ _ | call_insertInvite _ _ _ _ _ => False
  | _ => True
  end.

(** A rejection: no value, and a 4xx error response if any. *)
Definition rejection {A} (res : Result A) : Prop :=
  match res with
  | Value _ => False
  | Respond r => (400 < status r < 500)%Z /\ exists m, body r = body_error m
  | Raise _ => True
  end.

End Route.

Arguments Respond {Invite A} r.
Arguments Raise {Invite A} e.

(** An administrator of the organization [org-1], and a seller of it. *)
Definition as_admin : Database jsstring :=
  mkDatabase (Returns tt) (Returns (Some (mkUser (str "u-1"))))
    (Returns (mkResult (Some (mkProfile (str "u-1") (str "admin") (Some (str "org-1")))) None))
    (Returns (mkResult (Some [str "inv-1"]) None))
    (Returns (mkResult (Some (str "inv-2")) None)).

Definition as_seller : Database jsstring :=
  mkDatabase (Returns tt) (Returns (Some (mkUser (str "u-2"))))
    (Returns (mkResult (Some (mkProfile (str "u-2") (str "vendedor") (Some (str "org-1")))) None))
    (Returns (mkResult (Some [str "inv-1"]) None))
    (Returns (mkResult (Some (str "inv-2")) None)).

Definition an_invite : InvitePayload :=
  mkInvitePayload vendedor None (Some (str "ana@acme.test")).

End InvitesRoute.

(* ================================================================== *)
(** * Facts about the streaming installation run *)

Module RunStreamFacts.

Import RunStream.
Local Open Scope run_scope.

Lemma Prefix_nil {A} (l : list A) : Prefix [] l.
Proof. exists l. reflexivity. Qed.

Lemma Prefix_refl {A} (l : list A) : Prefix l l.
Proof. exists []. symmetry. apply app_nil_r. Qed.

Lemma Prefix_app_r {A} (p l l' : list A) : Prefix p l -> Prefix p (l ++ l').
Proof. intros [q ->]. exists (q ++ l'). symmetry. apply app_assoc. Qed.

Lemma Prefix_app_l {A} (p l l' : list A) : Prefix p l' -> Prefix (l ++ p) (l ++ l').
Proof. intros [q ->]. exists q. apply app_assoc. Qed.

Lemma stream_app t d : stream (t ++ d) = stream t ++ stream d.
Proof. apply filter_app. Qed.

Lemma writes_app a b : writes (a ++ b) = writes a ++ writes b.
Proof. apply map_app. Qed.

Lemma Prefix_of_nil {A} (p : list A) : Prefix p [] -> p = [].
Proof. intros [q H]. symmetry in H. now apply app_eq_nil in H. Qed.

(** The concrete requests pass the schema. *)
Lemma examples_pass_schema :
  (forall deploy hc, RunSchema_accepts (Examples.supplied deploy hc) = true)
  /\ RunSchema_accepts Examples.no_service_key = true
  /\ RunSchema_accepts Examples.with_token = true.
Proof. repeat split. Qed.

(** Two runs from start to end. With every secret supplied, deployment
    off and nothing skipped, all the phases are sent and the Function
    Deployer is not called. *)
Example run_all_supplied :
  let r := run (Examples.supplied false None) Examples.all_ok in
  fst r = Normal tt
  /\ sent (trace (snd r)) =
     [phaseEvent coordinates 5; phaseEvent coordinates 10;
      phaseEvent coordinates 15; phaseEvent coordinates 20;
      phaseEvent signal 25; phaseEvent signal 35;
      phaseEvent station 40; phaseEvent station 55;
      phaseEvent comms 60; phaseEvent comms 75;
      phaseEvent contact 80; phaseEvent contact 90;
      phaseEvent landing 92; phaseEvent landing 98;
      phaseEvent complete 100; completeEvent]
  /\ map is_deployer (calls (trace (snd r))) = [false; false; false; false]
  /\ closes (trace (snd r)) = [true].
Proof. vm_compute. repeat split. Qed.

(** When the project does not become ready in time, the run stops in the
    signal phase with one error event. *)
Example run_not_ready :
  let r := run Examples.with_token Examples.never_ready in
  sent (trace (snd r)) =
     [phaseEvent coordinates 5; phaseEvent coordinates 10;
      phaseEvent coordinates 15; phaseEvent coordinates 20;
      phaseEvent signal 25; errorEvent msg_not_ready]
  /\ closes (trace (snd r)) = [true; false].
Proof. vm_compute. repeat split. Qed.

(** A run whose client takes six chunks and then goes away: the write
    that finds it gone, the error event of the [catch] block and the close
    of the [finally] block are rejected, and so is the task. *)
Example run_client_leaves :
  let r := run (Examples.supplied false None)
               (with_clientReads Examples.all_ok (Some 6)) in
  fst r = Throw (ErrorObject (str "The client has gone."))
  /\ sent (trace (snd r)) =
     [phaseEvent coordinates 5; phaseEvent coordinates 10;
      phaseEvent coordinates 15; phaseEvent coordinates 20;
      phaseEvent signal 25; phaseEvent signal 35]
  /\ stream (trace (snd r)) =
     writes (sent (trace (snd r)))
     ++ [Write (phaseEvent station 40) false;
         Write (errorEvent (str "The client has gone.")) false; Close false].
Proof. vm_compute. repeat split. Qed.

(** ** Rules of [emits] *)

Lemma writable_record a w : writable w -> writable (record a w).
Proof. trivial. Qed.

Lemma emits_eq {A} (m : M A) es es' C : emits m es C -> es = es' -> emits m es' C.
Proof. now intros H <-. Qed.

Lemma emits_weaken {A} (m : M A) es C C' :
  emits m es C -> incl C C' -> emits m es C'.
Proof.
  intros Hm Hi w Hw. destruct (Hm w Hw) as [Hs H]. split; trivial.
  unfold M in *. destruct (m w) as [[a | | e] w1]; trivial.
  - destruct H as (H1 & H2 & p & message & Hp & H). repeat split; trivial.
    exists p, message. auto.
  - destruct H as [(H1 & p & Hp & H) | (H1 & H2 & p & e' & Hp & H)].
    + left. split; trivial. exists p. auto.
    + right. repeat split; trivial. exists p, e'. split; trivial.
      destruct Hp; auto.
Qed.

Lemma emits_ret {A} (a : A) C : emits (ret a) [] C.
Proof. intros w Hw. cbn. repeat split; try apply Hw; trivial. now rewrite app_nil_r. Qed.

Lemma emits_log l C : emits (log l) [] C.
Proof.
  intros w Hw. cbn. repeat split; try apply Hw; trivial.
  rewrite stream_app. cbn. now rewrite !app_nil_r.
Qed.

Lemma emits_sendEvent e C : emits (sendEvent e) [e] C.
Proof.
  intros [cl c r t] [Hcl Hc]. cbn in Hcl, Hc. subst cl.
  unfold sendEvent, writer_write. cbn [writerClosed client].
  destruct c as [ | [ | n] | ]; [ | | | contradiction]; cbn -[stream].
  - split; trivial. split; [split; [reflexivity | discriminate] | ].
    now rewrite stream_app.
  - split; [discriminate | ]. right. repeat split.
    exists [], e. split; [left; apply Prefix_nil | now rewrite stream_app].
  - split; [discriminate | ]. split; [split; [reflexivity | discriminate] | ].
    now rewrite stream_app.
Qed.

Lemma emits_sendPhase p n C : emits (sendPhase p n) [phaseEvent p n] C.
Proof. apply emits_sendEvent. Qed.

Lemma emits_await {A} c (o : Outcome A) : emits (await c o) [] [[]].
Proof.
  intros w Hw. unfold await. split; [trivial | ].
  destruct o; cbn; rewrite stream_app; cbn; rewrite !app_nil_r.
  - split; trivial.
  - left. split; trivial. exists []. split; [now left | now rewrite app_nil_r].
Qed.

Lemma emits_throw {A} e es C : In [] C -> emits (@throw A e) es C.
Proof.
  intros HC w Hw. cbn. split; trivial. left. split; trivial.
  exists []. split; trivial. now rewrite app_nil_r.
Qed.

Lemma emits_fail_with {A} message es C : In [] C -> emits (@fail_with A message) es C.
Proof.
  intros HC [cl c r t] [Hcl Hc]. cbn in Hcl, Hc. subst cl.
  unfold fail_with, bind, sendEvent, writer_write, writer_close.
  cbn [writerClosed client record].
  destruct c as [ | [ | n] | ]; [ | | | contradiction]; cbn -[stream].
  - split; trivial. split; trivial. split; [discriminate | ].
    exists [], message. split; trivial.
    rewrite !stream_app. cbn. now rewrite <- app_assoc.
  - split; [discriminate | ]. right. repeat split.
    exists [], (errorEvent message). split; [now right | now rewrite stream_app].
  - split; [discriminate | ]. split; trivial. split; [discriminate | ].
    exists [], message. split; trivial.
    rewrite !stream_app. cbn. now rewrite <- app_assoc.
Qed.

Lemma in_cuts_l es1 C1 C2 p : In p C1 -> In p (cuts_then es1 C1 C2).
Proof. intros H. apply in_or_app. now left. Qed.

Lemma in_cuts_r es1 C1 C2 p : In p C2 -> In (es1 ++ p) (cuts_then es1 C1 C2).
Proof. intros H. apply in_or_app. right. now apply in_map. Qed.

Lemma emits_bind {A B} (m : M A) (k : A -> M B) es1 es2 C1 C2 :
  emits m es1 C1 -> (forall a, emits (k a) es2 C2) ->
  emits (bind m k) (es1 ++ es2) (cuts_then es1 C1 C2).
Proof.
  intros Hm Hk w Hw. unfold bind. destruct (Hm w Hw) as [Hs1 H1]. unfold M in *.
  destruct (m w) as [[a | | e] w1]; cbn [snd] in Hs1.
  - destruct H1 as [Hw1 Hst]. destruct (Hk a w1 Hw1) as [Hs2 H2].
    split; [auto | ].
    destruct (k a w1) as [[b | | e] w2].
    + destruct H2 as [Hw2 H2]. split; trivial.
      now rewrite H2, Hst, writes_app, app_assoc.
    + destruct H2 as (Hc & Hg & p & message & Hp & H2). repeat split; trivial.
      exists (es1 ++ p), message. split; [now apply in_cuts_r | ].
      now rewrite H2, Hst, writes_app, <- !app_assoc.
    + destruct H2 as [(Hw2 & p & Hp & H2) | (Hc & Hg & p & e' & Hp & H2)].
      * left. split; trivial. exists (es1 ++ p). split; [now apply in_cuts_r | ].
        now rewrite H2, Hst, writes_app, <- !app_assoc.
      * right. repeat split; trivial. exists (es1 ++ p), e'. split.
        -- destruct Hp as [Hp | Hp];
             [left; now apply Prefix_app_l | right; now apply in_cuts_r].
        -- now rewrite H2, Hst, writes_app, <- !app_assoc.
  - split; trivial.
    destruct H1 as (Hc & Hg & p & message & Hp & H1). repeat split; trivial.
    exists p, message. split; [now apply in_cuts_l | trivial].
  - split; trivial.
    destruct H1 as [(Hw1 & p & Hp & H1) | (Hc & Hg & p & e' & Hp & H1)].
    + left. split; trivial. exists p. split; [now apply in_cuts_l | trivial].
    + right. repeat split; trivial. exists p, e'. split; trivial.
      destruct Hp as [Hp | Hp];
        [left; now apply Prefix_app_r | right; now apply in_cuts_l].
Qed.

(** A step that sends nothing and does not end the block, then the rest. *)
Lemma emits_then {A B} (m : M A) (k : A -> M B) es C :
  emits m [] [] -> (forall a, emits (k a) es C) -> emits (bind m k) es C.
Proof.
  intros Hm Hk. eapply emits_weaken.
  - exact (@emits_bind _ _ m k [] es [] C Hm Hk).
  - unfold cuts_then. cbn. intros p Hp. apply in_map_iff in Hp.
    now destruct Hp as (q & <- & Hq).
Qed.

(** A write, then the rest. *)
Lemma emits_after {B} e (k : unit -> M B) es C :
  (forall a, emits (k a) es C) ->
  emits (bind (sendEvent e) k) (e :: es) (map (cons e) C).
Proof.
  intros Hk.
  exact (@emits_bind _ _ (sendEvent e) k [e] es [] C (emits_sendEvent e []) Hk).
Qed.

Lemma emits_await_bind {A B} c (o : Outcome A) (k : A -> M B) es C :
  In [] C -> (forall a, o = Returns a -> emits (k a) es C) ->
  emits (bind (await c o) k) es C.
Proof.
  intros HC Hk w Hw. unfold bind, await.
  destruct o as [a | e].
  - specialize (Hk a eq_refl (record (Called c) w) (writable_record _ Hw)).
    unfold M in *. cbn [record trace] in Hk. rewrite stream_app in Hk.
    cbn [stream filter is_writer_action] in Hk. rewrite app_nil_r in Hk.
    exact Hk.
  - cbn. split; trivial. left. split; trivial. exists []. split; trivial.
    rewrite stream_app. cbn. now rewrite !app_nil_r.
Qed.

Lemma emits_if {A} (b : bool) (m1 m2 : M A) es C :
  emits m1 es C -> emits m2 es C -> emits (if b then m1 else m2) es C.
Proof. now destruct b. Qed.

(** The [try] around the redeploy: its handler does nothing, so a throw
    becomes a normal end. *)
Lemma emits_swallow l c (o : Outcome unit) C :
  emits (try_catch (bind (log l) (fun _ => await c o)) (fun _ => ret tt)) [] C.
Proof.
  intros w Hw. unfold try_catch, bind, log, await, ret.
  destruct o as [[] | e]; cbn -[stream]; (split; [trivial | split; [exact Hw | ]]);
    rewrite !stream_app; cbn; now rewrite !app_nil_r.
Qed.

(** A step that sends nothing, then the rest, with the same cuts. *)
Lemma emits_quiet {A B} (m : M A) (k : A -> M B) es C :
  emits m [] C -> (forall a, emits (k a) es C) -> emits (bind m k) es C.
Proof.
  intros Hm Hk. eapply emits_weaken.
  - exact (@emits_bind _ _ m k [] es C C Hm Hk).
  - unfold cuts_then. cbn. intros p Hp. apply in_app_or in Hp.
    destruct Hp as [Hp | Hp]; trivial. apply in_map_iff in Hp.
    now destruct Hp as (q & <- & Hq).
Qed.

Ltac emits_walk :=
  repeat first
    [ apply emits_ret | apply emits_log | apply emits_sendPhase
    | apply emits_then; [apply emits_log | intros _]
    | apply emits_after; intros _
    | apply emits_await ].

Ltac cuts_incl :=
  unfold cuts_then; cbn [map app];
  let p := fresh "p" in let H := fresh "H" in
  intros p H; cbn [In] in *; tauto.

(** ** The phases *)

Section Phases.

Variable data : RunPayload.
Variable co : Collaborators.

Lemma emits_resolve_keys : emits (resolve_keys data co) [] [[]].
Proof.
  unfold resolve_keys. apply emits_then; [apply emits_log | intros _].
  apply emits_if; [ | apply emits_ret].
  apply emits_await_bind; [now left | intros [pk sk | ] _].
  - emits_walk.
  - apply emits_fail_with. now left.
Qed.

Lemma emits_new_URL s : emits (new_URL co s) [] [[]].
Proof.
  unfold new_URL. apply emits_if; [apply emits_ret | apply emits_throw; now left].
Qed.

Lemma emits_resolve_db : emits (resolve_db data co) [] [[]].
Proof.
  unfold resolve_db. apply emits_then; [apply emits_log | intros _].
  apply emits_if; [ | apply emits_ret].
  apply emits_await_bind; [now left | intros [u | ] _].
  - apply emits_quiet; [apply emits_new_URL | intros _]. emits_walk.
  - apply emits_fail_with. now left.
Qed.

Lemma emits_phase_coordinates :
  emits (phase_coordinates data co) events_coordinates cuts_coordinates.
Proof.
  unfold phase_coordinates. eapply emits_weaken.
  - eapply emits_eq.
    + apply emits_then; [apply emits_log | intros _]. apply emits_after; intros _.
      eapply emits_bind; [apply emits_resolve_keys | intros keys].
      apply emits_after; intros _.
      eapply emits_bind; [apply emits_resolve_db | intros db].
      apply emits_after; intros _.
      apply emits_then; [apply emits_log | intros _].
      eapply emits_bind; [apply emits_await | intros _].
      apply emits_after; intros _. apply (emits_ret _ []).
    + reflexivity.
  - unfold cuts_coordinates. cuts_incl.
Qed.

Lemma emits_phase_signal :
  emits (phase_signal data co) (events_signal data) (cuts_signal data).
Proof.
  unfold phase_signal, events_signal, cuts_signal.
  apply emits_then; [apply emits_log | intros _].
  destruct (includes (skipped data) wait_project); cbn [negb].
  - apply emits_log.
  - eapply emits_weaken.
    + eapply emits_eq.
      * apply emits_after; intros _.
        eapply emits_bind; [ | intros _; apply (emits_sendPhase _ _ [])].
        apply emits_if; [ | apply emits_ret].
        apply (@emits_await_bind _ _ _ _ _ [] [[]]); [now left | intros ready _].
        apply emits_if; [apply emits_fail_with; now left | apply emits_ret].
      * reflexivity.
    + cuts_incl.
Qed.

Lemma emits_phase_station u :
  emits (phase_station data co u) (events_station data) (cuts_station data).
Proof.
  unfold phase_station, events_station, cuts_station.
  apply emits_then; [apply emits_log | intros _].
  destruct (includes (skipped data) migrations); cbn [negb].
  - apply emits_log.
  - eapply emits_weaken.
    + eapply emits_eq.
      * apply emits_after; intros _.
        apply emits_then; [apply emits_log | intros _].
        eapply emits_bind; [apply emits_await | intros _].
        apply emits_then; [apply emits_log | intros _].
        apply (emits_sendPhase _ _ []).
      * reflexivity.
    + cuts_incl.
Qed.

Lemma emits_phase_comms hasLocal a s :
  emits (phase_comms data co hasLocal a s) (events_comms data hasLocal)
    (cuts_comms data hasLocal).
Proof.
  unfold phase_comms, events_comms, cuts_comms.
  apply emits_then; [apply emits_log | intros _].
  destruct (deployEdgeFunctions (supabase data) && hasLocal).
  - eapply emits_weaken.
    + eapply emits_eq.
      * apply emits_after; intros _.
        eapply emits_bind; [ | intros _; apply (emits_sendPhase _ _ [])].
        apply emits_then; [apply emits_log | intros _].
        apply (@emits_await_bind _ _ _ _ _ [phaseEvent comms 65]
                 [[]; [phaseEvent comms 65]]); [now left | intros ok _].
        apply emits_if; [apply emits_fail_with; now left | ].
        eapply emits_weaken.
        -- apply emits_after; intros _.
           apply emits_then; [apply emits_log | intros _].
           apply emits_await.
        -- cuts_incl.
      * reflexivity.
    + cuts_incl.
  - apply (@emits_after _ _ _ [phaseEvent comms 75] []); intros _.
    apply emits_then; [apply emits_ret | intros _]. apply emits_sendPhase.
Qed.

Lemma emits_phase_contact s :
  emits (phase_contact data co s) (events_contact data) (cuts_contact data).
Proof.
  unfold phase_contact, events_contact, cuts_contact.
  apply emits_then; [apply emits_log | intros _].
  destruct (includes (skipped data) bootstrap); cbn [negb].
  - apply emits_log.
  - eapply emits_weaken.
    + eapply emits_eq.
      * apply emits_after; intros _.
        apply emits_then; [apply emits_log | intros _].
        apply (@emits_await_bind _ _ _ _ _ [phaseEvent contact 90] [[]]);
          [now left | intros ok _].
        apply emits_quiet; [ | intros _; apply emits_sendPhase].
        apply emits_if; [apply emits_fail_with; now left | apply emits_ret].
      * reflexivity.
    + cuts_incl.
Qed.

Lemma emits_phase_landing : emits (phase_landing data co) events_landing [].
Proof.
  unfold phase_landing.
  apply emits_then; [apply emits_log | intros _].
  apply (@emits_after _ _ _ [phaseEvent landing 98] []); intros _.
  apply emits_then; [apply emits_swallow | intros _]. apply emits_sendPhase.
Qed.

Lemma emits_phase_complete : emits phase_complete events_complete [].
Proof.
  unfold phase_complete.
  apply emits_then; [apply emits_log | intros _].
  apply (@emits_after _ _ _ [completeEvent] []); intros _. apply emits_sendEvent.
Qed.

Lemma emits_phases hasLocal :
  emits (phases data co hasLocal) (expected_events data hasLocal)
    (cuts_phases data hasLocal).
Proof.
  unfold phases, expected_events, cuts_phases.
  eapply emits_bind; [apply emits_phase_coordinates | intros [[a s] u]].
  eapply emits_bind; [apply emits_phase_signal | intros _].
  eapply emits_bind; [apply emits_phase_station | intros _].
  eapply emits_bind; [apply emits_phase_comms | intros _].
  eapply emits_bind; [apply emits_phase_contact | intros _].
  exact (@emits_bind _ _ _ _ _ _ [] [] emits_phase_landing
           (fun _ => emits_phase_complete)).
Qed.

Lemma emits_try_block :
  emits (try_block data co) (expected_events data (found_local data co))
    (expected_cuts data (found_local data co)).
Proof.
  unfold try_block, found_local, expected_cuts.
  destruct (deployEdgeFunctions (supabase data)) eqn:Hd; cbn [andb].
  - apply emits_await_bind; [now left | intros l ->].
    apply emits_if; [apply emits_fail_with; now left | ].
    eapply emits_weaken; [apply emits_phases | apply incl_tl, incl_refl].
  - apply emits_then; [apply emits_ret | intros l].
    apply emits_if; [apply emits_fail_with; now left | ].
    eapply emits_weaken; [ | apply incl_tl, incl_refl].
    pose proof (emits_phases (hasLocalEdgeFunctions l)) as H.
    unfold expected_events, events_comms, cuts_phases, cuts_comms in H |- *.
    unfold events_comms in H |- *. now rewrite Hd in H |- *.
Qed.

Lemma stream_try_world : stream (trace (try_world data co)) = [].
Proof. unfold try_world, initial_world. now destruct (skipped data). Qed.

Lemma writable_try_world :
  writerClosed (try_world data co) = false
  /\ client (try_world data co) = client_of (clientReads co).
Proof. split; reflexivity. Qed.

Lemma run_unfold :
  run data co =
  try_catch_finally (try_block data co) (catch_block) writer_close (try_world data co).
Proof. reflexivity. Qed.

Lemma cuts_are_prefixes hasLocal p :
  In p (expected_cuts data hasLocal) -> Prefix p (expected_events data hasLocal).
Proof.
  unfold expected_cuts, cuts_phases, expected_events, cuts_coordinates,
    cuts_signal, cuts_station, cuts_comms, cuts_contact, events_signal,
    events_station, events_comms, events_contact, cuts_then.
  destruct (includes (skipped data) wait_project),
    (includes (skipped data) migrations),
    (deployEdgeFunctions (supabase data) && hasLocal),
    (includes (skipped data) bootstrap); cbn [map app In];
    intros H;
    repeat (destruct H as [<- | H]; [eexists; reflexivity | ]);
    contradiction.
Qed.

(** How a run ends, by how its [try] block ended; whether the writer is
    left closed; and that a client that stays is never found gone. *)
Theorem stream_of_run :
  let w := snd (run data co) in
  run_shape data co (fst (try_block data co (try_world data co)))
    (fst (run data co)) (stream (trace w))
  /\ match fst (try_block data co (try_world data co)), fst (run data co) with
     | Throw _, Throw _ => writerClosed w = false /\ client w = gone
     | _, _ => writerClosed w = true /\ client w <> gone
     end
  /\ (clientReads co = None -> client w = stays).
Proof.
  cbv zeta. rewrite run_unfold. unfold try_catch_finally, try_catch.
  assert (Hw0 : writable (try_world data co)).
  { split; [reflexivity | ]. cbn. now destruct (clientReads co). }
  assert (Hc0 : clientReads co = None -> client (try_world data co) = stays).
  { intros H. cbn. now rewrite H. }
  pose proof emits_try_block as HH. unfold emits in HH.
  destruct (HH _ Hw0) as [Hs H]. clear HH.
  rewrite stream_try_world in H. cbn [app] in H.
  remember (try_world data co) as w0 eqn:Ew0. clear Ew0 Hw0. unfold M in *.
  destruct (try_block data co w0) as [[[] | | e] [cl c r t]];
    cbn [snd fst writerClosed client trace] in *.
  - destruct H as [[Hcl Hc] H]. cbn in Hcl, Hc. subst cl.
    unfold writer_close. cbn [writerClosed client].
    destruct c as [ | n | ]; [ | | contradiction]; cbn -[stream];
      (split; [rewrite stream_app, H; apply run_success | ]);
      (split; [split; [reflexivity | discriminate] | auto]).
  - destruct H as (Hcl & Hc & p & message & Hp & H). subst cl.
    cbn -[stream]. rewrite stream_app, H, <- app_assoc.
    split; [exact (run_handled_failure co message Hp) | ].
    split; [now split | auto].
  - destruct H as [([Hcl Hc] & p & Hp & H) | (Hcl & Hc & p & ev & Hp & H)];
      cbn in Hcl, Hc; subst.
    + unfold catch_block, sendEvent, writer_write, writer_close.
      cbn [writerClosed client].
      destruct c as [ | [ | n] | ]; [ | | | contradiction]; cbn -[stream];
        rewrite !stream_app, H, <- app_assoc.
      * split; [exact (run_exception co e Hp) | ].
        split; [split; [reflexivity | discriminate] | auto].
      * split; [exact (run_exception_unheard co e r Hp) | ].
        split; [now split | ]. intros Hn. specialize (Hs (Hc0 Hn)). discriminate.
      * split; [exact (run_exception co e Hp) | ].
        split; [split; [reflexivity | discriminate] | ].
        intros Hn. specialize (Hs (Hc0 Hn)). discriminate.
    + unfold catch_block, sendEvent, writer_write, writer_close.
      cbn -[stream]. rewrite !stream_app, H, <- !app_assoc.
      split.
      * apply (@run_client_gone data co p ev e r).
        destruct Hp as [Hp | Hp]; [exact Hp | now apply cuts_are_prefixes].
      * split; [now split | ]. intros Hn. specialize (Hs (Hc0 Hn)). discriminate.
Qed.

End Phases.

(** ** What the client receives *)

Lemma sent_app a b : sent (a ++ b) = sent a ++ sent b.
Proof. apply flat_map_app. Qed.

Lemma sent_stream t : sent (stream t) = sent t.
Proof.
  unfold sent, stream.
  induction t as [ | [l | e [] | b | c] t IH]; cbn; trivial; now rewrite IH.
Qed.

Lemma closes_stream t : closes (stream t) = closes t.
Proof.
  unfold closes, stream.
  induction t as [ | [l | e b' | b | c] t IH]; cbn; trivial; now rewrite IH.
Qed.

Lemma sent_writes es : sent (writes es) = es.
Proof.
  unfold sent, writes. induction es as [ | e es IH]; cbn; trivial.
  now rewrite IH.
Qed.

Lemma closes_app a b : closes (a ++ b) = closes a ++ closes b.
Proof. apply flat_map_app. Qed.

Lemma closes_writes es : closes (writes es) = [].
Proof. induction es as [ | e es IH]; cbn; trivial. Qed.

(** The events of a run: an initial part of the expected ones, followed
    by at most one error event. *)
Lemma sent_of_run data co :
  exists p tail,
    Prefix p (expected_events data (found_local data co))
    /\ sent (trace (snd (run data co))) = p ++ tail
    /\ (tail = [] \/ exists message, tail = [errorEvent message]).
Proof.
  destruct (stream_of_run data co) as [H _].
  rewrite <- sent_stream.
  destruct H as [ | p message Hp | p e Hp | p e r Hp | p ev e r Hp];
    rewrite sent_app, sent_writes; cbn.
  - exists (expected_events data (found_local data co)), [].
    split; [apply Prefix_refl | split; [reflexivity | now left]].
  - exists p, [errorEvent message].
    split; [now apply cuts_are_prefixes | split; [reflexivity | ]].
    right. now exists message.
  - exists p, [errorEvent (catch_message e)].
    split; [now apply cuts_are_prefixes | split; [reflexivity | ]].
    right. now eexists.
  - exists p, []. split; [now apply cuts_are_prefixes | split; [reflexivity | now left]].
  - exists p, []. split; [trivial | split; [reflexivity | now left]].
Qed.

Ltac case_flags data b :=
  unfold expected_events, events_signal, events_station, events_comms,
    events_contact;
  destruct (includes (skipped data) wait_project),
    (includes (skipped data) migrations),
    (deployEdgeFunctions (supabase data) && b),
    (includes (skipped data) bootstrap).

Lemma progress_values_app a b :
  progress_values (a ++ b) = progress_values a ++ progress_values b.
Proof. apply flat_map_app. Qed.


Lemma StronglySorted_app_l {A} (R : A -> A -> Prop) a b :
  StronglySorted R (a ++ b) -> StronglySorted R a.
Proof.
  induction a as [ | x a IH]; cbn; intros H; [constructor | ].
  apply StronglySorted_inv in H. destruct H as [H1 H2].
  constructor; [now apply IH | ]. apply Forall_app in H2. tauto.
Qed.

Lemma expected_progress_sorted data b :
  StronglySorted Z.le (progress_values (expected_events data b)).
Proof. case_flags data b; cbn; repeat constructor; lia. Qed.

Lemma expected_progress_bounded data b :
  Forall (fun n => 0 <= n <= 100)%Z (progress_values (expected_events data b)).
Proof. case_flags data b; cbn; repeat constructor; lia. Qed.

Lemma expected_complete_100 data b e :
  In e (expected_events data b) -> phase e = Some complete -> progress e = Some 100%Z.
Proof.
  case_flags data b; cbn; intros H; repeat destruct H as [<- | H];
    try contradiction; cbn; trivial; discriminate.
Qed.

Lemma Prefix_In {A} (p l : list A) x : Prefix p l -> In x p -> In x l.
Proof. intros [q ->] H. apply in_or_app. now left. Qed.

(** C5: within one run the progress values carried by the events sent
    are non-decreasing and lie in [0,100], and an event of the complete
    phase carries progress 100. *)
Theorem progress_monotone_and_bounded data co :
  let es := sent (trace (snd (run data co))) in
  Sorted Z.le (progress_values es)
  /\ Forall (fun n => 0 <= n <= 100)%Z (progress_values es)
  /\ (forall e, In e es -> phase e = Some complete -> progress e = Some 100%Z).
Proof.
  cbv zeta.
  destruct (sent_of_run data co) as (p & tail & [q Hq] & -> & Htail).
  assert (Hpv : progress_values (p ++ tail) = progress_values p).
  { rewrite progress_values_app.
    destruct Htail as [-> | [m ->]]; cbn; apply app_nil_r. }
  rewrite Hpv.
  pose proof (expected_progress_sorted data (found_local data co)) as Hs.
  pose proof (expected_progress_bounded data (found_local data co)) as Hb.
  rewrite Hq, progress_values_app in Hs, Hb.
  split; [ | split].
  - apply StronglySorted_Sorted. now apply StronglySorted_app_l in Hs.
  - apply Forall_app in Hb. tauto.
  - intros e He Hph. apply in_app_or in He. destruct He as [He | He].
    + apply (@expected_complete_100 data (found_local data co)); trivial.
      rewrite Hq. apply in_or_app. now left.
    + destruct Htail as [-> | [m ->]]; [contradiction | ].
      destruct He as [<- | []]. discriminate.
Qed.

(** ** Order of the phases *)


Lemma expected_no_error data b :
  Forall (fun e => is_error e = false) (expected_events data b).
Proof. case_flags data b; repeat constructor. Qed.




Lemma prefix_reaching_end {A} (p q front : list A) c :
  p ++ q = front ++ [c] -> In c p -> ~ In c front -> q = [].
Proof.
  revert p. induction front as [ | x front IH]; intros p H Hin Hnot.
  - destruct p as [ | a [ | b p]]; cbn in *; try contradiction;
      try discriminate. now injection H.
  - destruct p as [ | a p]; [contradiction | ]. cbn in H. injection H as -> H.
    apply (IH p); trivial.
    + destruct Hin as [<- | Hin]; trivial. exfalso. apply Hnot. now left.
    + intros Hc. apply Hnot. now right.
Qed.







(** ** Closing the stream *)

(** The writer ends closed, or errored because the client has gone. *)
Lemma writer_ends_closed data co :
  writerClosed (snd (run data co)) = true \/ client (snd (run data co)) = gone.
Proof.
  destruct (stream_of_run data co) as (_ & H & _).
  destruct (fst (try_block data co (try_world data co))) as [[] | | e];
    try (left; apply H).
  destruct (fst (run data co)) as [[] | | e']; try (left; apply H).
  right. apply H.
Qed.

Lemma writer_closed_for_staying_client data co :
  clientReads co = None -> writerClosed (snd (run data co)) = true.
Proof.
  intros Hn. destruct (stream_of_run data co) as (_ & H & Hs).
  specialize (Hs Hn).
  destruct (fst (try_block data co (try_world data co))) as [[] | | e];
    try apply H.
  destruct (fst (run data co)) as [[] | | e']; try apply H.
  destruct H as [_ H]. rewrite H in Hs. discriminate.
Qed.

(** The calls of [writer.close()]: one accepted call on success and on
    a caught exception; an accepted and a rejected one on a handled
    failure; one rejected call when the client has gone. *)
Lemma closes_of_run data co :
  closes (trace (snd (run data co))) =
  match fst (try_block data co (try_world data co)), fst (run data co) with
  | Return_, _ => [true; false]
  | Throw _, Throw _ => [false]
  | _, _ => [true]
  end.
Proof.
  destruct (stream_of_run data co) as [H _]. rewrite <- closes_stream.
  destruct H as [ | p message Hp | p e Hp | p e r Hp | p ev e r Hp];
    now rewrite closes_app, closes_writes.
Qed.

(** C2: on a handled failure (here: the service-role key and the access
    token are both missing) [writer.close()] is called twice; the second
    call is rejected and the task ends with that rejection. *)
Theorem handled_failure_closes_twice :
  let r := run Examples.no_service_key Examples.all_ok in
  closes (trace (snd r)) = [true; false]
  /\ fst r = Throw (ErrorObject msg_writer_closed).
Proof. vm_compute. split; reflexivity. Qed.

(** ** Exceptions *)

(** C3, as amended: an exception that leaves the [try] block is caught
    and turned into one error event, written last and followed by the
    close of the stream; the event carries the message of the exception
    when it is an [Error] and the generic message otherwise. While the
    client is connected, and so always for a client that stays, the
    event is the last one sent, the stream is closed once and the task
    ends normally. When the client has gone, the write of the event and
    the close are both rejected: no error event reaches the client and
    the task ends with the rejection. *)
Theorem exception_becomes_error_event data co e :
  fst (try_block data co (try_world data co)) = Throw e ->
  let w := snd (run data co) in
  exists b pre,
    stream (trace w) = pre ++ [Write (errorEvent (catch_message e)) b; Close b]
    /\ (clientReads co = None -> b = true)
    /\ (b = true ->
        fst (run data co) = Normal tt
        /\ (exists p, Forall (fun ev => is_error ev = false) p
                      /\ sent (trace w) = p ++ [errorEvent (catch_message e)])
        /\ closes (trace w) = [true]
        /\ writerClosed w = true)
    /\ (b = false ->
        (exists r, fst (run data co) = Throw r)
        /\ Forall (fun ev => is_error ev = false) (sent (trace w))
        /\ closes (trace w) = [false]
        /\ writerClosed w = false).
Proof.
  intros He. cbv zeta.
  pose proof (closes_of_run data co) as Hcl. rewrite He in Hcl.
  destruct (stream_of_run data co) as (H & Hw & Hs). rewrite He in H, Hw.
  rewrite <- sent_stream.
  pose proof (expected_no_error data (found_local data co)) as Hn.
  assert (Hpre : forall p, Prefix p (expected_events data (found_local data co)) ->
                 Forall (fun ev => is_error ev = false) p).
  { intros p [q Hq]. rewrite Hq in Hn. apply Forall_app in Hn. tauto. }
  remember (Throw e) as c eqn:Hc.
  destruct H as [ | p message Hp | p e' Hp | p e' r Hp | p ev e' r Hp];
    try discriminate; injection Hc as ->.
  - exists true, (writes p). split; [reflexivity | ].
    split; [reflexivity | ]. split; [ | discriminate]. intros _.
    split; [reflexivity | ]. split; [ | split; [exact Hcl | apply Hw]].
    exists p. split; [now apply Hpre, cuts_are_prefixes | ].
    now rewrite sent_app, sent_writes.
  - exists false, (writes p). split; [reflexivity | ].
    split; [ | split; [discriminate | ]].
    + intros Hnone. specialize (Hs Hnone). destruct Hw as [_ Hw].
      rewrite Hw in Hs. discriminate.
    + intros _. split; [now exists r | ].
      split; [ | split; [exact Hcl | apply Hw]].
      rewrite sent_app, sent_writes. cbn. rewrite app_nil_r.
      now apply Hpre, cuts_are_prefixes.
  - exists false, (writes p ++ [Write ev false]).
    split; [now rewrite <- app_assoc | ].
    split; [ | split; [discriminate | ]].
    + intros Hnone. specialize (Hs Hnone). destruct Hw as [_ Hw].
      rewrite Hw in Hs. discriminate.
    + intros _. split; [now exists r | ].
      split; [ | split; [exact Hcl | apply Hw]].
      rewrite sent_app, sent_writes. cbn. rewrite app_nil_r. now apply Hpre.
Qed.

(** A run to which C3 applies: the client stays, the error event is
    sent and the task ends normally. *)
Lemma exception_becomes_error_event_witness :
  fst (try_block Examples.with_token Examples.upsert_throws
         (try_world Examples.with_token Examples.upsert_throws))
  = Throw (ErrorObject (str "connect ECONNREFUSED 10.0.0.5:443"))
  /\ fst (run Examples.with_token Examples.upsert_throws) = Normal tt.
Proof.
  split; [vm_compute; reflexivity | ].
  destruct (@exception_becomes_error_event Examples.with_token
              Examples.upsert_throws
              (ErrorObject (str "connect ECONNREFUSED 10.0.0.5:443")))
    as (b & pre & _ & Hstay & Hsent & _).
  - vm_compute; reflexivity.
  - apply Hsent, Hstay. reflexivity.
Defined.

(** The counterexample to C3 as stated: the message of an [Error] thrown
    by a step goes to the client as it is. *)
Lemma raw_exception_message_is_sent :
  let raw := str "connect ECONNREFUSED 10.0.0.5:443" in
  upsertProjectEnvs Examples.upsert_throws = Throws (ErrorObject raw)
  /\ In (errorEvent raw)
        (sent (trace (snd (run Examples.with_token Examples.upsert_throws))))
  /\ raw <> msg_generic.
Proof.
  cbv zeta. split; [reflexivity | split].
  - vm_compute. do 3 right. now left.
  - vm_compute. discriminate.
Qed.

(** ** The credential check *)

Lemma includes_skipped hc s :
  includes (skippedSteps hc) s =
  match s with
  | wait_project => hint skipWaitProject hc
  | wait_storage => hint skipWaitStorage hc
  | migrations => hint skipMigrations hc
  | bootstrap => hint skipBootstrap hc
  end.
Proof.
  unfold skippedSteps.
  destruct (hint skipWaitProject hc), (hint skipWaitStorage hc),
    (hint skipMigrations hc), (hint skipBootstrap hc), s; reflexivity.
Qed.

Lemma calls_initial data co : calls (trace (try_world data co)) = [].
Proof. unfold try_world, initial_world. now destruct (skipped data). Qed.

Lemma sent_initial data co : sent (trace (try_world data co)) = [].
Proof. unfold try_world, initial_world. now destruct (skipped data). Qed.

Lemma calls_app a b : calls (a ++ b) = calls a ++ calls b.
Proof. apply flat_map_app. Qed.

(** C4, as amended: when a secret is missing (anon key, service-role
    key or DB connection string) and the access token or the project
    reference is missing too, the run calls no external collaborator.
    The one event it sends is an error event: it names the missing
    credential when the listing of the local function bundles, which
    comes before the check when deployment is on, returns; when that
    listing throws, the check is not reached and the event carries the
    message of the exception. A client that has gone before the first
    write receives nothing. *)
Theorem missing_credentials_rejected_first data co :
  needsKeys data || needsDb data = true ->
  truthy (resolvedAccessToken data) && truthy (resolvedProjectRef data co) = false ->
  let w := snd (run data co) in
  Forall (fun c => is_external c = false) (calls (trace w))
  /\ sent (trace w) =
     match clientReads co with
     | Some 0 => []
     | _ =>
         [errorEvent
            match localEdgeFunctionSlugs data co with
            | Returns _ =>
                if negb (truthy (resolvedAccessToken data))
                then msg_no_access_token else msg_no_project_ref
            | Throws e => catch_message e
            end]
     end
  /\ (clientReads co <> Some 0 -> writerClosed w = true).
Proof.
  intros Hneed Hcred. cbv zeta.
  rewrite run_unfold. unfold try_catch_finally, try_catch, try_block,
    localEdgeFunctionSlugs.
  pose proof (sent_initial data co) as Hs0.
  pose proof (calls_initial data co) as Hc0.
  assert (Hopen : writerClosed (try_world data co) = false) by reflexivity.
  assert (Hcl : client (try_world data co) = client_of (clientReads co))
    by reflexivity.
  destruct (try_world data co) as [cl c r t].
  cbn [trace writerClosed client] in Hs0, Hc0, Hopen, Hcl. subst cl c.
  assert (Hcheck : forall b,
         needsManagementApi data b
         && (negb (truthy (resolvedAccessToken data))
             || negb (truthy (resolvedProjectRef data co))) = true)
    by (intros b; unfold needsManagementApi; rewrite Hneed;
        rewrite <- negb_andb, Hcred; reflexivity).
  split; [ | split].
  all: destruct (deployEdgeFunctions (supabase data));
    [destruct (listEdgeFunctionSlugs co) as [l | e] | ];
    unfold bind at 1; cbn [await ret record trace writerClosed client];
    rewrite ?Hcheck;
    destruct (clientReads co) as [[ | n] | ];
    cbn -[sent calls msg_no_access_token msg_no_project_ref catch_message];
    rewrite ?sent_app, ?calls_app, ?Hs0, ?Hc0;
    cbn -[msg_no_access_token msg_no_project_ref catch_message].
  all: try solve [repeat constructor].
  all: intros H; first [reflexivity | congruence].
Qed.

(** A request to which C4 applies. *)
Lemma missing_credentials_rejected_first_witness :
  needsKeys Examples.no_service_key || needsDb Examples.no_service_key = true
  /\ sent (trace (snd (run Examples.no_service_key Examples.all_ok)))
     = [errorEvent msg_no_access_token].
Proof.
  split; [reflexivity | ].
  apply (@missing_credentials_rejected_first Examples.no_service_key Examples.all_ok);
    reflexivity.
Defined.

(** The counterexample to C4 as stated: a service-role key and an access
    token are missing and functions are to be deployed, the listing of
    the local function bundles throws, and the one event sent carries the
    message of that exception, which names no credential. *)
Lemma listing_failure_hides_missing_credentials :
  let data := Examples.no_service_key_deploying in
  let co := Examples.listing_throws in
  let raw := str "EACCES: permission denied, scandir 'supabase/functions'" in
  needsKeys data || needsDb data = true
  /\ truthy (resolvedAccessToken data) && truthy (resolvedProjectRef data co) = false
  /\ sent (trace (snd (run data co))) = [errorEvent raw]
  /\ raw <> msg_no_access_token /\ raw <> msg_no_project_ref.
Proof. vm_compute. repeat split; discriminate. Qed.

(** ** Rules of [appends] and [footprint] *)

Section Appends.

Variable D : list Action -> Prop.
Hypothesis D_nil : D [].
Hypothesis D_app : forall a b, D a -> D b -> D (a ++ b).

Lemma appends_silent {A} (m : M A) :
  (forall w, trace (snd (m w)) = trace w) -> appends D m.
Proof.
  intros H w. exists []. split; [now rewrite H, app_nil_r | apply D_nil].
Qed.

Lemma appends_one {A} (m : M A) a :
  (forall w, trace (snd (m w)) = trace w ++ [a]) -> D [a] -> appends D m.
Proof. intros H Ha w. exists [a]. now rewrite H. Qed.

Lemma appends_bind {A B} (m : M A) (k : A -> M B) :
  appends D m -> (forall a, appends D (k a)) -> appends D (bind m k).
Proof.
  intros Hm Hk w. unfold bind. destruct (Hm w) as (d1 & H1 & HD1).
  unfold M in *. destruct (m w) as [[a | | e] w1]; cbn in H1 |- *;
    try (now exists d1).
  destruct (Hk a w1) as (d2 & H2 & HD2). exists (d1 ++ d2).
  split; [now rewrite H2, H1, app_assoc | now apply D_app].
Qed.

Lemma appends_try_catch body handler :
  appends D body -> (forall e, appends D (handler e)) ->
  appends D (try_catch body handler).
Proof.
  intros Hb Hh w. unfold try_catch. destruct (Hb w) as (d1 & H1 & HD1).
  unfold M in *. destruct (body w) as [[a | | e] w1]; cbn in H1 |- *;
    try (now exists d1).
  destruct (Hh e w1) as (d2 & H2 & HD2). exists (d1 ++ d2).
  split; [now rewrite H2, H1, app_assoc | now apply D_app].
Qed.

Lemma appends_try_catch_finally body handler final :
  appends D body -> (forall e, appends D (handler e)) -> appends D final ->
  appends D (try_catch_finally body handler final).
Proof.
  intros Hb Hh Hf w. unfold try_catch_finally.
  destruct (@appends_try_catch body handler Hb Hh w) as (d1 & H1 & HD1).
  unfold M in *. destruct (try_catch body handler w) as [c w1]. cbn in H1.
  destruct (Hf w1) as (d2 & H2 & HD2). exists (d1 ++ d2).
  split; [ | now apply D_app].
  destruct (final w1) as [[a | | e] w2]; cbn in H2 |- *;
    now rewrite H2, H1, app_assoc.
Qed.

End Appends.


Section Footprint.

Variable ok : Action -> Prop.

Lemma footprint_ret {A} (a : A) : footprint ok (ret a).
Proof. apply appends_silent; [constructor | reflexivity]. Qed.

Lemma footprint_throw {A} e : footprint ok (@throw A e).
Proof. apply appends_silent; [constructor | reflexivity]. Qed.

Lemma footprint_return {A} : footprint ok (@return_ A).
Proof. apply appends_silent; [constructor | reflexivity]. Qed.

Lemma footprint_log l : ok (Log l) -> footprint ok (log l).
Proof. intros H. apply appends_one with (a := Log l); [reflexivity | now constructor]. Qed.

Lemma footprint_await {A} c (o : Outcome A) :
  ok (Called c) -> footprint ok (await c o).
Proof.
  intros H. apply appends_one with (a := Called c); [reflexivity | now constructor].
Qed.

Lemma footprint_write e :
  (forall b, ok (Write e b)) -> footprint ok (writer_write e).
Proof.
  intros H [[] [ | [ | n] | ] r t]; cbn; eexists; (split; [reflexivity | ]);
    now constructor.
Qed.

Lemma footprint_close : (forall b, ok (Close b)) -> footprint ok writer_close.
Proof.
  intros H [[] [ | n | ] r t]; cbn; eexists; (split; [reflexivity | ]);
    now constructor.
Qed.

Lemma footprint_bind {A B} (m : M A) (k : A -> M B) :
  footprint ok m -> (forall a, footprint ok (k a)) -> footprint ok (bind m k).
Proof.
  apply appends_bind. intros a b Ha Hb. apply Forall_app. now split.
Qed.

Lemma footprint_if {A} (b : bool) (m1 m2 : M A) :
  footprint ok m1 -> footprint ok m2 -> footprint ok (if b then m1 else m2).
Proof. now destruct b. Qed.

Lemma footprint_try_catch body handler :
  footprint ok body -> (forall e, footprint ok (handler e)) ->
  footprint ok (try_catch body handler).
Proof.
  apply appends_try_catch. intros a b Ha Hb. apply Forall_app. now split.
Qed.

Lemma footprint_try_catch_finally body handler final :
  footprint ok body -> (forall e, footprint ok (handler e)) ->
  footprint ok final -> footprint ok (try_catch_finally body handler final).
Proof.
  apply appends_try_catch_finally. intros a b Ha Hb. apply Forall_app. now split.
Qed.

End Footprint.

(** Walks a block of the task; what is left are the conditions on the
    actions. *)
Ltac footprint_walk :=
  repeat
    match goal with
    | |- footprint _ (phases _ _ _) =>
        unfold phases; apply footprint_bind; [ | intros [[? ?] ?] ]
    | |- footprint _ (bind _ _) => apply footprint_bind; [ | intros ? ]
    | |- footprint _ (ret _) => apply footprint_ret
    | |- footprint _ (throw _) => apply footprint_throw
    | |- footprint _ return_ => apply footprint_return
    | |- footprint _ (log _) => apply footprint_log
    | |- footprint _ (await _ _) => apply footprint_await
    | |- footprint _ (sendPhase _ _) => apply footprint_write; intros ?
    | |- footprint _ (sendEvent _) => apply footprint_write; intros ?
    | |- footprint _ writer_close => apply footprint_close; intros ?
    | |- footprint _ (fail_with _) => unfold fail_with
    | |- footprint _ (phase_coordinates _ _) => unfold phase_coordinates
    | |- footprint _ (resolve_keys _ _) => unfold resolve_keys
    | |- footprint _ (resolve_db _ _) => unfold resolve_db
    | |- footprint _ (phase_signal _ _) => unfold phase_signal
    | |- footprint _ (phase_station _ _ _) => unfold phase_station
    | |- footprint _ phase_complete => unfold phase_complete
    | |- footprint _ (catch_block _) => unfold catch_block
    | |- footprint _ (new_URL _ _) => unfold new_URL
    | |- footprint _ (try_catch _ _) => apply footprint_try_catch; [ | intros ? ]
    | |- footprint _ (if _ then _ else _) => apply footprint_if
    | |- footprint _ (match ?x with _ => _ end) => destruct x
    end.

(** ** The Skip Set and the Bootstrap Installer *)

Section Bootstrap.

Variable data : RunPayload.
Variable co : Collaborators.
Hypothesis Hskip : hint skipBootstrap (healthCheck data) = true.

Lemma footprint_task_skip_bootstrap : footprint (no_call is_bootstrap) (task data co).
Proof.
  unfold task. apply footprint_bind; [now apply footprint_log | intros _].
  apply footprint_try_catch_finally.
  - unfold try_block. footprint_walk; try exact I; try reflexivity.
    + unfold phase_comms. footprint_walk; exact I || reflexivity.
    + unfold phase_contact, skipped. rewrite includes_skipped, Hskip. cbn [negb].
      footprint_walk; exact I.
    + unfold phase_landing. footprint_walk; exact I || reflexivity.
  - intros e. footprint_walk. exact I.
  - footprint_walk. exact I.
Qed.

End Bootstrap.

Lemma Forall_calls bad t :
  Forall (no_call bad) t -> Forall (fun c => bad c = false) (calls t).
Proof.
  unfold calls. induction 1 as [ | [l | e b | b | c] t Ha Ht IH]; cbn; trivial.
  now constructor.
Qed.

(** C6: when the Skip Set contains [bootstrap], [bootstrapInstance] is
    not called in the run. *)
Theorem skipped_bootstrap_never_invoked data co :
  hint skipBootstrap (healthCheck data) = true ->
  Forall (fun c => is_bootstrap c = false) (calls (trace (snd (run data co)))).
Proof.
  intros Hskip.
  destruct (@footprint_task_skip_bootstrap data co Hskip (initial_world data co))
    as (d & Hd & Hok).
  unfold run. rewrite Hd, calls_app. apply Forall_app. split.
  - unfold initial_world. destruct (skipped data); constructor.
  - now apply Forall_calls.
Qed.

(** A request to which C6 applies. *)
Lemma skipped_bootstrap_never_invoked_witness :
  Forall (fun c => is_bootstrap c = false)
    (calls (trace (snd (run
       (Examples.supplied false (Some (mkHealthCheck false false false true)))
       Examples.all_ok)))).
Proof.
  apply (@skipped_bootstrap_never_invoked
           (Examples.supplied false (Some (mkHealthCheck false false false true)))
           Examples.all_ok).
  reflexivity.
Defined.

(** ** The task, block by block *)

Section TaskBlocks.

Variable D : list Action -> Prop.
Hypothesis D_nil : D [].
Hypothesis D_app : forall a b, D a -> D b -> D (a ++ b).

Variable data : RunPayload.
Variable co : Collaborators.





End TaskBlocks.


Ltac quiet :=
  footprint_walk;
  try match goal with
      | |- no_call _ _ => first [exact I | reflexivity]
      | |- no_write _ _ => discriminate
      end.


(** ** The Function Deployer *)

Lemma app_eq_cons_split {A} (a b pre post : list A) x :
  a ++ b = pre ++ x :: post ->
  (exists post_a, a = pre ++ x :: post_a /\ post = post_a ++ b)
  \/ (exists pre_b, b = pre_b ++ x :: post /\ pre = a ++ pre_b).
Proof.
  revert pre. induction a as [ | y a IH]; intros pre H.
  - right. now exists pre.
  - destruct pre as [ | z pre]; cbn in H; injection H as -> H.
    + left. now exists a.
    + destruct (IH pre H) as [(pa & -> & ->) | (pb & -> & ->)].
      * left. now exists pa.
      * right. now exists pb.
Qed.

Section Deployer.

Variable data : RunPayload.
Variable co : Collaborators.

Lemma guarded_nil : guarded co [].
Proof. intros pre c post H. now destruct pre. Qed.





(** *** Nothing to deploy *)

Hypothesis Hnoop :
  deployEdgeFunctions (supabase data) = false
  \/ listEdgeFunctionSlugs co = Returns [].




End Deployer.

Lemma sent_quiet e d : Forall (no_write e) d -> ~ In e (sent d).
Proof.
  unfold sent. induction 1 as [ | [l | e' [] | b | c] d Ha Hd IH]; cbn; auto.
  intros [-> | H]; [now apply Ha | now apply IH].
Qed.

(** *** The events around the comms phase *)







Lemma no_error_among_expected data b p :
  Prefix p (expected_events data b) -> Forall (fun ev => is_error ev = false) p.
Proof.
  intros [q Hq]. pose proof (expected_no_error data b) as Hn.
  rewrite Hq in Hn. apply Forall_app in Hn. tauto.
Qed.





(** ** The Redeploy Trigger *)

Lemma bind_ext {A B} (m : M A) (k k' : A -> M B) w :
  (forall a w', k a w' = k' a w') -> bind m k w = bind m k' w.
Proof.
  intros H. unfold bind. unfold M in *. destruct (m w) as [[a | | e] w1]; trivial.
Qed.

Lemma triple_bind {A B} (P : World -> Prop) (m : M A) (k : A -> M B)
    (R : Completion A -> World -> Prop) (Q : Completion B -> World -> Prop) :
  triple P m R ->
  (forall a, triple (R (Normal a)) (k a) Q) ->
  (forall w, R Return_ w -> Q Return_ w) ->
  (forall e w, R (Throw e) w -> Q (Throw e) w) ->
  triple P (bind m k) Q.
Proof.
  intros Hm Hk Hr Ht w Hw. specialize (Hm w Hw). unfold bind.
  unfold M in *. destruct (m w) as [[a | | e] w1]; cbn in Hm |- *; auto.
  now apply Hk.
Qed.

Section Redeploy.

Variable data : RunPayload.
Variable co : Collaborators.

Lemma still_before_landing_well c w :
  still_before_landing c w -> landed_well c w.
Proof.
  intros H Hex. exfalso.
  apply Exists_exists in Hex. destruct Hex as (x & Hin & Hx).
  assert (Hn : not_landed w) by (destruct c as [[] | | e]; apply H).
  unfold not_landed in Hn. rewrite Forall_forall in Hn.
  specialize (Hn x Hin). congruence.
Qed.

Lemma stays_before_landing {A} (m : M A) es C :
  emits m es C -> footprint (no_call is_redeploy) m ->
  triple before_landing m still_before_landing.
Proof.
  intros He Hf w [Hopen Hnl]. destruct (He w Hopen) as [_ Hm].
  destruct (Hf w) as (d & Hd & Hq). apply Forall_calls in Hq.
  assert (Hnl' : not_landed (snd (m w))).
  { unfold not_landed. rewrite Hd, calls_app. apply Forall_app. now split. }
  unfold M in *. destruct (m w) as [[a | | e] w1]; cbn in *; trivial.
  split; tauto.
Qed.

(** Once the redeploy is requested, the rest of the [try] block ends
    normally unless one of its three writes finds the client gone. *)
Lemma landing_completes :
  triple before_landing
    (bind (phase_landing data co) (fun _ => phase_complete)) landed_well.
Proof.
  intros [cl c r t] [[Hopen Hc] Hnl]. cbn in Hopen, Hc. subst cl.
  unfold not_landed in Hnl. cbn [trace] in Hnl.
  assert (Hno : forall d, calls d = [] ->
            ~ Exists (fun c => is_redeploy c = true) (calls (t ++ d))).
  { intros d Hd Hex. rewrite calls_app, Hd, app_nil_r in Hex.
    apply Exists_exists in Hex. destruct Hex as (x & Hin & Hx).
    rewrite Forall_forall in Hnl. specialize (Hnl x Hin). congruence. }
  unfold landed_well, phase_landing, phase_complete, bind, try_catch, log,
    sendPhase, sendEvent, writer_write, await.
  destruct c as [ | [ | [ | [ | [ | n]]]] | ]; [ | | | | | | contradiction];
    cbn -[calls]; destruct (triggerProjectRedeploy co); cbn -[calls];
    intros Hex; auto.
  all: try (right; split; [now eexists | reflexivity]).
  all: exfalso; revert Hex; rewrite <- ?app_assoc; now apply Hno.
Qed.

Lemma phases_landed hasLocal :
  triple before_landing (phases data co hasLocal) landed_well.
Proof.
  unfold phases.
  eapply triple_bind;
    [ eapply stays_before_landing; [apply emits_phase_coordinates | quiet]
    | intros [[a s] u]
    | intros w; apply (@still_before_landing_well Return_)
    | intros e w; apply (@still_before_landing_well (Throw e)) ].
  eapply triple_bind;
    [ eapply stays_before_landing; [apply emits_phase_signal | quiet]
    | intros ?
    | intros w; apply (@still_before_landing_well Return_)
    | intros e w; apply (@still_before_landing_well (Throw e)) ].
  eapply triple_bind;
    [ eapply stays_before_landing; [apply emits_phase_station | quiet]
    | intros ?
    | intros w; apply (@still_before_landing_well Return_)
    | intros e w; apply (@still_before_landing_well (Throw e)) ].
  eapply triple_bind;
    [ eapply stays_before_landing;
        [apply emits_phase_comms | unfold phase_comms; quiet]
    | intros ?
    | intros w; apply (@still_before_landing_well Return_)
    | intros e w; apply (@still_before_landing_well (Throw e)) ].
  eapply triple_bind;
    [ eapply stays_before_landing;
        [apply emits_phase_contact | unfold phase_contact; quiet]
    | intros ?
    | intros w; apply (@still_before_landing_well Return_)
    | intros e w; apply (@still_before_landing_well (Throw e)) ].
  apply landing_completes.
Qed.

Lemma try_block_landed :
  triple before_landing (try_block data co) landed_well.
Proof.
  unfold try_block.
  eapply triple_bind with (R := still_before_landing).
  - destruct (deployEdgeFunctions (supabase data)).
    + eapply stays_before_landing; [apply emits_await | quiet].
    + eapply stays_before_landing; [apply (emits_ret _ []) | quiet].
  - intros l. destruct (_ && _).
    + intros w Hw. apply still_before_landing_well. revert w Hw.
      eapply stays_before_landing;
        [apply (@emits_fail_with _ _ [] [[]]); now left | quiet].
    + apply phases_landed.
  - intros w. apply (@still_before_landing_well Return_).
  - intros e w. apply (@still_before_landing_well (Throw e)).
Qed.

Lemma calls_of_run :
  calls (trace (snd (run data co))) =
  calls (trace (snd (try_block data co (try_world data co)))).
Proof.
  rewrite run_unfold. unfold try_catch_finally, try_catch. unfold M in *.
  destruct (try_block data co (try_world data co))
    as [[[] | | e] [[] [ | [ | n] | ] r t]];
    cbn; rewrite ?calls_app; cbn; now rewrite ?app_nil_r.
Qed.

(** Once a write has found the client gone, nothing more is sent. *)
Lemma sent_after_gone e :
  fst (try_block data co (try_world data co)) = Throw e ->
  client (snd (try_block data co (try_world data co))) = gone ->
  sent (trace (snd (run data co)))
  = sent (trace (snd (try_block data co (try_world data co)))).
Proof.
  rewrite run_unfold. unfold try_catch_finally, try_catch. unfold M in *.
  destruct (try_block data co (try_world data co)) as [c [cl cli r t]].
  cbn [fst snd client trace]. intros -> ->.
  destruct cl; cbn; rewrite ?sent_app; cbn; now rewrite ?app_nil_r.
Qed.

(** A run that has requested the redeploy: its [try] block ends
    normally, or one of the writes after the request found the client
    gone. *)
Lemma redeploy_requested :
  Exists (fun c => is_redeploy c = true) (calls (trace (snd (run data co)))) ->
  fst (try_block data co (try_world data co)) = Normal tt
  \/ ((exists e, fst (try_block data co (try_world data co)) = Throw e)
      /\ client (snd (try_block data co (try_world data co))) = gone).
Proof.
  rewrite calls_of_run. apply try_block_landed. split.
  - split; [reflexivity | ]. cbn. now destruct (clientReads co).
  - unfold not_landed. now rewrite calls_initial.
Qed.

Lemma expected_ends_landing b :
  exists pre, expected_events data b =
              pre ++ [phaseEvent landing 98; phaseEvent complete 100; completeEvent].
Proof.
  exists (events_coordinates ++ events_signal data ++ events_station data
          ++ events_comms data b ++ events_contact data ++ [phaseEvent landing 92]).
  unfold expected_events. now rewrite <- !app_assoc.
Qed.

(** Whether the redeploy throws or returns makes no difference. *)
Lemma landing_swallows e w :
  triggerProjectRedeploy co = Throws e ->
  phase_landing data co w = phase_landing data (with_redeploy co (Returns tt)) w.
Proof.
  intros H. destruct w as [[] [ | [ | [ | n]] | ] r t];
    unfold phase_landing, bind, try_catch, log,
    sendPhase, sendEvent, writer_write, await; cbn; now rewrite ?H.
Qed.

Lemma run_swallows e :
  triggerProjectRedeploy co = Throws e ->
  run data co = run data (with_redeploy co (Returns tt)).
Proof.
  intros H. rewrite !run_unfold. unfold try_catch_finally, try_catch.
  assert (Ht : forall w, try_block data co w =
                         try_block data (with_redeploy co (Returns tt)) w).
  { intros w. unfold try_block. apply bind_ext. intros l w1.
    destruct (_ && _); trivial. unfold phases.
    apply bind_ext. intros [[a s] u] w2.
    do 4 (apply bind_ext; intros ? ?).
    unfold bind. rewrite (landing_swallows _ H). reflexivity. }
  change (try_world data (with_redeploy co (Returns tt))) with (try_world data co).
  now rewrite Ht.
Qed.

(** What a run that has requested the redeploy sends. *)
Lemma sent_once_landed :
  Exists (fun c => is_redeploy c = true) (calls (trace (snd (run data co)))) ->
  Forall (fun ev => is_error ev = false) (sent (trace (snd (run data co))))
  /\ (clientReads co = None ->
      fst (run data co) = Normal tt
      /\ exists pre, sent (trace (snd (run data co))) =
                     pre ++ [phaseEvent landing 98; phaseEvent complete 100;
                             completeEvent]).
Proof.
  intros Hcalled. apply redeploy_requested in Hcalled.
  destruct (stream_of_run data co) as (H & Hw & Hs).
  destruct Hcalled as [Hn | [[e He] Hg]].
  - rewrite Hn in H. rewrite <- sent_stream.
    remember (Normal tt) as c eqn:Hc.
    destruct H as [ | p message Hp | p e' Hp | p e' r Hp | p ev e' r Hp];
      try discriminate.
    rewrite sent_app, sent_writes. cbn [sent flat_map]. rewrite app_nil_r.
    split; [apply expected_no_error | ]. intros _.
    split; [reflexivity | apply expected_ends_landing].
  - rewrite (sent_after_gone He Hg).
    assert (Hw0 : writable (try_world data co)).
    { split; [reflexivity | ]. cbn. now destruct (clientReads co). }
    pose proof (@emits_try_block data co) as HH. unfold emits in HH.
    destruct (HH _ Hw0) as [Hst Hm]. clear HH.
    rewrite stream_try_world in Hm. cbn [app] in Hm. unfold M in *.
    destruct (try_block data co (try_world data co)) as [c w1].
    cbn [fst snd] in *. subst c. split.
    + rewrite <- sent_stream.
      destruct Hm as [([_ Hc] & _) | (_ & _ & p & ev & Hp & Hm)];
        [contradiction | ].
      rewrite Hm, sent_app, sent_writes. cbn. rewrite app_nil_r.
      apply no_error_among_expected with (data := data) (b := found_local data co).
      destruct Hp as [Hp | Hp]; [exact Hp | now apply cuts_are_prefixes].
    + intros Hnone. exfalso.
      assert (Hc : client (try_world data co) = stays) by (cbn; now rewrite Hnone).
      specialize (Hst Hc). rewrite Hg in Hst. discriminate.
Qed.

End Redeploy.

(** C9, as amended: when [triggerProjectRedeploy] throws, the run is the
    one of a successful redeploy, console included. A run that reached
    the redeploy sends no error event; and when its client stays, it ends
    normally and the events sent end with those of the landing and
    complete phases. *)
Theorem redeploy_failure_is_swallowed data co e :
  triggerProjectRedeploy co = Throws e ->
  run data co = run data (with_redeploy co (Returns tt))
  /\ (Exists (fun c => is_redeploy c = true) (calls (trace (snd (run data co)))) ->
      Forall (fun ev => is_error ev = false) (sent (trace (snd (run data co))))
      /\ (clientReads co = None ->
          fst (run data co) = Normal tt
          /\ exists pre, sent (trace (snd (run data co))) =
                         pre ++ [phaseEvent landing 98; phaseEvent complete 100;
                                 completeEvent])).
Proof.
  intros He. split; [now apply run_swallows with (e := e) | ].
  apply sent_once_landed.
Qed.

(** A run to which C9 applies. *)
Lemma redeploy_failure_is_swallowed_witness :
  Exists (fun c => is_redeploy c = true)
    (calls (trace (snd (run (Examples.supplied false None) Examples.redeploy_throws))))
  /\ fst (run (Examples.supplied false None) Examples.redeploy_throws) = Normal tt.
Proof.
  assert (H : Exists (fun c => is_redeploy c = true)
    (calls (trace (snd (run (Examples.supplied false None) Examples.redeploy_throws))))).
  { vm_compute. repeat first [apply Exists_cons_hd; reflexivity | apply Exists_cons_tl]. }
  split; [exact H | ].
  apply (@redeploy_failure_is_swallowed (Examples.supplied false None)
           Examples.redeploy_throws (ErrorObject (str "Vercel 500")) eq_refl);
    [exact H | reflexivity].
Defined.

(** The counterexample to C9 as stated: the console of a run whose
    redeploy throws is that of a run whose redeploy succeeds; the failure
    is not logged. *)
Lemma redeploy_failure_is_not_logged :
  triggerProjectRedeploy Examples.redeploy_throws
  = Throws (ErrorObject (str "Vercel 500"))
  /\ Exists (fun c => is_redeploy c = true)
       (calls (trace (snd (run (Examples.supplied false None)
                             Examples.redeploy_throws))))
  /\ console (trace (snd (run (Examples.supplied false None) Examples.redeploy_throws)))
     = console (trace (snd (run (Examples.supplied false None) Examples.all_ok))).
Proof.
  split; [reflexivity | split].
  - vm_compute. repeat first [apply Exists_cons_hd; reflexivity | apply Exists_cons_tl].
  - vm_compute. reflexivity.
Qed.

End RunStreamFacts.

(* ================================================================== *)
(** * Facts about the entry checks and the administrative routes *)

Module EntryFacts.

Lemma jsstring_eqb_eq a b : eqb a b = true <-> a = b.
Proof. unfold eqb. destruct (list_eq_dec N.eq_dec a b); intuition discriminate. Qed.

Lemma jsstring_eqb_neq a b : eqb a b = false <-> a <> b.
Proof. unfold eqb. destruct (list_eq_dec N.eq_dec a b); intuition discriminate. Qed.

(** What [new Response] gives when it does not throw. *)
Lemma new_Response_returns {Body : Type} (b : Body) st r :
  new_Response b st = Returns r ->
  r = mkResponse (st mod 65536)%Z b /\ (200 <= status r <= 599)%Z.
Proof.
  unfold new_Response.
  destruct ((st mod 65536 <? 200) || (599 <? st mod 65536))%Z eqn:Hr;
    [discriminate | ].
  destruct ((st mod 65536 =? 204) || (st mod 65536 =? 205)
            || (st mod 65536 =? 304))%Z; [discriminate | ].
  intros [= <-]. split; [reflexivity | ]. cbn.
  apply orb_false_iff in Hr. lia.
Qed.

Section EntryChecks.

Variable Payload : Type.
Variable tokenOf : Payload -> option jsstring.
Variable penv : ProcessEnv.

(** What passes the entry checks is the parsed payload. *)
Lemma entry_passes req data :
  entry_checks tokenOf penv req = inr data -> parsed req = Some data.
Proof.
  unfold entry_checks. destruct (negb _); [discriminate | ].
  destruct (installer_disabled penv); [discriminate | ].
  destruct (parsed req) as [d | ]; [ | discriminate].
  destruct (token_mismatch penv (tokenOf d)); [discriminate | ]. now intros [= ->].
Qed.

(** The entry checks reject with 403 or 400. *)
Lemma entry_rejects req r :
  entry_checks tokenOf penv req = inl r -> status r = 403%Z \/ status r = 400%Z.
Proof.
  unfold entry_checks. destruct (negb _); [intros [= <-]; now left | ].
  destruct (installer_disabled penv); [intros [= <-]; now left | ].
  destruct (parsed req) as [d | ]; [ | intros [= <-]; now right].
  destruct (token_mismatch penv (tokenOf d)); [ | discriminate].
  intros [= <-]. now left.
Qed.

Lemma no_expected_token t :
  truthy_opt (INSTALLER_TOKEN penv) = false -> token_mismatch penv t = false.
Proof. unfold token_mismatch. now intros ->. Qed.

(** A token rejection needs a configured token. *)
Lemma entry_token_rejection req r :
  entry_checks tokenOf penv req = inl r -> body r = msg_invalid_token ->
  truthy_opt (INSTALLER_TOKEN penv) = true.
Proof.
  unfold entry_checks. destruct (negb _); [intros [= <-]; discriminate | ].
  destruct (installer_disabled penv); [intros [= <-]; discriminate | ].
  destruct (parsed req) as [d | ]; [ | intros [= <-]; discriminate].
  unfold token_mismatch.
  destruct (truthy_opt (INSTALLER_TOKEN penv)); [trivial | discriminate].
Qed.

End EntryChecks.

End EntryFacts.
(** * The delete route *)

Module DeleteRouteFacts.

Import DeleteRoute EntryFacts.

Lemma delete_examples_pass_schema :
  Schema_accepts trailing_space = true /\ Schema_accepts other_project = true.
Proof. split; reflexivity. Qed.

(** C8, as amended: when [confirmRef] and [projectRef] differ after
    trimming, the request is rejected with a 4xx status (400 and the
    mismatch message once it has passed the entry checks) and
    [deleteSupabaseProject] is not called. *)
Theorem confirmation_mismatch_rejected penv del req data :
  parsed req = Some data ->
  trim (confirmRef data) <> trim (projectRef data) ->
  fst (POST penv del req) = []
  /\ exists r, snd (POST penv del req) = Returns r
               /\ (400 <= status r < 500)%Z
               /\ (entry_checks installerToken penv req = inr data ->
                   r = mkResponse 400 (body_error msg_mismatch)).
Proof.
  intros Hp Hne. unfold POST.
  destruct (entry_checks installerToken penv req) as [r | d] eqn:Hg.
  - split; [reflexivity | ]. eexists. split; [reflexivity | ]. cbn.
    split; [ | discriminate]. apply entry_rejects in Hg. destruct Hg as [Hg | Hg]; rewrite Hg; lia.
  - apply entry_passes in Hg. rewrite Hp in Hg. injection Hg as <-.
    apply jsstring_eqb_neq in Hne. rewrite Hne. cbn.
    split; [reflexivity | ]. eexists. split; [reflexivity | ].
    cbn. split; [lia | reflexivity].
Qed.

(** A request to which C8 applies. *)
Lemma confirmation_mismatch_rejected_witness :
  trim (confirmRef other_project) <> trim (projectRef other_project)
  /\ fst (POST open_installer (Returns delete_ok)
            (mkRequest true (Some other_project))) = [].
Proof.
  split; [vm_compute; discriminate | ].
  apply (@confirmation_mismatch_rejected open_installer (Returns delete_ok)
           (mkRequest true (Some other_project)) other_project eq_refl).
  vm_compute; discriminate.
Defined.

(** The counterexample to C8 as stated: a confirmation that differs from
    the project ref by a trailing space deletes the project. *)
Lemma padded_confirmation_deletes :
  confirmRef trailing_space <> projectRef trailing_space
  /\ POST open_installer (Returns delete_ok) (mkRequest true (Some trailing_space))
     = ([call_deleteSupabaseProject (str "sbp_token") (str "abcdefgh")],
        Returns (mkResponse 200 body_ok)).
Proof. split; [vm_compute; discriminate | vm_compute; reflexivity]. Qed.

(** The status of a reported failure goes into the response: 500 takes
    the place of a missing status and of 0, and [new Response] throws on
    a status outside 200..599. *)
Example delete_failure_responses :
  let failing st :=
    snd (POST open_installer (Returns (delete_failed (str "Project not found") st))
           (mkRequest true (Some trailing_space))) in
  failing (Some 404%Z)
  = Returns (mkResponse 404 (body_failed (str "Project not found") (Some 404%Z)))
  /\ failing None = Returns (mkResponse 500 (body_failed (str "Project not found") None))
  /\ failing (Some 0%Z)
     = Returns (mkResponse 500 (body_failed (str "Project not found") (Some 0%Z)))
  /\ failing (Some 999%Z) = Throws (ErrorObject msg_status_range).
Proof. vm_compute. repeat split. Qed.

End DeleteRouteFacts.
(** * The installer token *)

Module TokenFacts.

Import EntryFacts.

(** C10: when [INSTALLER_TOKEN] is unset or empty, the response of each
    of the three routes does not depend on the [installerToken] of the
    request, and none of them answers with the token rejection. *)
Theorem unset_installer_token_is_not_checked penv :
  truthy_opt (INSTALLER_TOKEN penv) = false ->
  (forall co,
      (forall origin data t,
          RunStream.POST penv co
            (mkRequest origin (Some (RunStream.with_installerToken data t)))
          = RunStream.POST penv co (mkRequest origin (Some data)))
      /\ (forall req r, RunStream.POST penv co req = inl r ->
                        body r <> msg_invalid_token))
  /\ (forall del,
      (forall origin data t,
          DeleteRoute.POST penv del
            (mkRequest origin (Some (DeleteRoute.with_installerToken data t)))
          = DeleteRoute.POST penv del (mkRequest origin (Some data)))
      /\ (forall req r, snd (DeleteRoute.POST penv del req) = Returns r ->
                        body r <> DeleteRoute.body_error msg_invalid_token))
  /\ (forall (Organization Project : Type) (ref : Project -> jsstring)
             (org : Outcome (ListRoute.OrgResult Organization))
             (projects : Outcome (ListRoute.ProjectsResult Project)),
      (forall origin data t,
          ListRoute.POST ref penv org projects
            (mkRequest origin (Some (ListRoute.with_installerToken data t)))
          = ListRoute.POST ref penv org projects (mkRequest origin (Some data)))
      /\ (forall req r, snd (ListRoute.POST ref penv org projects req) = Returns r ->
                        body r <> ListRoute.body_error Organization Project
                                    msg_invalid_token)).
Proof.
  intros Hno.
  pose proof (fun t => no_expected_token penv t Hno) as Hm.
  assert (Hentry : forall Payload (tokenOf : Payload -> option jsstring) req r,
             entry_checks tokenOf penv req = inl r -> body r <> msg_invalid_token).
  { intros Payload tokenOf req r Hg Hb.
    pose proof (entry_token_rejection _ _ _ Hg Hb). congruence. }
  split; [ | split].
  - intros co. split.
    + intros origin data t. unfold RunStream.POST, entry_checks.
      cbn [parsed allowedOrigin]. rewrite !Hm.
      now destruct (negb origin), (installer_disabled penv).
    + intros req r. unfold RunStream.POST.
      destruct (entry_checks RunStream.installerToken penv req) as [r' | d] eqn:Hg;
        [ | discriminate].
      intros [= <-]. now apply Hentry in Hg.
  - intros del. split.
    + intros origin data t. unfold DeleteRoute.POST, entry_checks.
      cbn [parsed allowedOrigin]. rewrite !Hm.
      now destruct (negb origin), (installer_disabled penv).
    + intros req r. unfold DeleteRoute.POST.
      destruct (entry_checks DeleteRoute.installerToken penv req) as [r' | d] eqn:Hg.
      * intros [= <-]. cbn. apply Hentry in Hg. intros Hb. apply Hg.
        now injection Hb.
      * destruct (negb _); [intros [= <-]; discriminate | ].
        destruct del as [[ | e st] | e]; [intros [= <-]; discriminate | | discriminate].
        intros H. apply new_Response_returns in H. destruct H as [-> _].
        discriminate.
  - intros Organization Project ref org projects. split.
    + intros origin data t. unfold ListRoute.POST, entry_checks.
      cbn [parsed allowedOrigin]. rewrite !Hm.
      now destruct (negb origin), (installer_disabled penv).
    + intros req r. unfold ListRoute.POST.
      destruct (entry_checks ListRoute.installerToken penv req) as [r' | d] eqn:Hg.
      * intros [= <-]. cbn. apply Hentry in Hg. intros Hb. apply Hg.
        now injection Hb.
      * destruct org as [[o | e st] | e]; try (intros [= <-]; discriminate).
        -- destruct projects as [[ps | e st] | e];
             [intros [= <-]; discriminate | | discriminate].
           intros H. apply new_Response_returns in H. destruct H as [-> _].
           discriminate.
        -- intros H. apply new_Response_returns in H. destruct H as [-> _].
           discriminate.
Qed.

(** An environment to which C10 applies. *)
Lemma unset_installer_token_is_not_checked_witness :
  truthy_opt (INSTALLER_TOKEN open_installer) = false
  /\ DeleteRoute.POST open_installer (Returns DeleteRoute.delete_ok)
       (mkRequest true
          (Some (DeleteRoute.with_installerToken DeleteRoute.other_project
                   (Some (str "guess")))))
     = DeleteRoute.POST open_installer (Returns DeleteRoute.delete_ok)
         (mkRequest true (Some DeleteRoute.other_project)).
Proof.
  split; [reflexivity | ].
  apply (unset_installer_token_is_not_checked open_installer eq_refl).
Defined.

End TokenFacts.
(* ================================================================== *)
(** * More facts about the entry checks and the administrative routes *)

Module RouteFacts.

Import EntryFacts RouteExamples.

Section EntryChecks.

Variable Payload : Type.
Variable tokenOf : Payload -> option jsstring.
Variable penv : ProcessEnv.

Lemma entry_disabled req :
  installer_disabled penv = true ->
  exists r, entry_checks tokenOf penv req = inl r /\ status r = 403%Z.
Proof.
  intros Hd. unfold entry_checks. rewrite Hd.
  destruct (negb _); eexists; split; reflexivity.
Qed.

Lemma strict_neq_false a b : strict_neq a b = false -> a = b.
Proof.
  destruct a as [x | ], b as [y | ]; cbn; try discriminate; [ | reflexivity].
  intros H. apply negb_false_iff, jsstring_eqb_eq in H. now subst.
Qed.

Lemma entry_passes_all req data :
  entry_checks tokenOf penv req = inr data ->
  allowedOrigin req = true /\ installer_disabled penv = false
  /\ parsed req = Some data /\ token_mismatch penv (tokenOf data) = false.
Proof.
  unfold entry_checks. destruct (allowedOrigin req); [ | discriminate]. cbn.
  destruct (installer_disabled penv); [discriminate | ].
  destruct (parsed req) as [d | ]; [ | discriminate].
  destruct (token_mismatch penv (tokenOf d)) eqn:Hm; [discriminate | ].
  intros [= ->]. auto.
Qed.

Lemma entry_checks_pass req data :
  allowedOrigin req = true -> installer_disabled penv = false ->
  parsed req = Some data -> token_mismatch penv (tokenOf data) = false ->
  entry_checks tokenOf penv req = inr data.
Proof.
  intros Ho Hd Hp Hm. unfold entry_checks. now rewrite Ho, Hd, Hp, Hm.
Qed.

Lemma entry_token t req data :
  INSTALLER_TOKEN penv = Some t -> truthy t = true ->
  entry_checks tokenOf penv req = inr data -> tokenOf data = Some t.
Proof.
  intros Ht Hne Hg. apply entry_passes_all in Hg.
  destruct Hg as (_ & _ & _ & Hm). unfold token_mismatch in Hm.
  rewrite Ht in Hm. cbn in Hm. rewrite Hne in Hm. now apply strict_neq_false in Hm.
Qed.

End EntryChecks.

(** X1: with [INSTALLER_ENABLED] set to ['false'], each of the three
    routes answers 403 whatever the request: no installation run is
    started and no collaborator is called. *)
Theorem disabled_installer_serves_nothing penv :
  INSTALLER_ENABLED penv = Some (str "false") ->
  (forall co req, exists r, RunStream.POST penv co req = inl r /\ status r = 403%Z)
  /\ (forall del req,
         fst (DeleteRoute.POST penv del req) = []
         /\ exists r, snd (DeleteRoute.POST penv del req) = Returns r
                      /\ status r = 403%Z)
  /\ (forall (Organization Project : Type) (ref : Project -> jsstring)
             (org : Outcome (ListRoute.OrgResult Organization))
             (projects : Outcome (ListRoute.ProjectsResult Project)) req,
         fst (ListRoute.POST ref penv org projects req) = []
         /\ exists r, snd (ListRoute.POST ref penv org projects req) = Returns r
                      /\ status r = 403%Z).
Proof.
  intros He.
  assert (Hd : installer_disabled penv = true)
    by (unfold installer_disabled; now rewrite He).
  split; [ | split].
  - intros co req. unfold RunStream.POST.
    destruct (entry_disabled RunStream.installerToken penv req Hd) as (r & -> & Hr).
    now exists r.
  - intros del req. unfold DeleteRoute.POST.
    destruct (entry_disabled DeleteRoute.installerToken penv req Hd) as (r & -> & Hr).
    split; [reflexivity | ]. eexists. split; [reflexivity | exact Hr].
  - intros Organization Project ref org projects req. unfold ListRoute.POST.
    destruct (entry_disabled ListRoute.installerToken penv req Hd) as (r & -> & Hr).
    split; [reflexivity | ]. eexists. split; [reflexivity | exact Hr].
Qed.

Lemma disabled_installer_serves_nothing_witness :
  INSTALLER_ENABLED disabled_installer = Some (str "false")
  /\ fst (DeleteRoute.POST disabled_installer (Returns DeleteRoute.delete_ok)
            (mkRequest true (Some DeleteRoute.trailing_space))) = [].
Proof.
  split; [reflexivity | ].
  apply (proj1 (proj2 (@disabled_installer_serves_nothing disabled_installer eq_refl))).
Defined.

(** X2: when a non-empty [INSTALLER_TOKEN] is configured, a route starts
    a run or calls a collaborator only for a request whose payload carries
    exactly that token. *)
Theorem configured_token_is_required penv t :
  INSTALLER_TOKEN penv = Some t -> truthy t = true ->
  (forall co req out, RunStream.POST penv co req = inr out ->
      exists data, parsed req = Some data
                   /\ RunStream.installerToken data = Some t
                   /\ out = RunStream.run data co)
  /\ (forall del req, fst (DeleteRoute.POST penv del req) <> [] ->
      exists data, parsed req = Some data
                   /\ DeleteRoute.installerToken data = Some t)
  /\ (forall (Organization Project : Type) (ref : Project -> jsstring)
             (org : Outcome (ListRoute.OrgResult Organization))
             (projects : Outcome (ListRoute.ProjectsResult Project)) req,
      fst (ListRoute.POST ref penv org projects req) <> [] ->
      exists data, parsed req = Some data
                   /\ ListRoute.installerToken data = Some t).
Proof.
  intros Ht Hne. split; [ | split].
  - intros co req out. unfold RunStream.POST.
    destruct (entry_checks RunStream.installerToken penv req) as [r | d] eqn:Hg;
      [discriminate | ].
    intros [= <-]. exists d. split; [now apply entry_passes in Hg | ].
    split; [exact (entry_token _ _ _ Ht Hne Hg) | reflexivity].
  - intros del req. unfold DeleteRoute.POST.
    destruct (entry_checks DeleteRoute.installerToken penv req) as [r | d] eqn:Hg;
      [now intros [] | ].
    intros _. exists d. split; [now apply entry_passes in Hg | ].
    exact (entry_token _ _ _ Ht Hne Hg).
  - intros Organization Project ref org projects req. unfold ListRoute.POST.
    destruct (entry_checks ListRoute.installerToken penv req) as [r | d] eqn:Hg;
      [now intros [] | ].
    intros _. exists d. split; [now apply entry_passes in Hg | ].
    exact (entry_token _ _ _ Ht Hne Hg).
Qed.

Lemma configured_token_is_required_witness :
  INSTALLER_TOKEN token_installer = Some (str "s3cr3t")
  /\ truthy (str "s3cr3t") = true
  /\ exists data,
       Some (DeleteRoute.with_installerToken DeleteRoute.trailing_space
               (Some (str "s3cr3t"))) = Some data
       /\ DeleteRoute.installerToken data = Some (str "s3cr3t").
Proof.
  split; [reflexivity | ]. split; [reflexivity | ].
  apply (proj1 (proj2 (@configured_token_is_required token_installer (str "s3cr3t")
                         eq_refl eq_refl))
           (Returns DeleteRoute.delete_ok)
           (mkRequest true
              (Some (DeleteRoute.with_installerToken DeleteRoute.trailing_space
                       (Some (str "s3cr3t")))))).
  vm_compute. discriminate.
Defined.

(** X3: the delete route calls [deleteSupabaseProject] exactly when the
    origin is allowed, the installer is not disabled, the payload parses,
    the token check passes and the trimmed confirmation equals the
    trimmed project ref: the call is then made with the trimmed access
    token and the trimmed project ref of the payload, and no request makes
    the route call more than once. *)
Theorem delete_called_exactly_when penv del req c :
  (In c (fst (DeleteRoute.POST penv del req))
   <-> exists data,
         parsed req = Some data
         /\ allowedOrigin req = true
         /\ installer_disabled penv = false
         /\ token_mismatch penv (DeleteRoute.installerToken data) = false
         /\ trim (DeleteRoute.confirmRef data) = trim (DeleteRoute.projectRef data)
         /\ c = DeleteRoute.call_deleteSupabaseProject
                  (trim (DeleteRoute.accessToken data))
                  (trim (DeleteRoute.projectRef data)))
  /\ List.length (fst (DeleteRoute.POST penv del req)) <= 1.
Proof.
  split; [split | ].
  - unfold DeleteRoute.POST.
    destruct (entry_checks DeleteRoute.installerToken penv req) as [r | d] eqn:Hg;
      [now intros [] | ].
    apply entry_passes_all in Hg. destruct Hg as (Ho & Hd & Hp & Hm).
    destruct (eqb _ _) eqn:He; cbn; [ | now intros []].
    intros [<- | []]. exists d. apply jsstring_eqb_eq in He. auto 10.
  - intros (data & Hp & Ho & Hd & Hm & He & ->). unfold DeleteRoute.POST.
    rewrite (entry_checks_pass DeleteRoute.installerToken penv req Ho Hd Hp Hm).
    apply jsstring_eqb_eq in He. rewrite He. now left.
  - unfold DeleteRoute.POST.
    destruct (entry_checks DeleteRoute.installerToken penv req) as [r | d];
      [cbn; lia | ].
    destruct (negb _); cbn; lia.
Qed.

(** X4: a response of the delete route with the success body has status
    200, and comes after the one call of [deleteSupabaseProject], for the
    trimmed project ref that the trimmed confirmation repeats, has
    reported success. *)
Theorem delete_success_means_deleted penv del req r :
  snd (DeleteRoute.POST penv del req) = Returns r ->
  body r = DeleteRoute.body_ok ->
  status r = 200%Z
  /\ del = Returns DeleteRoute.delete_ok
  /\ exists data,
       parsed req = Some data
       /\ trim (DeleteRoute.confirmRef data) = trim (DeleteRoute.projectRef data)
       /\ fst (DeleteRoute.POST penv del req)
          = [DeleteRoute.call_deleteSupabaseProject
               (trim (DeleteRoute.accessToken data))
               (trim (DeleteRoute.projectRef data))].
Proof.
  unfold DeleteRoute.POST.
  destruct (entry_checks DeleteRoute.installerToken penv req) as [r' | d] eqn:Hg.
  - intros [= <-]. discriminate.
  - apply entry_passes in Hg.
    destruct (eqb _ _) eqn:He; cbn; [ | intros [= <-]; discriminate].
    apply jsstring_eqb_eq in He.
    destruct del as [[ | e st] | e]; [intros [= <-] | | discriminate].
    + intros _. split; [reflexivity | ]. split; [reflexivity | ].
      exists d. auto.
    + intros H. apply new_Response_returns in H. destruct H as [-> _].
      discriminate.
Qed.

Lemma delete_success_means_deleted_witness :
  status (mkResponse 200 DeleteRoute.body_ok) = 200%Z
  /\ Returns DeleteRoute.delete_ok = Returns DeleteRoute.delete_ok
  /\ exists data,
       Some DeleteRoute.trailing_space = Some data
       /\ trim (DeleteRoute.confirmRef data) = trim (DeleteRoute.projectRef data)
       /\ fst (DeleteRoute.POST open_installer (Returns DeleteRoute.delete_ok)
                 (mkRequest true (Some DeleteRoute.trailing_space)))
          = [DeleteRoute.call_deleteSupabaseProject
               (trim (DeleteRoute.accessToken data))
               (trim (DeleteRoute.projectRef data))].
Proof.
  apply (@delete_success_means_deleted open_installer (Returns DeleteRoute.delete_ok)
           (mkRequest true (Some DeleteRoute.trailing_space))
           (mkResponse 200 DeleteRoute.body_ok) eq_refl eq_refl).
Defined.

Section ListRouteFacts.

Variables Organization Project : Type.
Variable ref : Project -> jsstring.
Variable penv : ProcessEnv.
Variable org : Outcome (ListRoute.OrgResult Organization).
Variable projects : Outcome (ListRoute.ProjectsResult Project).
Variable req : HttpRequest ListRoute.ListPayload.

(** X5: the list route asks for the projects only after the lookup of
    the organization has succeeded, with the same trimmed access token
    and organization slug, the statuses of the request and the limit 200;
    it makes no other call. *)
Theorem projects_listed_after_organization :
  fst (ListRoute.POST ref penv org projects req) = []
  \/ exists data,
       entry_checks ListRoute.installerToken penv req = inr data
       /\ let c1 := ListRoute.call_getSupabaseOrganization
                      (trim (ListRoute.accessToken data))
                      (trim (ListRoute.organizationSlug data)) in
          let c2 := ListRoute.call_listSupabaseOrganizationProjects
                      (trim (ListRoute.accessToken data))
                      (trim (ListRoute.organizationSlug data))
                      (ListRoute.statuses data) 200 in
          (fst (ListRoute.POST ref penv org projects req) = [c1] /\ forall o, org <> Returns (ListRoute.org_ok o))
          \/ (fst (ListRoute.POST ref penv org projects req) = [c1; c2] /\ exists o, org = Returns (ListRoute.org_ok o)).
Proof.
  unfold ListRoute.POST.
  destruct (entry_checks ListRoute.installerToken penv req) as [r | d] eqn:Hg;
    [now left | right].
  exists d. split; [reflexivity | ]. cbn zeta.
  destruct org as [[o | e st] | e]; cbn.
  - right. split; [reflexivity | now exists o].
  - left. split; [reflexivity | discriminate].
  - left. split; [reflexivity | discriminate].
Qed.

(** X6: a success response of the list route has status 200, carries the
    organization that the lookup returned and the projects that the
    listing returned, in the same order, each with the URL
    [https://<ref>.supabase.co], and its [count] is their number. *)
Theorem list_success_body r o n ps :
  snd (ListRoute.POST ref penv org projects req) = Returns r ->
  body r = ListRoute.body_ok o n ps ->
  status r = 200%Z
  /\ org = Returns (ListRoute.org_ok o)
  /\ projects = Returns (ListRoute.projects_ok (map fst ps))
  /\ n = List.length ps
  /\ Forall (fun pu => snd pu = str "https://" ++ ref (fst pu) ++ str ".supabase.co") ps.
Proof.
  unfold ListRoute.POST.
  destruct (entry_checks ListRoute.installerToken penv req) as [r' | d] eqn:Hg.
  - intros [= <-]. discriminate.
  - destruct org as [[o' | e st] | e]; cbn; try (intros [= <-]; discriminate).
    + destruct projects as [[l | e st] | e]; [intros [= <-] | | discriminate].
      * cbn. intros [= <- <- <-]. rewrite map_map, map_id, length_map. cbn.
        repeat split; try reflexivity.
        apply Forall_forall. intros pu Hin. apply in_map_iff in Hin.
        destruct Hin as (p & <- & _). reflexivity.
      * intros H. apply new_Response_returns in H. destruct H as [-> _].
        discriminate.
    + intros H. apply new_Response_returns in H. destruct H as [-> _].
      discriminate.
Qed.

End ListRouteFacts.

Lemma list_success_body_witness :
  status (mkResponse 200
            (ListRoute.body_ok tt 2
               [(str "abcd", str "https://abcd.supabase.co");
                (str "efgh", str "https://efgh.supabase.co")])) = 200%Z
  /\ 2 = List.length [(str "abcd", str "https://abcd.supabase.co");
                      (str "efgh", str "https://efgh.supabase.co")].
Proof.
  pose proof (@list_success_body unit jsstring (fun p => p) open_installer
                (Returns (ListRoute.org_ok tt))
                (Returns (ListRoute.projects_ok [str "abcd"; str "efgh"]))
                a_list_request _ tt 2 _ eq_refl eq_refl) as H.
  exact (conj (proj1 H) (proj1 (proj2 (proj2 (proj2 H))))).
Defined.

End RouteFacts.

(* ================================================================== *)
(** * Facts about the collaborator calls of a run *)

Module PipelineFacts.

Import RunStream Pipeline RunStreamFacts.
Local Open Scope run_scope.

(** ** Rules of [invokes] *)

Lemma invokes_eq {A} (m : M A) cs cs' (R : A -> Prop) :
  invokes m cs' R -> cs' = cs -> invokes m cs R.
Proof. now intros H <-. Qed.

Lemma invokes_post {A} (m : M A) cs (R R' : A -> Prop) :
  invokes m cs R -> (forall a, R a -> R' a) -> invokes m cs R'.
Proof.
  intros H HR w. destruct (H w) as (d & Hd & Hm). exists d. split; trivial.
  destruct (fst (m w)); intuition.
Qed.

Lemma invokes_ret {A} (a : A) : invokes (ret a) [] (fun x => x = a).
Proof. intros w. exists []. cbn. now rewrite app_nil_r. Qed.

(** A block that calls nothing and does not end normally. *)
Lemma invokes_abrupt {A} (m : M A) cs (R : A -> Prop) :
  (forall w, calls (trace (snd (m w))) = calls (trace w)
             /\ forall a, fst (m w) <> Normal a) ->
  invokes m cs R.
Proof.
  intros H w. destruct (H w) as [Hc Hn]. exists []. rewrite app_nil_r.
  split; trivial. destruct (fst (m w)) as [a | | e];
    [now destruct (Hn a) | apply Prefix_nil | apply Prefix_nil].
Qed.

(** A block that calls nothing. *)
Lemma invokes_quiet {A} (m : M A) :
  (forall w, calls (trace (snd (m w))) = calls (trace w)) ->
  invokes m [] (fun _ => True).
Proof.
  intros H w. exists []. rewrite app_nil_r. split; trivial.
  destruct (fst (m w)); auto using Prefix_nil.
Qed.

Lemma calls_record_other a w :
  match a with Called _ => False | _ => True end ->
  calls (trace (record a w)) = calls (trace w).
Proof.
  intros H. cbn [record trace]. rewrite calls_app.
  destruct a; cbn; try contradiction; apply app_nil_r.
Qed.

Lemma invokes_log l : invokes (log l) [] (fun _ => True).
Proof. apply invokes_quiet. intros w. now apply (calls_record_other (Log l)). Qed.

Lemma invokes_write e : invokes (writer_write e) [] (fun _ => True).
Proof.
  apply invokes_quiet. intros [[] [ | [ | n] | ] r t]; unfold writer_write;
    cbn; rewrite calls_app; cbn; now rewrite app_nil_r.
Qed.

Lemma invokes_throw {A} e cs (R : A -> Prop) : invokes (@throw A e) cs R.
Proof. apply invokes_abrupt. intros w. split; [reflexivity | discriminate]. Qed.

Lemma invokes_fail_with {A} message cs (R : A -> Prop) :
  invokes (@fail_with A message) cs R.
Proof.
  apply invokes_abrupt. intros [[] [ | [ | n] | ] r t]; cbn; rewrite ?calls_app; cbn;
    rewrite ?app_nil_r; (split; [reflexivity | discriminate]).
Qed.

Lemma invokes_await {A} c (o : Outcome A) :
  invokes (await c o) [c] (fun a => o = Returns a).
Proof.
  intros w. exists [c]. cbn [await fst snd record trace]. rewrite calls_app.
  split; [reflexivity | ]. destruct o; [now split | apply Prefix_refl].
Qed.

Lemma invokes_bind {A B} (m : M A) (k : A -> M B) cs1 cs2
    (R1 : A -> Prop) (R2 : B -> Prop) :
  invokes m cs1 R1 -> (forall a, R1 a -> invokes (k a) cs2 R2) ->
  invokes (bind m k) (cs1 ++ cs2) R2.
Proof.
  intros Hm Hk w. unfold bind. destruct (Hm w) as (d1 & H1 & C1).
  unfold M in *. destruct (m w) as [[a | | e] w1]; cbn [fst snd] in *.
  - destruct C1 as [-> Ha]. destruct (Hk a Ha w1) as (d2 & H2 & C2).
    exists (cs1 ++ d2). rewrite H2, H1, app_assoc. split; trivial.
    destruct (fst (k a w1)).
    + destruct C2 as [-> Hb]. now split.
    + now apply Prefix_app_l.
    + now apply Prefix_app_l.
  - exists d1. split; trivial. now apply Prefix_app_r.
  - exists d1. split; trivial. now apply Prefix_app_r.
Qed.

(** A step that calls nothing, then the rest. *)
Lemma invokes_then {A B} (m : M A) (k : A -> M B) cs (R : B -> Prop) :
  invokes m [] (fun _ => True) -> (forall a, invokes (k a) cs R) ->
  invokes (bind m k) cs R.
Proof.
  intros Hm Hk. apply (@invokes_bind _ _ m k [] cs (fun _ => True) R); auto.
Qed.

Ltac quiet_steps :=
  repeat first
    [ apply invokes_then; [first [apply invokes_log | apply invokes_write] | intros _]
    | apply invokes_log | apply invokes_write | apply invokes_fail_with ].

Section Phases.

Variable data : RunPayload.
Variable co : Collaborators.

Lemma invokes_resolve_keys :
  invokes (resolve_keys data co)
    (if needsKeys data
     then [call_resolveSupabaseApiKeys (ref data co) (tok data)] else [])
    (fun keys => keys = resolvedKeys data co
                 /\ keys_source data co (fst keys) (snd keys)).
Proof.
  unfold resolve_keys, resolvedKeys, keys_source.
  apply invokes_then; [apply invokes_log | intros _].
  destruct (needsKeys data).
  - refine (invokes_eq (@invokes_bind _ _ _ _ _ [] _ _ (invokes_await _ _) _)
              (app_nil_r _)).
    intros keys ->. destruct keys as [pk sk | ]; [ | apply invokes_fail_with].
    apply invokes_then; [apply invokes_log | intros _].
    apply invokes_post with (1 := invokes_ret _). now intros a ->.
  - apply invokes_post with (1 := invokes_ret _). now intros a ->.
Qed.

Lemma invokes_new_URL s : invokes (new_URL co s) [] (fun _ => True).
Proof.
  unfold new_URL. destruct (URL_parses co s); [ | apply invokes_throw].
  apply invokes_post with (1 := invokes_ret tt). trivial.
Qed.

Lemma invokes_resolve_db :
  invokes (resolve_db data co)
    (if needsDb data
     then [call_resolveSupabaseDbUrlViaCliLoginRole (ref data co) (tok data)] else [])
    (fun u => u = resolvedDbUrl data co /\ db_source data co u).
Proof.
  unfold resolve_db, resolvedDbUrl, db_source.
  apply invokes_then; [apply invokes_log | intros _].
  destruct (needsDb data).
  - refine (invokes_eq (@invokes_bind _ _ _ _ _ [] _ _ (invokes_await _ _) _)
              (app_nil_r _)).
    intros db ->. destruct db as [u | ]; [ | apply invokes_fail_with].
    apply invokes_then; [apply invokes_new_URL | intros _].
    apply invokes_then; [apply invokes_log | intros _].
    apply invokes_post with (1 := invokes_ret _). now intros a ->.
  - apply invokes_post with (1 := invokes_ret _). now intros a ->.
Qed.

Lemma invokes_phase_coordinates :
  invokes (phase_coordinates data co) (calls_coordinates data co)
    (fun r => r = (fst (resolvedKeys data co), snd (resolvedKeys data co),
                   resolvedDbUrl data co)).
Proof.
  unfold phase_coordinates, calls_coordinates. quiet_steps.
  apply invokes_bind with (1 := invokes_resolve_keys). intros keys [-> _].
  quiet_steps.
  apply invokes_bind with (1 := invokes_resolve_db). intros u [-> _].
  quiet_steps.
  refine (invokes_eq (@invokes_bind _ _ _ _ _ [] _ _ (invokes_await _ _) _)
            (app_nil_r _)).
  intros [] _. quiet_steps. apply invokes_ret.
Qed.

Lemma invokes_phase_signal :
  invokes (phase_signal data co) (calls_signal data co) (fun _ => True).
Proof.
  unfold phase_signal, calls_signal. quiet_steps.
  destruct (negb (includes (skipped data) wait_project)); cbn [andb];
    [ | apply invokes_log].
  quiet_steps.
  refine (invokes_eq (@invokes_bind _ _ _ _ _ [] (fun _ => True) _ _ _)
            (app_nil_r _)); [ | intros _ _; apply invokes_write].
  fold (ref data co) (tok data).
  destruct (truthy (tok data) && truthy (ref data co)).
  - refine (invokes_eq (@invokes_bind _ _ _ _ _ [] _ _ (invokes_await _ _) _)
              (app_nil_r _)).
    intros ready _. destruct (negb ready); [apply invokes_fail_with | ].
    apply invokes_post with (1 := invokes_ret tt). trivial.
  - apply invokes_post with (1 := invokes_ret tt). trivial.
Qed.

Lemma invokes_phase_station :
  invokes (phase_station data co (resolvedDbUrl data co)) (calls_station data co)
    (fun _ => True).
Proof.
  unfold phase_station, calls_station. quiet_steps.
  destruct (negb (includes (skipped data) migrations)); [ | apply invokes_log].
  quiet_steps.
  refine (invokes_eq (@invokes_bind _ _ _ _ _ [] _ _ (invokes_await _ _) _)
            (app_nil_r _)).
  intros [] _. quiet_steps.
Qed.

Lemma invokes_phase_comms hasLocal :
  invokes (phase_comms data co hasLocal (fst (resolvedKeys data co))
             (snd (resolvedKeys data co)))
    (calls_comms data co hasLocal) (fun _ => True).
Proof.
  unfold phase_comms, calls_comms. quiet_steps.
  refine (invokes_eq (@invokes_bind _ _ _ _ _ [] (fun _ => True) _ _ _)
            (app_nil_r _)); [ | intros _ _; apply invokes_write].
  destruct (deployEdgeFunctions (supabase data) && hasLocal).
  - quiet_steps.
    apply (@invokes_bind _ _ _ _ [_] [_] _ _ (invokes_await _ _)).
    intros secrets _. destruct (negb secrets); [apply invokes_fail_with | ].
    quiet_steps. apply invokes_post with (1 := invokes_await _ _). trivial.
  - apply invokes_post with (1 := invokes_ret tt). trivial.
Qed.

Lemma invokes_phase_contact :
  invokes (phase_contact data co (snd (resolvedKeys data co)))
    (calls_contact data co) (fun _ => True).
Proof.
  unfold phase_contact, calls_contact. quiet_steps.
  destruct (negb (includes (skipped data) bootstrap)); [ | apply invokes_log].
  quiet_steps.
  refine (invokes_eq (@invokes_bind _ _ _ _ _ [] _ _ (invokes_await _ _) _)
            (app_nil_r _)).
  intros ok _.
  apply invokes_then; [ | intros _; apply invokes_write].
  destruct (negb ok); [apply invokes_fail_with | ].
  apply invokes_post with (1 := invokes_ret tt). trivial.
Qed.

(** The [try] around the redeploy makes the call and ends normally. *)
Lemma invokes_swallow l c (o : Outcome unit) :
  invokes (try_catch (bind (log l) (fun _ => await c o)) (fun _ => ret tt))
    [c] (fun _ => True).
Proof.
  intros w. exists [c]. unfold try_catch, bind, log, await, ret.
  destruct o as [[] | e]; cbn; rewrite !calls_app; cbn;
    rewrite app_nil_r; auto.
Qed.

Lemma invokes_phase_landing :
  invokes (phase_landing data co) (calls_landing data) (fun _ => True).
Proof.
  unfold phase_landing, calls_landing, sendPhase, sendEvent. quiet_steps.
  refine (invokes_eq (@invokes_bind _ _ _ _ _ [] _ _ (invokes_swallow _ _ _) _)
            (app_nil_r _)).
  intros _ _. apply invokes_write.
Qed.

Lemma invokes_phase_complete : invokes phase_complete [] (fun _ => True).
Proof. unfold phase_complete, sendPhase, sendEvent. quiet_steps. Qed.

Lemma invokes_phases hasLocal :
  invokes (phases data co hasLocal) (calls_phases data co hasLocal) (fun _ => True).
Proof.
  unfold phases, calls_phases.
  apply invokes_bind with (1 := invokes_phase_coordinates). intros r ->.
  apply invokes_bind with (1 := invokes_phase_signal). intros _ _.
  apply invokes_bind with (1 := invokes_phase_station). intros _ _.
  apply invokes_bind with (1 := invokes_phase_comms hasLocal). intros _ _.
  apply invokes_bind with (1 := invokes_phase_contact). intros _ _.
  refine (invokes_eq (@invokes_bind _ _ _ _ _ [] (fun _ => True) _
                        invokes_phase_landing _) (app_nil_r _)).
  intros _ _. apply invokes_phase_complete.
Qed.

Lemma calls_comms_found l :
  listed data co l ->
  calls_comms data co (hasLocalEdgeFunctions l) = calls_comms data co (found_local data co).
Proof.
  unfold listed, calls_comms, found_local.
  destruct (deployEdgeFunctions (supabase data)); [intros -> | intros ->]; reflexivity.
Qed.

(** From the phases to the [try] block. *)
Lemma invokes_lift cs (R : unit -> Prop) :
  (forall l, listed data co l -> invokes (phases data co (hasLocalEdgeFunctions l)) cs R) ->
  invokes (try_block data co)
    ((if deployEdgeFunctions (supabase data) then [call_listEdgeFunctionSlugs] else [])
     ++ cs) R.
Proof.
  intros H. unfold try_block.
  assert (Hk : forall l, listed data co l ->
            invokes (if needsManagementApi data (hasLocalEdgeFunctions l)
                        && (negb (truthy (resolvedAccessToken data))
                            || negb (truthy (resolvedProjectRef data co)))
                     then fail_with (if negb (truthy (resolvedAccessToken data))
                                     then msg_no_access_token else msg_no_project_ref)
                     else phases data co (hasLocalEdgeFunctions l)) cs R).
  { intros l Hl. destruct (_ && _); [apply invokes_fail_with | now apply H]. }
  unfold listed in Hk. destruct (deployEdgeFunctions (supabase data)).
  - apply (@invokes_bind _ _ _ _ [_] _ _ _ (invokes_await _ _)). exact Hk.
  - apply (@invokes_bind _ _ _ _ [] _ _ _ (invokes_ret _)). exact Hk.
Qed.

Lemma invokes_try_block :
  invokes (try_block data co) (expected_calls data co) (fun _ => True).
Proof.
  unfold expected_calls. apply invokes_lift. intros l Hl.
  unfold calls_phases. rewrite <- (calls_comms_found l Hl). apply invokes_phases.
Qed.

(** A block that does not end normally stops what follows. *)
Lemma invokes_stop {A B} (m : M A) (k : A -> M B) cs (R : B -> Prop) :
  invokes m cs (fun _ => False) -> invokes (bind m k) cs R.
Proof.
  intros H. refine (invokes_eq (@invokes_bind _ _ _ _ _ [] _ _ H _) (app_nil_r _)).
  intros a [].
Qed.

(** The calls of a run from those of its [try] block. *)
Lemma calls_of_run_within cs (R : unit -> Prop) :
  invokes (try_block data co) cs R ->
  Prefix (calls (trace (snd (run data co)))) cs.
Proof.
  intros H. rewrite (calls_of_run data co).
  destruct (H (try_world data co)) as (d & Hd & Hc).
  rewrite calls_initial in Hd. cbn [app] in Hd. rewrite Hd.
  destruct (fst (try_block data co (try_world data co))); trivial.
  destruct Hc as [-> _]. apply Prefix_refl.
Qed.

(** Without keys, the run ends with the key resolver. *)
Lemma keys_stop :
  ~ keys_source data co (fst (resolvedKeys data co)) (snd (resolvedKeys data co)) ->
  Prefix (calls (trace (snd (run data co))))
    ((if deployEdgeFunctions (supabase data) then [call_listEdgeFunctionSlugs] else [])
     ++ (if needsKeys data
         then [call_resolveSupabaseApiKeys (ref data co) (tok data)] else [])).
Proof.
  intros Hno. apply calls_of_run_within with (R := fun _ => True).
  apply invokes_lift. intros l _. unfold phases. apply invokes_stop.
  unfold phase_coordinates. quiet_steps. apply invokes_stop.
  apply invokes_post with (1 := invokes_resolve_keys). now intros keys [-> Hk].
Qed.

(** Without a DB connection string, the run ends with the DB resolver. *)
Lemma db_stop :
  ~ db_source data co (resolvedDbUrl data co) ->
  Prefix (calls (trace (snd (run data co))))
    ((if deployEdgeFunctions (supabase data) then [call_listEdgeFunctionSlugs] else [])
     ++ (if needsKeys data
         then [call_resolveSupabaseApiKeys (ref data co) (tok data)] else [])
     ++ (if needsDb data
         then [call_resolveSupabaseDbUrlViaCliLoginRole (ref data co) (tok data)]
         else [])).
Proof.
  intros Hno. apply calls_of_run_within with (R := fun _ => True).
  apply invokes_lift. intros l _. unfold phases. apply invokes_stop.
  unfold phase_coordinates. quiet_steps.
  apply invokes_bind with (1 := invokes_resolve_keys). intros keys _.
  quiet_steps. apply invokes_stop.
  apply invokes_post with (1 := invokes_resolve_db). now intros u [-> Hk].
Qed.

Lemma keys_source_dec :
  keys_source data co (fst (resolvedKeys data co)) (snd (resolvedKeys data co))
  \/ ~ keys_source data co (fst (resolvedKeys data co)) (snd (resolvedKeys data co)).
Proof.
  unfold keys_source, resolvedKeys. destruct (needsKeys data); [ | now left].
  destruct (resolveSupabaseApiKeys co) as [[pk sk | ] | e];
    [now left | right; discriminate | right; discriminate].
Qed.

Lemma db_source_dec :
  db_source data co (resolvedDbUrl data co)
  \/ ~ db_source data co (resolvedDbUrl data co).
Proof.
  unfold db_source, resolvedDbUrl. destruct (needsDb data); [ | now left].
  destruct (resolveSupabaseDbUrlViaCliLoginRole co) as [[u | ] | e];
    [now left | right; discriminate | right; discriminate].
Qed.

(** A call that uses the keys or the DB connection string is made only
    once they have been supplied or derived. *)
Lemma late_call_has_secrets c :
  In c (calls (trace (snd (run data co)))) -> 3 <= call_rank c ->
  keys_source data co (fst (resolvedKeys data co)) (snd (resolvedKeys data co))
  /\ db_source data co (resolvedDbUrl data co).
Proof.
  intros Hin Hlate. split.
  - destruct keys_source_dec as [H | H]; trivial. exfalso.
    apply keys_stop in H. apply (@Prefix_In _ _ _ c H) in Hin.
    destruct (deployEdgeFunctions (supabase data)), (needsKeys data);
      cbn in Hin; decompose [or] Hin; subst; cbn in Hlate; lia.
  - destruct db_source_dec as [H | H]; trivial. exfalso.
    apply db_stop in H. apply (@Prefix_In _ _ _ c H) in Hin.
    destruct (deployEdgeFunctions (supabase data)), (needsKeys data), (needsDb data);
      cbn in Hin; decompose [or] Hin; subst; cbn in Hlate; lia.
Qed.

(** The calls of a run are an initial part of the expected ones, and all
    of them when the [try] block ends normally. *)
Lemma calls_of_run_expected :
  Prefix (calls (trace (snd (run data co)))) (expected_calls data co)
  /\ (fst (try_block data co (try_world data co)) = Normal tt ->
      calls (trace (snd (run data co))) = expected_calls data co).
Proof.
  rewrite (calls_of_run data co).
  destruct (invokes_try_block (try_world data co)) as (d & Hd & Hc).
  rewrite calls_initial in Hd. cbn [app] in Hd. rewrite Hd. split.
  - destruct (fst (try_block data co (try_world data co))); trivial.
    destruct Hc as [-> _]. apply Prefix_refl.
  - intros Hn. rewrite Hn in Hc. tauto.
Qed.

Lemma expected_calls_sorted :
  StronglySorted lt (map call_rank (expected_calls data co)).
Proof.
  unfold expected_calls, calls_phases, calls_coordinates, calls_signal,
    calls_station, calls_comms, calls_contact, calls_landing.
  destruct (deployEdgeFunctions (supabase data)), (found_local data co),
    (needsKeys data), (needsDb data),
    (negb (includes (skipped data) wait_project)),
    (truthy (tok data) && truthy (ref data co)),
    (negb (includes (skipped data) migrations)),
    (negb (includes (skipped data) bootstrap));
    cbn; repeat (constructor; [ | repeat constructor; lia]); constructor.
Qed.

(** The redeploy is the last of the expected calls. *)
Lemma expected_calls_end :
  exists front,
    expected_calls data co = front ++ calls_landing data
    /\ Forall (fun c => is_redeploy c = false) front.
Proof.
  exists ((if deployEdgeFunctions (supabase data) then [call_listEdgeFunctionSlugs]
           else [])
          ++ calls_coordinates data co ++ calls_signal data co
          ++ calls_station data co ++ calls_comms data co (found_local data co)
          ++ calls_contact data co).
  split.
  - unfold expected_calls, calls_phases. now rewrite <- !app_assoc.
  - unfold calls_coordinates, calls_signal, calls_station, calls_comms,
      calls_contact.
    repeat (apply Forall_app; split);
      repeat match goal with
             | |- Forall _ (if ?b then _ else _) => destruct b
             end; repeat constructor.
Qed.

End Phases.

(** X7: the collaborators are called in the order of the pipeline, each
    at most once in a run: the listing of the local bundles, the key
    resolver, the DB resolver, the Vercel variables, the readiness wait,
    the migration, the function secrets, the function upload, the
    bootstrap, the redeploy. *)
Theorem collaborators_called_in_pipeline_order data co :
  StronglySorted lt (map call_rank (calls (trace (snd (run data co))))).
Proof.
  destruct (calls_of_run_expected data co) as [[q Hq] _].
  pose proof (expected_calls_sorted data co) as H.
  rewrite Hq, map_app in H. now apply StronglySorted_app_l in H.
Qed.

(** X8: the calls of a run are an initial part of the calls of the
    pipeline with their arguments ([expected_calls]), and exactly these when
    the run gets as far as requesting the redeploy. *)
Theorem calls_follow_the_pipeline data co :
  Prefix (calls (trace (snd (run data co)))) (expected_calls data co)
  /\ (Exists (fun c => is_redeploy c = true) (calls (trace (snd (run data co)))) ->
      calls (trace (snd (run data co))) = expected_calls data co).
Proof.
  destruct (calls_of_run_expected data co) as [Hp _]. split; trivial.
  intros Hex. destruct Hp as [q Hq].
  destruct (expected_calls_end data co) as (front & Hfront & Hnone).
  rewrite Hfront in Hq.
  assert (Hin : In (call_triggerProjectRedeploy (token (vercel data))
                      (projectId (vercel data)) (or_undefined (teamId (vercel data))))
                   (calls (trace (snd (run data co))))).
  { apply Exists_exists in Hex. destruct Hex as (x & Hx & Hr).
    assert (Hx' : In x (front ++ calls_landing data))
      by (rewrite Hq; apply in_or_app; now left).
    apply in_app_or in Hx'. destruct Hx' as [Hx' | [<- | []]]; trivial.
    rewrite Forall_forall in Hnone. specialize (Hnone x Hx'). congruence. }
  assert (Hnot : ~ In (call_triggerProjectRedeploy (token (vercel data))
                         (projectId (vercel data))
                         (or_undefined (teamId (vercel data)))) front).
  { intros H. rewrite Forall_forall in Hnone. specialize (Hnone _ H).
    discriminate. }
  symmetry in Hq.
  pose proof (@prefix_reaching_end _ _ _ _ _ Hq Hin Hnot) as ->.
  rewrite app_nil_r in Hq. now rewrite Hq, Hfront.
Qed.

(** X9: the keys written to the deployment variables, set as function
    secrets and used by the bootstrap are both the supplied ones when the
    request supplies both, and both the resolver's as soon as one is
    missing (a supplied one is then discarded); the migration runs on the
    supplied DB connection string, or on the resolver's when none is
    supplied. *)
Theorem secrets_come_from_one_source data co c :
  In c (calls (trace (snd (run data co)))) ->
  match c with
  | call_upsertProjectEnvs _ _ envs _ _ =>
      exists a s, keys_source data co a s
                  /\ envs = [ (str "NEXT_PUBLIC_SUPABASE_URL", url (supabase data));
                              (str "NEXT_PUBLIC_SUPABASE_ANON_KEY", a);
                              (str "SUPABASE_SERVICE_ROLE_KEY", s);
                              (str "INSTALLER_ENABLED", str "false") ]
  | call_runSchemaMigration u => db_source data co u
  | call_setSupabaseEdgeFunctionSecrets _ _ _ a s => keys_source data co a s
  | call_bootstrapInstance _ s _ _ _ => exists a, keys_source data co a s
  | _ => True
  end.
Proof.
  intros Hin. pose proof (late_call_has_secrets data co c Hin) as Hfine.
  destruct (calls_of_run_expected data co) as [Hp _].
  apply (@Prefix_In _ _ _ c Hp) in Hin. clear Hp.
  unfold expected_calls, calls_phases, calls_coordinates, calls_signal,
    calls_station, calls_comms, calls_contact, calls_landing in Hin.
  rewrite !in_app_iff in Hin.
  repeat match type of Hin with _ \/ _ => destruct Hin as [Hin | Hin] end;
    repeat match type of Hin with
           | In _ (if ?b then _ else _) => destruct b
           end;
    cbn [In] in Hin; decompose [or] Hin; try contradiction; subst c; trivial;
    destruct Hfine as [Hk Hd]; cbn; try lia; eauto.
Qed.

Lemma secrets_come_from_one_source_witness :
  exists a s,
    keys_source anon_key_only Examples.with_bundle a s
    /\ [ (str "NEXT_PUBLIC_SUPABASE_URL", str "https://abcd.supabase.co");
         (str "NEXT_PUBLIC_SUPABASE_ANON_KEY", str "pk");
         (str "SUPABASE_SERVICE_ROLE_KEY", str "sk");
         (str "INSTALLER_ENABLED", str "false") ]
       = [ (str "NEXT_PUBLIC_SUPABASE_URL", url (supabase anon_key_only));
           (str "NEXT_PUBLIC_SUPABASE_ANON_KEY", a);
           (str "SUPABASE_SERVICE_ROLE_KEY", s);
           (str "INSTALLER_ENABLED", str "false") ].
Proof.
  apply (@secrets_come_from_one_source anon_key_only Examples.with_bundle
           (call_upsertProjectEnvs (str "vtok") (str "prj_1")
              [ (str "NEXT_PUBLIC_SUPABASE_URL", str "https://abcd.supabase.co");
                (str "NEXT_PUBLIC_SUPABASE_ANON_KEY", str "pk");
                (str "SUPABASE_SERVICE_ROLE_KEY", str "sk");
                (str "INSTALLER_ENABLED", str "false") ]
              [production] None)).
  vm_compute. repeat first [left; reflexivity | right].
Defined.

End PipelineFacts.

(* ================================================================== *)
(** * Facts about the way a run ends *)

Module ErrorFacts.

Import RunStream Pipeline RunStreamFacts.
Local Open Scope run_scope.

(** ** Where the error events come from *)

Lemma handled_phase_event p n b : handled_error_only (Write (phaseEvent p n) b).
Proof. discriminate. Qed.

Lemma handled_complete_event b : handled_error_only (Write completeEvent b).
Proof. discriminate. Qed.

Lemma handled_message m b :
  In m handled_messages -> handled_error_only (Write (errorEvent m) b).
Proof. intros H _. now exists m. Qed.

Ltac handled :=
  footprint_walk;
  try match goal with
      | |- handled_error_only (Log _) => exact I
      | |- handled_error_only (Called _) => exact I
      | |- handled_error_only (Close _) => exact I
      | |- handled_error_only (Write (phaseEvent _ _) _) => apply handled_phase_event
      | |- handled_error_only (Write completeEvent _) => apply handled_complete_event
      | |- handled_error_only (Write (errorEvent _) _) =>
          apply handled_message; unfold handled_messages; cbn [In]; tauto
      end.

Section Sources.

Variable data : RunPayload.
Variable co : Collaborators.

Lemma footprint_try_block_handled : footprint handled_error_only (try_block data co).
Proof.
  unfold try_block. handled.
  - destruct (negb (truthy (resolvedAccessToken data))); handled.
  - unfold phase_comms. handled.
  - unfold phase_contact. handled.
  - unfold phase_landing. handled.
Qed.

(** ** Blocks that do not end normally *)

Lemma aborts_fail_with {A} message : aborts (@fail_with A message).
Proof.
  intros [[] [ | [ | n] | ] r t]; cbn; rewrite ?calls_app; cbn; rewrite ?app_nil_r;
    (split; [reflexivity | discriminate]).
Qed.

Lemma aborts_throw {A} e : aborts (@throw A e).
Proof. intros w. split; [reflexivity | discriminate]. Qed.

Lemma aborts_bind {A B} (m : M A) (k : A -> M B) : aborts m -> aborts (bind m k).
Proof.
  intros H w. destruct (H w) as [Hq Hn]. unfold bind. unfold M in *.
  destruct (m w) as [[a | | e] w1]; cbn in *;
    [now destruct (Hn a) | | ]; (split; [trivial | discriminate]).
Qed.

(** ** How the [try] block ends *)

Lemma raises_bind {A B} (m : M A) (k : A -> M B) :
  triple writable m (raises data co) ->
  (forall a, triple writable (k a) (raises data co)) ->
  triple writable (bind m k) (raises data co).
Proof. intros Hm Hk. eapply triple_bind; eauto. Qed.

Lemma raises_ret {A} (a : A) : triple writable (ret a) (raises data co).
Proof. now intros w Hw. Qed.

Lemma raises_log l : triple writable (log l) (raises data co).
Proof. now intros w Hw. Qed.

Lemma raises_write e : triple writable (writer_write e) (raises data co).
Proof.
  intros [cl c r t] [Hcl Hc]. cbn in Hcl, Hc. subst cl. unfold writer_write.
  destruct c as [ | [ | n] | ]; [ | | | contradiction]; cbn.
  - split; [reflexivity | discriminate].
  - now right.
  - split; [reflexivity | discriminate].
Qed.

Lemma raises_fail_with {A} message :
  handled_cause data co -> triple writable (@fail_with A message) (raises data co).
Proof.
  intros H [cl c r t] [Hcl Hc]. cbn in Hcl, Hc. subst cl.
  unfold fail_with, bind, sendEvent, writer_write, writer_close, return_.
  destruct c as [ | [ | n] | ]; [ | | | contradiction]; cbn; trivial.
  now right.
Qed.

Lemma raises_await {A} c (o : Outcome A) :
  (forall e, o = Throws e -> thrown_by co e) ->
  triple writable (await c o) (raises data co).
Proof.
  intros H w Hw. unfold await. destruct o as [a | e]; cbn; [exact Hw | ].
  left. auto.
Qed.

(** A call whose result is checked. *)
Lemma raises_checked {A B} c (o : Outcome A) (k : A -> M B) :
  (forall e, o = Throws e -> thrown_by co e) ->
  (forall a, o = Returns a -> triple writable (k a) (raises data co)) ->
  triple writable (bind (await c o) k) (raises data co).
Proof.
  intros Ht Hk w Hw. unfold bind, await. destruct o as [a | e]; cbn [fst snd].
  - now apply Hk.
  - cbn. left. auto.
Qed.

Lemma raises_if {A} (b : bool) (m1 m2 : M A) :
  triple writable m1 (raises data co) -> triple writable m2 (raises data co) ->
  triple writable (if b then m1 else m2) (raises data co).
Proof. now destruct b. Qed.

Ltac raises_steps :=
  repeat first
    [ apply raises_log | apply raises_write | apply raises_ret
    | apply raises_bind;
      [first [apply raises_log | apply raises_write | apply raises_ret] | intros ? ] ].

Ltac blame := unfold thrown_by, handled_cause; tauto.

Lemma raises_resolve_keys : triple writable (resolve_keys data co) (raises data co).
Proof.
  unfold resolve_keys. raises_steps. apply raises_if; [ | apply raises_ret].
  apply raises_checked; [intros e He; blame | intros keys Hk].
  destruct keys as [pk sk | ]; [raises_steps | apply raises_fail_with; blame].
Qed.

Lemma raises_resolve_db : triple writable (resolve_db data co) (raises data co).
Proof.
  unfold resolve_db. raises_steps. apply raises_if; [ | apply raises_ret].
  apply raises_checked; [intros e He; blame | intros db Hdb].
  destruct db as [u | ]; [ | apply raises_fail_with; blame].
  unfold new_URL.
  destruct (URL_parses co (replace (str "postgresql://") (str "http://") u)) eqn:Hu.
  - raises_steps.
  - intros w Hw. cbn. left. do 3 right. left. now exists u.
Qed.

Lemma raises_phase_coordinates :
  triple writable (phase_coordinates data co) (raises data co).
Proof.
  unfold phase_coordinates. raises_steps.
  apply raises_bind; [apply raises_resolve_keys | intros keys]. raises_steps.
  apply raises_bind; [apply raises_resolve_db | intros u]. raises_steps.
  apply raises_bind; [apply raises_await; intros e He; blame | intros _].
  raises_steps.
Qed.

Lemma raises_phase_signal : triple writable (phase_signal data co) (raises data co).
Proof.
  unfold phase_signal. raises_steps. apply raises_if; [ | apply raises_log].
  raises_steps. apply raises_bind; [ | intros _; apply raises_write].
  apply raises_if; [ | apply raises_ret].
  apply raises_checked; [intros e He; blame | intros ready Hr].
  destruct ready; cbn [negb]; [apply raises_ret | apply raises_fail_with; blame].
Qed.

Lemma raises_phase_station u :
  triple writable (phase_station data co u) (raises data co).
Proof.
  unfold phase_station. raises_steps. apply raises_if; [ | apply raises_log].
  raises_steps.
  apply raises_bind; [apply raises_await; intros e He; blame | intros _].
  raises_steps.
Qed.

Lemma raises_phase_comms hasLocal a s :
  triple writable (phase_comms data co hasLocal a s) (raises data co).
Proof.
  unfold phase_comms. raises_steps. apply raises_bind; [ | intros _; apply raises_write].
  apply raises_if; [ | apply raises_ret]. raises_steps.
  apply raises_checked; [intros e He; blame | intros secrets Hs].
  destruct secrets; cbn [negb]; [ | apply raises_fail_with; blame].
  raises_steps. apply raises_await. intros e He. blame.
Qed.

Lemma raises_phase_contact s :
  triple writable (phase_contact data co s) (raises data co).
Proof.
  unfold phase_contact. raises_steps. apply raises_if; [ | apply raises_log].
  raises_steps.
  apply raises_checked; [intros e He; blame | intros ok Hok].
  apply raises_bind; [ | intros _; apply raises_write].
  destruct ok; cbn [negb]; [apply raises_ret | apply raises_fail_with; blame].
Qed.

Lemma raises_phase_landing : triple writable (phase_landing data co) (raises data co).
Proof.
  intros [cl c r t] [Hcl Hc]. cbn in Hcl, Hc. subst cl.
  unfold phase_landing, bind, try_catch, log, sendPhase, sendEvent, writer_write, await.
  destruct c as [ | [ | [ | n]] | ]; [ | | | | contradiction];
    cbn; destruct (triggerProjectRedeploy co); cbn;
    first [now right | split; [reflexivity | discriminate]].
Qed.

Lemma raises_phase_complete : triple writable phase_complete (raises data co).
Proof. unfold phase_complete, sendPhase, sendEvent. raises_steps. Qed.

Lemma needsManagementApi_found l :
  listed data co l ->
  needsManagementApi data (hasLocalEdgeFunctions l)
  = needsManagementApi data (found_local data co).
Proof.
  unfold listed, needsManagementApi, found_local.
  destruct (deployEdgeFunctions (supabase data)); [intros -> | intros ->]; reflexivity.
Qed.

Lemma raises_try_block : triple writable (try_block data co) (raises data co).
Proof.
  unfold try_block.
  assert (Hk : forall l, listed data co l ->
            triple writable
              (if needsManagementApi data (hasLocalEdgeFunctions l)
                  && (negb (truthy (resolvedAccessToken data))
                      || negb (truthy (resolvedProjectRef data co)))
               then fail_with (if negb (truthy (resolvedAccessToken data))
                               then msg_no_access_token else msg_no_project_ref)
               else phases data co (hasLocalEdgeFunctions l)) (raises data co)).
  { intros l Hl. rewrite (needsManagementApi_found l Hl).
    fold (credentials_missing data co).
    destruct (credentials_missing data co) eqn:Hc.
    - apply raises_fail_with. now left.
    - unfold phases.
      apply raises_bind; [apply raises_phase_coordinates | intros [[a s] u]].
      apply raises_bind; [apply raises_phase_signal | intros _].
      apply raises_bind; [apply raises_phase_station | intros _].
      apply raises_bind; [apply raises_phase_comms | intros _].
      apply raises_bind; [apply raises_phase_contact | intros _].
      apply raises_bind; [apply raises_phase_landing | intros _].
      apply raises_phase_complete. }
  unfold listed in Hk. destruct (deployEdgeFunctions (supabase data)).
  - apply raises_checked; [intros e He; blame | exact Hk].
  - intros w Hw. exact (Hk [] eq_refl w Hw).
Qed.

(** ** How the [try] block ends for a client that stays *)

Lemma blames_bind {A B} (m : M A) (k : A -> M B) :
  triple staying m (blames co) ->
  (forall a, triple staying (k a) (blames co)) ->
  triple staying (bind m k) (blames co).
Proof. intros Hm Hk. eapply triple_bind; eauto. Qed.

Lemma blames_ret {A} (a : A) : triple staying (ret a) (blames co).
Proof. now intros w Hw. Qed.

Lemma blames_log l : triple staying (log l) (blames co).
Proof. now intros w Hw. Qed.

Lemma blames_write e : triple staying (writer_write e) (blames co).
Proof.
  intros [cl c r t] [Hcl Hc]. cbn in Hcl, Hc. subst cl c. now split.
Qed.

Lemma blames_await {A} c (o : Outcome A) :
  fails co c = throws o -> triple staying (await c o) (blames co).
Proof.
  intros H w Hw. unfold await. destruct o as [a | e]; cbn; [exact Hw | ].
  rewrite calls_app. apply Exists_app. right. now constructor.
Qed.

(** A call whose result is checked: what follows goes on after a good
    result and aborts after a bad one. *)
Lemma blames_checked {A B} c (o : Outcome A) (k : A -> M B) :
  (forall e, o = Throws e -> fails co c = true) ->
  (forall a, o = Returns a ->
             if fails co c then aborts (k a) else triple staying (k a) (blames co)) ->
  triple staying (bind (await c o) k) (blames co).
Proof.
  intros Ht Hk w Hw. unfold bind, await. destruct o as [a | e]; cbn [fst snd].
  - specialize (Hk a eq_refl). destruct (fails co c) eqn:Hc.
    + destruct (Hk (record (Called c) w)) as [Hq Hn].
      assert (Hex : Exists (fun c => fails co c = true)
                      (calls (trace (snd (k a (record (Called c) w)))))).
      { rewrite Hq. cbn [record trace]. rewrite calls_app. apply Exists_app.
        right. now constructor. }
      unfold M in *. destruct (k a (record (Called c) w)) as [[b | | e] w1];
        cbn [fst snd] in *; [now destruct (Hn b) | exact Hex | exact Hex].
    + now apply Hk.
  - cbn. rewrite calls_app. apply Exists_app. right. constructor. eauto.
Qed.

Lemma blames_if {A} (b : bool) (m1 m2 : M A) :
  triple staying m1 (blames co) -> triple staying m2 (blames co) ->
  triple staying (if b then m1 else m2) (blames co).
Proof. now destruct b. Qed.

Ltac blames_steps :=
  repeat first
    [ apply blames_log | apply blames_write | apply blames_ret
    | apply blames_bind;
      [first [apply blames_log | apply blames_write | apply blames_ret] | intros ? ] ].

Lemma blames_resolve_keys : triple staying (resolve_keys data co) (blames co).
Proof.
  unfold resolve_keys. blames_steps. apply blames_if; [ | apply blames_ret].
  apply blames_checked; [intros e He; cbn [fails]; now rewrite He | intros keys Hk].
  cbn [fails]. rewrite Hk.
  destruct keys as [pk sk | ]; [blames_steps | apply aborts_fail_with].
Qed.

Lemma blames_resolve_db : triple staying (resolve_db data co) (blames co).
Proof.
  unfold resolve_db. blames_steps. apply blames_if; [ | apply blames_ret].
  apply blames_checked; [intros e He; cbn [fails]; now rewrite He | intros db Hdb].
  cbn [fails]. rewrite Hdb.
  destruct db as [u | ]; [ | apply aborts_fail_with].
  unfold new_URL. destruct (URL_parses co _); cbn [negb].
  - blames_steps.
  - apply aborts_bind, aborts_throw.
Qed.

Lemma blames_phase_coordinates :
  triple staying (phase_coordinates data co) (blames co).
Proof.
  unfold phase_coordinates. blames_steps.
  apply blames_bind; [apply blames_resolve_keys | intros keys]. blames_steps.
  apply blames_bind; [apply blames_resolve_db | intros u]. blames_steps.
  apply blames_bind; [now apply blames_await | intros _]. blames_steps.
Qed.

Lemma blames_phase_signal : triple staying (phase_signal data co) (blames co).
Proof.
  unfold phase_signal. blames_steps. apply blames_if; [ | apply blames_log].
  blames_steps. apply blames_bind; [ | intros _; apply blames_write].
  apply blames_if; [ | apply blames_ret].
  apply blames_checked; [intros e He; cbn [fails]; now rewrite He | intros ready Hr].
  cbn [fails]. rewrite Hr.
  destruct ready; cbn; [apply blames_ret | apply aborts_fail_with].
Qed.

Lemma blames_phase_station u : triple staying (phase_station data co u) (blames co).
Proof.
  unfold phase_station. blames_steps. apply blames_if; [ | apply blames_log].
  blames_steps. apply blames_bind; [now apply blames_await | intros _].
  blames_steps.
Qed.

Lemma blames_phase_comms hasLocal a s :
  triple staying (phase_comms data co hasLocal a s) (blames co).
Proof.
  unfold phase_comms. blames_steps.
  apply blames_bind; [ | intros _; apply blames_write].
  apply blames_if; [ | apply blames_ret]. blames_steps.
  apply blames_checked; [intros e He; cbn [fails]; now rewrite He | intros secrets Hs].
  cbn [fails]. rewrite Hs.
  destruct secrets; cbn; [ | apply aborts_fail_with].
  blames_steps. now apply blames_await.
Qed.

Lemma blames_phase_contact s : triple staying (phase_contact data co s) (blames co).
Proof.
  unfold phase_contact. blames_steps. apply blames_if; [ | apply blames_log].
  blames_steps.
  apply blames_checked; [intros e He; cbn [fails]; now rewrite He | intros ok Hok].
  cbn [fails]. rewrite Hok.
  destruct ok; cbn;
    [blames_steps | apply aborts_bind, aborts_fail_with].
Qed.

Lemma blames_phase_landing : triple staying (phase_landing data co) (blames co).
Proof.
  intros [cl c r t] [Hcl Hc]. cbn in Hcl, Hc. subst cl c.
  unfold phase_landing, bind, try_catch, log, sendPhase, sendEvent, writer_write, await.
  cbn. destruct (triggerProjectRedeploy co); cbn; now split.
Qed.

Lemma blames_phase_complete : triple staying phase_complete (blames co).
Proof. unfold phase_complete, sendPhase, sendEvent. blames_steps. Qed.

Lemma blames_try_block :
  credentials_missing data co = false ->
  triple staying (try_block data co) (blames co).
Proof.
  intros Hcred. unfold try_block.
  assert (Hk : forall l, listed data co l ->
            triple staying
              (if needsManagementApi data (hasLocalEdgeFunctions l)
                  && (negb (truthy (resolvedAccessToken data))
                      || negb (truthy (resolvedProjectRef data co)))
               then fail_with (if negb (truthy (resolvedAccessToken data))
                               then msg_no_access_token else msg_no_project_ref)
               else phases data co (hasLocalEdgeFunctions l)) (blames co)).
  { intros l Hl. rewrite (needsManagementApi_found l Hl).
    fold (credentials_missing data co). rewrite Hcred. unfold phases.
    apply blames_bind; [apply blames_phase_coordinates | intros [[a s] u]].
    apply blames_bind; [apply blames_phase_signal | intros _].
    apply blames_bind; [apply blames_phase_station | intros _].
    apply blames_bind; [apply blames_phase_comms | intros _].
    apply blames_bind; [apply blames_phase_contact | intros _].
    apply blames_bind; [apply blames_phase_landing | intros _].
    apply blames_phase_complete. }
  unfold listed in Hk. destruct (deployEdgeFunctions (supabase data)).
  - apply blames_checked; [intros e He; cbn [fails]; now rewrite He | ].
    intros l Hl. cbn [fails]. rewrite Hl. cbn. now apply Hk.
  - intros w Hw. exact (Hk [] eq_refl w Hw).
Qed.

End Sources.

Lemma sent_handled d e :
  Forall handled_error_only d -> In e (sent d) -> is_error e = true ->
  exists m, e = errorEvent m /\ In m handled_messages.
Proof.
  unfold sent. induction 1 as [ | a d Ha Hd IH]; cbn; [contradiction | ].
  rewrite in_app_iff. intros [Hin | Hin] He; [ | now apply IH].
  destruct a as [l | e' [] | b | c]; cbn in Hin; try contradiction.
  destruct Hin as [<- | []]. now apply Ha.
Qed.

(** The [try] block of a run ends normally when the client stays and
    none of the calls of the pipeline fails. *)
Lemma try_block_completes data co :
  credentials_missing data co = false ->
  Forall (fun c => fails co c = false) (expected_calls data co) ->
  clientReads co = None ->
  fst (try_block data co (try_world data co)) = Normal tt.
Proof.
  intros Hcred Hgood Hstay.
  assert (Hw : staying (try_world data co)).
  { split; [reflexivity | ]. cbn. now rewrite Hstay. }
  pose proof (@blames_try_block data co Hcred (try_world data co) Hw) as Hb.
  destruct (PipelineFacts.invokes_try_block data co (try_world data co))
    as (d & Hd & Hp).
  assert (Hpre : fst (try_block data co (try_world data co)) <> Normal tt ->
                 Prefix (calls (trace (snd (try_block data co (try_world data co)))))
                   (expected_calls data co)).
  { intros Hne. rewrite Hd, calls_initial. cbn [app].
    destruct (fst (try_block data co (try_world data co))) as [[] | | e];
      [now destruct Hne | exact Hp | exact Hp]. }
  destruct (fst (try_block data co (try_world data co))) as [[] | | e] eqn:Hc;
    trivial; exfalso.
  all: destruct Hpre as [q Hq]; [discriminate | ].
  all: cbn in Hb; apply Exists_exists in Hb; destruct Hb as (x & Hin & Hx).
  all: rewrite Forall_forall in Hgood.
  all: assert (Hg : fails co x = false)
         by (apply Hgood; rewrite Hq; apply in_or_app; now left).
  all: congruence.
Qed.

(** X10: every error event of a run carries one of the seven messages of
    the handled failures, or the message of an exception thrown by a
    collaborator other than the redeploy or by [new URL] on the derived
    DB connection string (the generic message when the thrown value is
    not an [Error]). *)
Theorem error_events_have_a_source data co e :
  In e (sent (trace (snd (run data co)))) -> is_error e = true ->
  exists m, e = errorEvent m
            /\ (In m handled_messages
                \/ exists err, thrown_by co err /\ m = catch_message err).
Proof.
  intros Hin He. rewrite run_unfold in Hin. unfold try_catch_finally, try_catch in Hin.
  destruct (footprint_try_block_handled data co (try_world data co)) as (d & Hd & Hok).
  assert (Hw0 : writable (try_world data co)).
  { split; [reflexivity | ]. cbn. now destruct (clientReads co). }
  pose proof (@raises_try_block data co (try_world data co) Hw0) as Hr.
  pose proof (sent_initial data co) as H0.
  assert (Htry : In e (sent d) -> exists m, e = errorEvent m
            /\ (In m handled_messages
                \/ exists err, thrown_by co err /\ m = catch_message err)).
  { intros H. destruct (@sent_handled d e Hok H He) as (m & -> & Hm). eauto. }
  remember (try_world data co) as w0 eqn:Ew0. clear Ew0 Hw0.
  unfold M in *.
  destruct (try_block data co w0) as [[[] | | err] [cl c r t]];
    cbn [fst snd trace] in Hd, Hr; subst t.
  - unfold writer_close in Hin.
    destruct cl, c as [ | n | ]; cbn -[sent] in Hin;
      rewrite ?sent_app, ?H0 in Hin; cbn in Hin; rewrite ?app_nil_r in Hin; auto.
  - unfold writer_close in Hin.
    destruct cl, c as [ | n | ]; cbn -[sent] in Hin;
      rewrite ?sent_app, ?H0 in Hin; cbn in Hin; rewrite ?app_nil_r in Hin; auto.
  - unfold catch_block, sendEvent, writer_write, writer_close in Hin.
    destruct Hr as [Hr | Hr]; [ | cbn in Hr; subst c];
      destruct cl; try destruct c as [ | [ | n] | ]; cbn -[sent] in Hin;
      rewrite ?sent_app, ?H0 in Hin; cbn in Hin; rewrite ?app_nil_r in Hin; auto.
    all: apply in_app_iff in Hin; destruct Hin as [Hin | [<- | []]]; auto.
    all: eexists; (split; [reflexivity | right]); now exists err.
Qed.

Lemma error_events_have_a_source_witness :
  exists m, errorEvent (str "connect ECONNREFUSED 10.0.0.5:443") = errorEvent m
            /\ (In m handled_messages
                \/ exists err, thrown_by Examples.upsert_throws err
                               /\ m = catch_message err).
Proof.
  apply (@error_events_have_a_source (Examples.supplied false None)
           Examples.upsert_throws
           (errorEvent (str "connect ECONNREFUSED 10.0.0.5:443"))).
  - vm_compute. repeat first [left; reflexivity | right].
  - reflexivity.
Defined.

(** X11: when the credentials suffice, the client stays and none of
    the calls that the pipeline makes for this request fails (the
    redeploy may), the run ends normally: the client receives all the
    phase events of the run and the complete event, every call of the
    pipeline is made, and the writer is closed once. A collaborator that
    the pipeline does not call for this request may be one that would
    fail. *)
Theorem run_completes_when_nothing_fails data co :
  credentials_missing data co = false ->
  Forall (fun c => fails co c = false) (expected_calls data co) ->
  clientReads co = None ->
  fst (run data co) = Normal tt
  /\ sent (trace (snd (run data co))) = expected_events data (found_local data co)
  /\ calls (trace (snd (run data co))) = expected_calls data co
  /\ closes (trace (snd (run data co))) = [true].
Proof.
  intros Hcred Hgood Hstay.
  pose proof (try_block_completes data co Hcred Hgood Hstay) as Hn.
  destruct (stream_of_run data co) as [H _]. rewrite Hn in H.
  rewrite <- sent_stream, <- closes_stream.
  remember (Normal tt) as c eqn:Hc.
  destruct H as [ | p message Hp | p e' Hp | p e' r Hp | p ev e' r Hp];
    try discriminate.
  rewrite sent_app, sent_writes, closes_app, closes_writes. cbn. rewrite app_nil_r.
  repeat split. now apply PipelineFacts.calls_of_run_expected.
Qed.

(** A run to which X11 applies: the secrets are supplied, so that the
    resolvers are not called, and the resolver of the keys is one that
    would fail; the redeploy throws. *)
Lemma run_completes_when_nothing_fails_witness :
  fails resolver_down (call_resolveSupabaseApiKeys [] []) = true
  /\ fst (run (Examples.supplied false None) resolver_down) = Normal tt.
Proof.
  split; [reflexivity | ].
  apply (@run_completes_when_nothing_fails (Examples.supplied false None)
           resolver_down eq_refl); [ | reflexivity].
  vm_compute. repeat constructor.
Defined.

End ErrorFacts.

(* ================================================================== *)
(** * Facts about failures of the collaborators *)

Module FailureFacts.

Import RunStream Pipeline RunStreamFacts PipelineFacts ErrorFacts.
Local Open Scope run_scope.

(** ** The pipeline stops at the first failure *)

Section Halts.

Variable bad : Call -> bool.

Lemma stops_at_good d : Forall (fun c => bad c = false) d -> stops_at bad d.
Proof.
  intros H pre c post -> Hc. apply Forall_app in H. destruct H as [_ H].
  apply Forall_inv in H. congruence.
Qed.

Lemma stops_at_app d1 d2 :
  Forall (fun c => bad c = false) d1 -> stops_at bad d2 -> stops_at bad (d1 ++ d2).
Proof.
  intros H1 H2 pre c post Heq Hc.
  destruct (@app_eq_cons_split _ _ _ _ _ _ Heq) as [(pa & -> & _) | (pb & Hb & _)].
  - apply Forall_app in H1. destruct H1 as [_ H1]. apply Forall_inv in H1. congruence.
  - exact (H2 _ _ _ Hb Hc).
Qed.

Lemma stops_at_one c : stops_at bad [c].
Proof.
  intros [ | x pre] c' post H _; cbn in H; [now injection H | ].
  injection H as _ H. now destruct pre.
Qed.

Lemma halts_quiet {A} (m : M A) :
  (forall w, calls (trace (snd (m w))) = calls (trace w)) -> halts bad m.
Proof.
  intros H w. exists []. rewrite app_nil_r. split; trivial.
  destruct (fst (m w)); [constructor | | ]; apply stops_at_good; constructor.
Qed.

Lemma halts_aborts {A} (m : M A) : aborts m -> halts bad m.
Proof. intros H. apply halts_quiet. intros w. apply H. Qed.

Lemma halts_bind {A B} (m : M A) (k : A -> M B) :
  halts bad m -> (forall a, halts bad (k a)) -> halts bad (bind m k).
Proof.
  intros Hm Hk w. unfold bind. destruct (Hm w) as (d1 & H1 & C1).
  unfold M in *. destruct (m w) as [[a | | e] w1]; cbn [fst snd] in *;
    try (now exists d1).
  destruct (Hk a w1) as (d2 & H2 & C2). exists (d1 ++ d2).
  rewrite H2, H1, app_assoc. split; trivial.
  destruct (fst (k a w1)); [now apply Forall_app | | ]; now apply stops_at_app.
Qed.

Lemma halts_if {A} (b : bool) (m1 m2 : M A) :
  halts bad m1 -> halts bad m2 -> halts bad (if b then m1 else m2).
Proof. now destruct b. Qed.

Lemma halts_await {A} c (o : Outcome A) :
  (forall a, o = Returns a -> bad c = false) -> halts bad (await c o).
Proof.
  intros H w. exists [c]. cbn [await fst snd record trace]. rewrite calls_app.
  split; [reflexivity | ].
  destruct o as [a | e]; [ | apply stops_at_one]. constructor; eauto.
Qed.

(** A call whose result is checked: what follows goes on after a good
    result and aborts after a bad one. *)
Lemma halts_checked {A B} c (o : Outcome A) (k : A -> M B) :
  (forall a, o = Returns a ->
             if bad c then aborts (k a) else halts bad (k a)) ->
  halts bad (bind (await c o) k).
Proof.
  intros H w. unfold bind, await. destruct o as [a | e]; cbn [fst snd].
  - specialize (H a eq_refl). destruct (bad c) eqn:Hc.
    + destruct (H (record (Called c) w)) as [Hq Hn]. exists [c].
      rewrite Hq. cbn [record trace]. rewrite calls_app. split; [reflexivity | ].
      unfold M in *. destruct (fst (k a (record (Called c) w))) as [b | | e];
        [now destruct (Hn b) | apply stops_at_one | apply stops_at_one].
    + destruct (H (record (Called c) w)) as (d & Hd & Hm). exists ([c] ++ d).
      rewrite Hd. cbn [record trace]. rewrite calls_app, <- app_assoc.
      split; [reflexivity | ].
      assert (Hg : Forall (fun c => bad c = false) [c]) by now constructor.
      unfold M in *. destruct (fst (k a (record (Called c) w)));
        [now apply Forall_app | | ]; now apply stops_at_app.
  - exists [c]. cbn [record trace]. rewrite calls_app. split; [reflexivity | ].
    apply stops_at_one.
Qed.

End Halts.

Section Stops.

Variable data : RunPayload.
Variable co : Collaborators.

Lemma halts_log l : halts (fails co) (log l).
Proof. apply halts_quiet. intros w. now apply (calls_record_other (Log l)). Qed.

Lemma halts_write e : halts (fails co) (writer_write e).
Proof.
  apply halts_quiet. intros [[] [ | [ | n] | ] r t]; unfold writer_write;
    cbn; rewrite calls_app; cbn; now rewrite app_nil_r.
Qed.

Lemma halts_ret {A} (a : A) : halts (fails co) (ret a).
Proof. now apply halts_quiet. Qed.

Ltac halts_steps :=
  repeat first
    [ apply halts_log | apply halts_write | apply halts_ret
    | apply halts_aborts, aborts_fail_with
    | apply halts_bind;
      [first [apply halts_log | apply halts_write | apply halts_ret] | intros ? ] ].

Lemma halts_resolve_keys : halts (fails co) (resolve_keys data co).
Proof.
  unfold resolve_keys. halts_steps. apply halts_if; [ | apply halts_ret].
  apply halts_checked. intros keys Hk. cbn [fails]. rewrite Hk.
  destruct keys as [pk sk | ]; [halts_steps | apply aborts_fail_with].
Qed.

Lemma halts_resolve_db : halts (fails co) (resolve_db data co).
Proof.
  unfold resolve_db. halts_steps. apply halts_if; [ | apply halts_ret].
  apply halts_checked. intros db Hdb. cbn [fails]. rewrite Hdb.
  destruct db as [u | ]; [ | apply aborts_fail_with].
  unfold new_URL. destruct (URL_parses co _); cbn [negb].
  - halts_steps.
  - apply aborts_bind, aborts_throw.
Qed.

Lemma halts_unchecked {A} c (o : Outcome A) :
  fails co c = throws o -> halts (fails co) (await c o).
Proof. intros H. apply halts_await. intros a ->. exact H. Qed.

Lemma halts_phase_coordinates : halts (fails co) (phase_coordinates data co).
Proof.
  unfold phase_coordinates. halts_steps.
  apply halts_bind; [apply halts_resolve_keys | intros keys]. halts_steps.
  apply halts_bind; [apply halts_resolve_db | intros u]. halts_steps.
  apply halts_bind; [now apply halts_unchecked | intros _]. halts_steps.
Qed.

Lemma halts_phase_signal : halts (fails co) (phase_signal data co).
Proof.
  unfold phase_signal. halts_steps. apply halts_if; [ | apply halts_log].
  halts_steps. apply halts_bind; [ | intros _; apply halts_write].
  apply halts_if; [ | apply halts_ret].
  apply halts_checked. intros ready Hr. cbn [fails]. rewrite Hr.
  destruct ready; cbn; [apply halts_ret | apply aborts_fail_with].
Qed.

Lemma halts_phase_station u : halts (fails co) (phase_station data co u).
Proof.
  unfold phase_station. halts_steps. apply halts_if; [ | apply halts_log].
  halts_steps. apply halts_bind; [now apply halts_unchecked | intros _]. halts_steps.
Qed.

Lemma halts_phase_comms hasLocal a s : halts (fails co) (phase_comms data co hasLocal a s).
Proof.
  unfold phase_comms. halts_steps. apply halts_bind; [ | intros _; apply halts_write].
  apply halts_if; [ | apply halts_ret]. halts_steps.
  apply halts_checked. intros secrets Hs. cbn [fails]. rewrite Hs.
  destruct secrets; cbn; [ | apply aborts_fail_with].
  halts_steps. now apply halts_unchecked.
Qed.

Lemma halts_phase_contact s : halts (fails co) (phase_contact data co s).
Proof.
  unfold phase_contact. halts_steps. apply halts_if; [ | apply halts_log].
  halts_steps.
  apply halts_checked. intros ok Hok. cbn [fails]. rewrite Hok.
  destruct ok; cbn; [halts_steps | apply aborts_bind, aborts_fail_with].
Qed.

(** The [try] around the redeploy: one call, which does not count as a
    failure, and a normal end. *)
Lemma halts_swallow l c (o : Outcome unit) :
  fails co c = false ->
  halts (fails co) (try_catch (bind (log l) (fun _ => await c o)) (fun _ => ret tt)).
Proof.
  intros Hc w. exists [c]. unfold try_catch, bind, log, await, ret.
  destruct o as [[] | e]; cbn; rewrite !calls_app; cbn;
    rewrite app_nil_r; (split; [reflexivity | now constructor]).
Qed.

Lemma halts_phase_landing : halts (fails co) (phase_landing data co).
Proof.
  unfold phase_landing, sendPhase, sendEvent. halts_steps.
  apply halts_bind; [now apply halts_swallow | intros _]. apply halts_write.
Qed.

Lemma halts_phase_complete : halts (fails co) phase_complete.
Proof. unfold phase_complete, sendPhase, sendEvent. halts_steps. Qed.

Lemma halts_try_block : halts (fails co) (try_block data co).
Proof.
  unfold try_block. apply halts_bind.
  - apply halts_if; [now apply halts_unchecked | apply halts_ret].
  - intros l. apply halts_if; [apply halts_aborts, aborts_fail_with | ].
    unfold phases.
    apply halts_bind; [apply halts_phase_coordinates | intros [[a s] u]].
    apply halts_bind; [apply halts_phase_signal | intros _].
    apply halts_bind; [apply halts_phase_station | intros _].
    apply halts_bind; [apply halts_phase_comms | intros _].
    apply halts_bind; [apply halts_phase_contact | intros _].
    apply halts_bind; [apply halts_phase_landing | intros _].
    apply halts_phase_complete.
Qed.

End Stops.

(** X12: a run stops at the first failure: after the call of a
    collaborator that throws or reports a failure (no keys, no DB
    connection string or one that is not a URL, project not ready,
    secrets not set, bootstrap not done), no further collaborator is
    called. The redeploy, whose exception is swallowed, is the last call
    anyway. *)
Theorem no_call_after_a_failure data co pre c post :
  calls (trace (snd (run data co))) = pre ++ c :: post ->
  fails co c = true -> post = [].
Proof.
  rewrite (calls_of_run data co).
  destruct (halts_try_block data co (try_world data co)) as (d & Hd & Hc).
  rewrite calls_initial in Hd. cbn [app] in Hd. rewrite Hd.
  destruct (fst (try_block data co (try_world data co)));
    [apply stops_at_good in Hc | | ]; apply Hc.
Qed.

Lemma no_call_after_a_failure_witness :
  skipn 3 (calls (trace (snd (run Examples.with_token Examples.never_ready)))) = [].
Proof.
  apply (@no_call_after_a_failure Examples.with_token Examples.never_ready
           (firstn 2 (calls (trace (snd (run Examples.with_token Examples.never_ready)))))
           (call_waitForSupabaseProjectReady (str "sbp_token") (str "abcd") 210000 4000)
           (skipn 3 (calls (trace (snd (run Examples.with_token Examples.never_ready)))))).
  - vm_compute. reflexivity.
  - reflexivity.
Defined.

End FailureFacts.

(* ================================================================== *)
(** * Facts about the Health-Check Hint and the first name *)

Module HintFacts.

Import RunStream Pipeline RunStreamFacts.
Local Open Scope run_scope.

(** ** Blocks do not read the trace *)

Lemma shift_shift {A} t t1 (r : Completion A * World) :
  shift t (shift t1 r) = shift (t ++ t1) r.
Proof. unfold shift. cbn. now rewrite app_assoc. Qed.

Lemma framed_ret {A} (a : A) : framed (ret a).
Proof. intros cl c r t. unfold shift. cbn. now rewrite app_nil_r. Qed.

Lemma framed_throw {A} e : framed (@throw A e).
Proof. intros cl c r t. unfold shift. cbn. now rewrite app_nil_r. Qed.

Lemma framed_return {A} : framed (@return_ A).
Proof. intros cl c r t. unfold shift. cbn. now rewrite app_nil_r. Qed.

Lemma framed_log l : framed (log l).
Proof. intros cl cli r t. reflexivity. Qed.

Lemma framed_await {A} c (o : Outcome A) : framed (await c o).
Proof. intros cl cli r t. reflexivity. Qed.

Lemma framed_write e : framed (writer_write e).
Proof. intros [] [ | [ | n] | ] r t; reflexivity. Qed.

Lemma framed_close : framed writer_close.
Proof. intros [] [ | n | ] r t; reflexivity. Qed.

Lemma framed_at {A} (m : M A) cl c r t t1 :
  framed m -> m (mkWorld cl c r (t ++ t1)) = shift t (m (mkWorld cl c r t1)).
Proof. intros H. now rewrite (H cl c r (t ++ t1)), (H cl c r t1), shift_shift. Qed.

Lemma framed_bind {A B} (m : M A) (k : A -> M B) :
  framed m -> (forall a, framed (k a)) -> framed (bind m k).
Proof.
  intros Hm Hk cl c r t. unfold bind. rewrite (Hm cl c r t). unfold M in *.
  destruct (m (mkWorld cl c r [])) as [[a | | e] [cl1 c1 r1 t1]];
    cbn [shift fst snd writerClosed client rejection trace];
    try reflexivity.
  now apply framed_at.
Qed.

Lemma framed_if {A} (b : bool) (m1 m2 : M A) :
  framed m1 -> framed m2 -> framed (if b then m1 else m2).
Proof. now destruct b. Qed.

Lemma framed_try_catch body handler :
  framed body -> (forall e, framed (handler e)) -> framed (try_catch body handler).
Proof.
  intros Hb Hh cl c r t. unfold try_catch. rewrite (Hb cl c r t). unfold M in *.
  destruct (body (mkWorld cl c r [])) as [[a | | e] [cl1 c1 r1 t1]];
    cbn [shift fst snd writerClosed client rejection trace];
    try reflexivity.
  now apply framed_at.
Qed.

Lemma framed_try_catch_finally body handler final :
  framed body -> (forall e, framed (handler e)) -> framed final ->
  framed (try_catch_finally body handler final).
Proof.
  intros Hb Hh Hf cl c r t. unfold try_catch_finally.
  rewrite (@framed_try_catch body handler Hb Hh cl c r t). unfold M in *.
  destruct (try_catch body handler (mkWorld cl c r [])) as [c0 [cl1 c1 r1 t1]].
  cbn [shift fst snd writerClosed client rejection trace].
  rewrite (@framed_at _ final cl1 c1 r1 t t1 Hf).
  destruct (final (mkWorld cl1 c1 r1 t1)) as [[a | | e] [cl2 c2 r2 t2]]; reflexivity.
Qed.

Ltac framed_walk :=
  repeat
    match goal with
    | |- framed (phases _ _ _) =>
        unfold phases; apply framed_bind; [ | intros [[? ?] ?] ]
    | |- framed (bind _ _) => apply framed_bind; [ | intros ? ]
    | |- framed (ret _) => apply framed_ret
    | |- framed (throw _) => apply framed_throw
    | |- framed return_ => apply framed_return
    | |- framed (log _) => apply framed_log
    | |- framed (await _ _) => apply framed_await
    | |- framed (sendPhase _ _) => apply framed_write
    | |- framed (sendEvent _) => apply framed_write
    | |- framed writer_close => apply framed_close
    | |- framed (fail_with _) => unfold fail_with
    | |- framed (phase_coordinates _ _) => unfold phase_coordinates
    | |- framed (resolve_keys _ _) => unfold resolve_keys
    | |- framed (resolve_db _ _) => unfold resolve_db
    | |- framed (phase_signal _ _) => unfold phase_signal
    | |- framed (phase_station _ _ _) => unfold phase_station
    | |- framed (phase_comms _ _ _ _ _) => unfold phase_comms
    | |- framed (phase_contact _ _ _) => unfold phase_contact
    | |- framed (phase_landing _ _) => unfold phase_landing
    | |- framed phase_complete => unfold phase_complete
    | |- framed (catch_block _) => unfold catch_block
    | |- framed (new_URL _ _) => unfold new_URL
    | |- framed (try_catch _ _) => apply framed_try_catch; [ | intros ? ]
    | |- framed (if _ then _ else _) => apply framed_if
    | |- framed (match ?x with _ => _ end) => destruct x
    end.

Section Hints.

Variable data : RunPayload.
Variable co : Collaborators.

Lemma framed_guarded_try :
  framed (try_catch_finally (try_block data co) catch_block writer_close).
Proof.
  apply framed_try_catch_finally; [unfold try_block | intros e | ]; framed_walk.
Qed.

Variable hc : option HealthCheck.
Hypothesis same_wait_project :
  hint skipWaitProject hc = hint skipWaitProject (healthCheck data).
Hypothesis same_migrations :
  hint skipMigrations hc = hint skipMigrations (healthCheck data).
Hypothesis same_bootstrap :
  hint skipBootstrap hc = hint skipBootstrap (healthCheck data).

(** The [try] block reads the Skip Set with [includes] only, and never
    for [wait_storage]. *)
Lemma try_block_same_hints :
  try_block (with_healthCheck data hc) co = try_block data co.
Proof.
  unfold try_block, phases, phase_coordinates, resolve_keys, resolve_db,
    phase_signal, phase_station, phase_comms, phase_contact, phase_landing,
    needsManagementApi, needsKeys, needsDb, resolvedAccessToken,
    resolvedProjectRef, suppliedAnonKey, suppliedServiceRoleKey, suppliedDbUrl,
    skipped.
  cbn [with_healthCheck healthCheck supabase vercel admin].
  rewrite !includes_skipped.
  now rewrite same_wait_project, same_migrations, same_bootstrap.
Qed.

Lemma quiet_start d :
  stream (trace (snd (log (log_inicio (skipped d)) (initial_world d co)))) = []
  /\ calls (trace (snd (log (log_inicio (skipped d)) (initial_world d co)))) = []
  /\ writerClosed (snd (log (log_inicio (skipped d)) (initial_world d co))) = false
  /\ client (snd (log (log_inicio (skipped d)) (initial_world d co)))
     = client_of (clientReads co)
  /\ rejection (snd (log (log_inicio (skipped d)) (initial_world d co)))
     = cancelReason co.
Proof. unfold log, initial_world. destruct (skipped d); cbn; auto. Qed.

Lemma run_framed d :
  try_block d co = try_block data co ->
  fst (run d co)
  = fst (try_catch_finally (try_block data co) catch_block writer_close
           (mkWorld false (client_of (clientReads co)) (cancelReason co) []))
  /\ stream (trace (snd (run d co)))
     = stream (trace (snd (try_catch_finally (try_block data co) catch_block
                             writer_close (mkWorld false (client_of (clientReads co)) (cancelReason co) []))))
  /\ calls (trace (snd (run d co)))
     = calls (trace (snd (try_catch_finally (try_block data co) catch_block
                            writer_close (mkWorld false (client_of (clientReads co)) (cancelReason co) [])))).
Proof.
  intros Heq. unfold run, task, bind.
  destruct (quiet_start d) as (Hs & Hc & Ho & Hcl & Hr).
  change (log (log_inicio (skipped d)) (initial_world d co))
    with (Normal tt, snd (log (log_inicio (skipped d)) (initial_world d co))).
  destruct (snd (log (log_inicio (skipped d)) (initial_world d co))) as [cl c r t].
  cbn [trace writerClosed client rejection] in Hs, Hc, Ho, Hcl, Hr. subst cl c r.
  rewrite Heq, (framed_guarded_try false _ _ t). unfold shift. cbn [fst snd trace].
  now rewrite stream_app, calls_app, Hs, Hc.
Qed.

End Hints.

(** X13: the [skipWaitStorage] flag of the Health-Check Hint changes
    nothing of a run but the console lines that list the skipped steps:
    two requests that differ in the hint only and agree on its three other
    flags end the same way, with the same writes and closes on the stream
    and the same collaborator calls. *)
Theorem storage_hint_is_ignored data co hc :
  hint skipWaitProject hc = hint skipWaitProject (healthCheck data) ->
  hint skipMigrations hc = hint skipMigrations (healthCheck data) ->
  hint skipBootstrap hc = hint skipBootstrap (healthCheck data) ->
  fst (run (with_healthCheck data hc) co) = fst (run data co)
  /\ stream (trace (snd (run (with_healthCheck data hc) co)))
     = stream (trace (snd (run data co)))
  /\ calls (trace (snd (run (with_healthCheck data hc) co)))
     = calls (trace (snd (run data co))).
Proof.
  intros H1 H2 H3.
  destruct (@run_framed data co (with_healthCheck data hc)
              (@try_block_same_hints data co hc H1 H2 H3)) as (Ha & Hb & Hc).
  destruct (@run_framed data co data eq_refl) as (Ha' & Hb' & Hc').
  rewrite Ha, Hb, Hc, Ha', Hb', Hc'. auto.
Qed.

Lemma storage_hint_is_ignored_witness :
  stream (trace (snd (run (with_healthCheck (Examples.supplied false None)
                             (Some (mkHealthCheck false true false false)))
                        Examples.all_ok)))
  = stream (trace (snd (run (Examples.supplied false None) Examples.all_ok))).
Proof.
  apply (@storage_hint_is_ignored (Examples.supplied false None) Examples.all_ok
           (Some (mkHealthCheck false true false false)) eq_refl eq_refl eq_refl).
Defined.

(** ** The first name *)

Lemma before_space_no_space s : ~ In 32%N (before_space s).
Proof.
  induction s as [ | c s IH]; cbn; [tauto | ].
  destruct (N.eqb_spec c 32); cbn; [tauto | ]. intros [H | H]; auto.
Qed.

Lemma before_space_split s :
  exists rest, s = before_space s ++ rest /\ (rest = [] \/ exists r, rest = 32%N :: r).
Proof.
  induction s as [ | c s (rest & IH & Hr)]; cbn.
  - exists []. auto.
  - destruct (N.eqb_spec c 32) as [-> | Hne].
    + exists (32%N :: s). split; [reflexivity | right; now exists s].
    + exists rest. split; [cbn; f_equal; exact IH | trivial].
Qed.

(** X14: the first name used in the titles is never empty and contains
    no space. It is ['você'] when the company name is empty or starts
    with a space; otherwise it is the part of the company name before its
    first space, the whole name when there is none. *)
Theorem firstName_is_one_word data :
  firstName data <> []
  /\ ~ In 32%N (firstName data)
  /\ (companyName (admin data) = []
      \/ (exists r, companyName (admin data) = 32%N :: r) ->
      firstName data = voce)
  /\ (forall c s, companyName (admin data) = c :: s -> c <> 32%N ->
      exists rest, companyName (admin data) = firstName data ++ rest
                   /\ (rest = [] \/ exists r, rest = 32%N :: r)).
Proof.
  unfold firstName, or_else. split; [ | split; [ | split]].
  - destruct (before_space (companyName (admin data))); cbn [truthy]; discriminate.
  - destruct (before_space (companyName (admin data))) as [ | c s] eqn:Hb;
      cbn [truthy].
    + cbn. intuition discriminate.
    + rewrite <- Hb. apply before_space_no_space.
  - intros [-> | [r ->]]; reflexivity.
  - intros c s Hn Hc. rewrite Hn.
    assert (Hb : before_space (c :: s) = c :: before_space s).
    { cbn. destruct (N.eqb_spec c 32); [contradiction | reflexivity]. }
    rewrite Hb. cbn [truthy]. rewrite <- Hb. apply before_space_split.
Qed.

Example firstName_examples :
  firstName (Examples.supplied false None) = str "Acme"
  /\ firstName padded_company = voce.
Proof. split; reflexivity. Qed.

End HintFacts.

(* ================================================================== *)
(** * Facts about the complete event and the progress *)

Module CompletionFacts.

Import RunStream Pipeline RunStreamFacts PipelineFacts FailureFacts.
Local Open Scope run_scope.

(** ** What the complete event tells *)

Section Complete.

Variable data : RunPayload.
Variable co : Collaborators.

Lemma still_before_complete_normally c w :
  still_before_complete c w -> completed_normally c w.
Proof.
  intros H Hin. destruct c as [[] | | e]; trivial; now destruct (H Hin).
Qed.

Lemma stays_before_complete {A} (m : M A) es C :
  emits m es C -> footprint (no_write completeEvent) m ->
  triple before_complete m still_before_complete.
Proof.
  intros He Hf w [Hopen Hnc]. destruct (He w Hopen) as [_ Hm].
  destruct (Hf w) as (d & Hd & Hq). apply sent_quiet in Hq.
  assert (Hnc' : not_completed (snd (m w))).
  { unfold not_completed in *. rewrite Hd, sent_app, in_app_iff. tauto. }
  unfold M in *. destruct (m w) as [[a | | e] w1]; cbn in *; trivial.
  split; tauto.
Qed.

Lemma complete_completes : triple before_complete phase_complete completed_normally.
Proof.
  intros [cl c r t] [[Hopen Hc] Hnc]. cbn in Hopen, Hc. subst cl.
  unfold not_completed in Hnc. cbn [trace] in Hnc.
  unfold completed_normally, phase_complete, bind, log, sendPhase, sendEvent,
    writer_write.
  destruct c as [ | [ | [ | n]] | ]; [ | | | | contradiction];
    cbn -[sent]; trivial; rewrite !sent_app; cbn; rewrite ?app_nil_r;
    intros Hin; exfalso; rewrite ?in_app_iff in Hin; cbn in Hin;
    intuition discriminate.
Qed.

Ltac stay lemma :=
  eapply triple_bind;
    [ eapply stays_before_complete; [apply lemma | quiet]
    | intros ?
    | intros w; apply (@still_before_complete_normally Return_)
    | intros e w; apply (@still_before_complete_normally (Throw e)) ].

Lemma phases_completed hasLocal :
  triple before_complete (phases data co hasLocal) completed_normally.
Proof.
  unfold phases.
  eapply triple_bind;
    [ eapply stays_before_complete; [apply emits_phase_coordinates | quiet]
    | intros [[a s] u]
    | intros w; apply (@still_before_complete_normally Return_)
    | intros e w; apply (@still_before_complete_normally (Throw e)) ].
  stay emits_phase_signal.
  stay emits_phase_station.
  eapply triple_bind;
    [ eapply stays_before_complete;
        [apply emits_phase_comms | unfold phase_comms; quiet]
    | intros ?
    | intros w; apply (@still_before_complete_normally Return_)
    | intros e w; apply (@still_before_complete_normally (Throw e)) ].
  eapply triple_bind;
    [ eapply stays_before_complete;
        [apply emits_phase_contact | unfold phase_contact; quiet]
    | intros ?
    | intros w; apply (@still_before_complete_normally Return_)
    | intros e w; apply (@still_before_complete_normally (Throw e)) ].
  eapply triple_bind;
    [ eapply stays_before_complete;
        [apply emits_phase_landing | unfold phase_landing; quiet]
    | intros ?
    | intros w; apply (@still_before_complete_normally Return_)
    | intros e w; apply (@still_before_complete_normally (Throw e)) ].
  apply complete_completes.
Qed.

Lemma try_block_completed :
  triple before_complete (try_block data co) completed_normally.
Proof.
  unfold try_block.
  eapply triple_bind with (R := still_before_complete).
  - destruct (deployEdgeFunctions (supabase data)).
    + eapply stays_before_complete; [apply emits_await | quiet].
    + eapply stays_before_complete; [apply (emits_ret _ []) | quiet].
  - intros l. destruct (_ && _).
    + intros w Hw. apply still_before_complete_normally. revert w Hw.
      eapply stays_before_complete;
        [apply (@emits_fail_with _ _ [] [[]]); now left | quiet].
    + apply phases_completed.
  - intros w. apply (@still_before_complete_normally Return_).
  - intros e w. apply (@still_before_complete_normally (Throw e)).
Qed.

(** The events of the [try] block are those of the run but for the
    error event of the [catch] block. *)
Lemma complete_sent_in_try :
  In completeEvent (sent (trace (snd (run data co)))) ->
  In completeEvent (sent (trace (snd (try_block data co (try_world data co))))).
Proof.
  rewrite run_unfold. unfold try_catch_finally, try_catch. unfold M in *.
  unfold catch_block, sendEvent, writer_write, writer_close.
  destruct (try_block data co (try_world data co))
    as [[[] | | e] [[] [ | [ | n] | ] r t]];
    cbn -[sent]; rewrite ?sent_app, ?in_app_iff; cbn; intuition discriminate.
Qed.

Lemma complete_means_normal :
  In completeEvent (sent (trace (snd (run data co)))) ->
  fst (try_block data co (try_world data co)) = Normal tt.
Proof.
  intros H. apply complete_sent_in_try in H. revert H.
  apply try_block_completed. split.
  - split; [reflexivity | ]. cbn. now destruct (clientReads co).
  - unfold not_completed. now rewrite sent_initial.
Qed.

Lemma normal_means_no_failure :
  fst (try_block data co (try_world data co)) = Normal tt ->
  Forall (fun c => fails co c = false) (calls (trace (snd (run data co)))).
Proof.
  intros Hn. rewrite (calls_of_run data co).
  destruct (halts_try_block data co (try_world data co)) as (d & Hd & Hc).
  rewrite calls_initial in Hd. cbn [app] in Hd. rewrite Hd. now rewrite Hn in Hc.
Qed.

End Complete.

(** X15: the complete event is truthful: when the client receives it,
    every call of the pipeline has been made, none of them has failed
    (the redeploy aside, whose failure is swallowed), all the phase events
    of the run have been sent and the task ends normally. *)
Theorem complete_event_is_truthful data co :
  In completeEvent (sent (trace (snd (run data co)))) ->
  calls (trace (snd (run data co))) = expected_calls data co
  /\ Forall (fun c => fails co c = false) (calls (trace (snd (run data co))))
  /\ sent (trace (snd (run data co))) = expected_events data (found_local data co)
  /\ fst (run data co) = Normal tt.
Proof.
  intros H. apply complete_means_normal in H.
  split; [now apply calls_of_run_expected | ].
  split; [now apply normal_means_no_failure | ].
  destruct (stream_of_run data co) as [Hs _]. rewrite H in Hs.
  rewrite <- sent_stream. remember (Normal tt) as c eqn:Hc.
  destruct Hs as [ | p message Hp | p e' Hp | p e' r Hp | p ev e' r Hp];
    try discriminate.
  rewrite sent_app, sent_writes. cbn. now rewrite app_nil_r.
Qed.

Lemma complete_event_is_truthful_witness :
  calls (trace (snd (run (Examples.supplied false None) Examples.all_ok)))
  = expected_calls (Examples.supplied false None) Examples.all_ok.
Proof.
  apply (@complete_event_is_truthful (Examples.supplied false None) Examples.all_ok).
  vm_compute. repeat first [left; reflexivity | right].
Defined.

(** ** Progress and phases *)

Lemma expected_progress_increasing data b :
  StronglySorted Z.lt (progress_values (expected_events data b)).
Proof. case_flags data b; cbn; repeat constructor; lia. Qed.

Lemma expected_progress_phase data b e n :
  In e (expected_events data b) -> progress e = Some n ->
  phase e = Some (phase_of_progress n).
Proof.
  case_flags data b; cbn [app In]; intros H; repeat destruct H as [<- | H];
    try contradiction; cbn; intros Hn; first [discriminate | injection Hn as <-];
    reflexivity.
Qed.

(** X16: within one run every event that carries a progress value
    carries a larger one than the events before it, and the value tells
    the phase: up to 20 coordinates, up to 35 signal, up to 55 station, up
    to 75 comms, up to 90 contact, up to 98 landing, 100 complete. *)
Theorem progress_strictly_increases data co :
  StronglySorted Z.lt (progress_values (sent (trace (snd (run data co)))))
  /\ forall e n, In e (sent (trace (snd (run data co)))) ->
       progress e = Some n -> phase e = Some (phase_of_progress n).
Proof.
  destruct (sent_of_run data co) as (p & tail & [q Hq] & Hs & Htail).
  rewrite Hs. split.
  - pose proof (expected_progress_increasing data (found_local data co)) as H.
    rewrite Hq, progress_values_app in H. apply StronglySorted_app_l in H.
    rewrite progress_values_app.
    destruct Htail as [-> | [m ->]]; cbn; now rewrite app_nil_r.
  - intros e n Hin Hn. apply in_app_iff in Hin. destruct Hin as [Hin | Hin].
    + apply (@expected_progress_phase data (found_local data co)); trivial.
      rewrite Hq. apply in_app_iff. now left.
    + destruct Htail as [-> | [m ->]]; [destruct Hin | ].
      destruct Hin as [<- | []]. discriminate.
Qed.

End CompletionFacts.

(* ================================================================== *)
(** * Facts about the root page *)

Module HomePageFacts.

Import HomePage.

(** X17: the root page always ends in a redirect: to [/install] unless
    [INSTALLER_ENABLED] is ['false'], and then without creating a database
    client; to [/dashboard] otherwise, whatever the initialization check
    returns or throws. The redirect to [/setup] is thrown inside the [try]
    block, whose [catch] swallows it: [/setup] is never the destination. *)
Theorem home_redirects penv createClient rpc :
  snd (Home penv createClient rpc)
  = inr (NEXT_REDIRECT (if installer_disabled penv
                        then str "/dashboard" else str "/install"))
  /\ (installer_disabled penv = false -> fst (Home penv createClient rpc) = [])
  /\ (installer_disabled penv = true ->
      fst (Home penv createClient rpc)
      = page_createClient
        :: match createClient with
           | Returns _ => [page_rpc (str "is_instance_initialized")]
           | Throws _ => []
           end).
Proof.
  unfold Home. destruct (installer_disabled penv); cbn [negb].
  - split; [ | split; [discriminate | intros _]];
      destruct createClient as [[] | e]; trivial;
      destruct rpc as [r | e]; trivial;
      unfold page_bind, page_await, try_catch_all, page_ret, redirect;
      destruct (not_initialized r); reflexivity.
  - split; [reflexivity | split; [reflexivity | discriminate]].
Qed.

(** An instance that is not initialized is sent to the dashboard all
    the same. *)
Example home_not_initialized :
  Home (mkProcessEnv (Some (str "false")) None) (Returns tt) (Returns (mkRpcResult (Some false) None))
  = ([page_createClient; page_rpc (str "is_instance_initialized")],
     inr (NEXT_REDIRECT (str "/dashboard"))).
Proof. vm_compute. reflexivity. Qed.

End HomePageFacts.

(* ================================================================== *)
(** * Facts about the variables of a prompt *)

Module PromptsFacts.

Import Prompts.

Lemma trimStart_idem s : trimStart (trimStart s) = trimStart s.
Proof.
  induction s as [ | c s IH]; cbn; trivial.
  destruct (isWhiteSpace c) eqn:Hc; trivial. cbn. now rewrite Hc.
Qed.

Lemma trimStart_In s x : In x (trimStart s) -> In x s.
Proof.
  induction s as [ | c s IH]; cbn; trivial.
  destruct (isWhiteSpace c); cbn; auto.
Qed.

(** A string that ends with a non-blank keeps it when trimmed at the
    start. *)
Lemma trimStart_keeps_last l c :
  isWhiteSpace c = false -> exists x, trimStart (l ++ [c]) = x ++ [c].
Proof.
  intros Hc. induction l as [ | a l (x & IH)]; cbn.
  - rewrite Hc. now exists [].
  - destruct (isWhiteSpace a); [now exists x | now exists (a :: l)].
Qed.

Lemma trimStart_fixed c r : isWhiteSpace c = false -> trimStart (c :: r) = c :: r.
Proof. intros H. cbn. now rewrite H. Qed.

Lemma trimStart_head s c t : trimStart s = c :: t -> isWhiteSpace c = false.
Proof.
  induction s as [ | a s IH]; cbn; [discriminate | ].
  destruct (isWhiteSpace a) eqn:Ha; [exact IH | ]. now intros [= <- _].
Qed.

Lemma trim_idem s : trim (trim s) = trim s.
Proof.
  unfold trim, trimEnd.
  assert (Hs : trimStart (rev (trimStart (rev (trimStart s))))
               = rev (trimStart (rev (trimStart s)))).
  { destruct (trimStart s) as [ | c t] eqn:Ht; [reflexivity | ].
    pose proof (trimStart_head s Ht) as Hc.
    cbn [rev]. destruct (@trimStart_keeps_last (rev t) c Hc) as (x & ->).
    rewrite rev_app_distr. cbn. now rewrite Hc. }
  rewrite Hs, rev_involutive, trimStart_idem. reflexivity.
Qed.

Lemma trim_In s x : In x (trim s) -> In x s.
Proof.
  unfold trim, trimEnd. intros H. apply in_rev, trimStart_In, in_rev in H.
  now apply trimStart_In.
Qed.

Lemma split_nonempty sep s : split sep s <> [].
Proof.
  destruct s as [ | c r]; cbn; [discriminate | ].
  destruct (c =? sep)%N; [discriminate | ]. destruct (split sep r); discriminate.
Qed.

(** The pieces contain no separator and nothing that the string does not
    contain. *)
Lemma split_pieces sep s p :
  In p (split sep s) -> ~ In sep p /\ forall x, In x p -> In x s.
Proof.
  revert p. induction s as [ | c r IH]; cbn; intros p Hp.
  - destruct Hp as [<- | []]. split; [tauto | trivial].
  - destruct (N.eqb_spec c sep) as [-> | Hne].
    + destruct Hp as [<- | Hp]; [split; [tauto | intros x []] | ].
      destruct (IH p Hp) as [H1 H2]. split; auto.
    + destruct (split sep r) as [ | h t] eqn:Hs.
      * destruct Hp as [<- | []]. split; cbn; [intuition | tauto].
      * destruct Hp as [<- | Hp].
        -- destruct (IH h (or_introl eq_refl)) as [H1 H2]. split; cbn.
           ++ intros [H | H]; [now apply Hne | tauto].
           ++ intros x [<- | H]; auto.
        -- destruct (IH p (or_intror Hp)) as [H1 H2]. split; auto.
Qed.

Lemma startsWith_nil s : startsWith s [] = true.
Proof. now destruct s. Qed.

Lemma indexOf_from_one c s i e :
  indexOf_from [c] s i = Some e -> i <= e /\ ~ In c (firstn (e - i) s).
Proof.
  revert i. induction s as [ | a s IH]; cbn; intros i; [discriminate | ].
  destruct (N.eqb_spec c a) as [<- | Hne]; cbn.
  - rewrite startsWith_nil. intros [= <-]. rewrite Nat.sub_diag. cbn. split; [lia | tauto].
  - intros H. apply IH in H. destruct H as [Hle Hnot]. split; [lia | ].
    replace (e - i) with (S (e - S i)) by lia. cbn.
    intros [H | H]; [now apply Hne | tauto].
Qed.

Lemma indexOf_from_none c s i : indexOf_from [c] s i = None -> ~ In c s.
Proof.
  revert i. induction s as [ | a s IH]; cbn; intros i; [tauto | ].
  destruct (N.eqb_spec c a) as [<- | Hne]; cbn;
    [rewrite startsWith_nil; discriminate | ].
  intros H. apply IH in H. intros [Ha | Hs]; [now apply Hne | tauto].
Qed.

Lemma clean_pieces cut v :
  ~ In period cut ->
  In v (if negb (truthy (trim cut)) then []
        else filter truthy (map trim (split comma (trim cut)))) ->
  v <> [] /\ trim v = v /\ ~ In comma v /\ ~ In period v.
Proof.
  intros Hcut. destruct (negb (truthy (trim cut))); [cbn; intros [] | ].
  rewrite filter_In, in_map_iff. intros [(p & <- & Hp) Hv].
  apply split_pieces in Hp. destruct Hp as [Hcomma Hsub].
  split; [ | split; [apply trim_idem | split]].
  - intros H. now rewrite H in Hv.
  - intros H. now apply trim_In in H.
  - intros H. apply trim_In, Hsub, trim_In in H. now apply Hcut.
Qed.

(** X18: every variable that [extractVariablesFromNotes] returns is
    non-empty, has no blank at either end, and contains neither a comma
    nor a period; nothing is returned for missing or empty notes. This
    holds whatever [toLowerCase] does to the notes. *)
Theorem extracted_variables_are_clean toLowerCase notes :
  extractVariablesFromNotes toLowerCase None = []
  /\ extractVariablesFromNotes toLowerCase (Some []) = []
  /\ forall v, In v (extractVariablesFromNotes toLowerCase notes) ->
       v <> [] /\ trim v = v /\ ~ In comma v /\ ~ In period v.
Proof.
  split; [reflexivity | split; [reflexivity | ]].
  intros v. unfold extractVariablesFromNotes.
  destruct notes as [n | ]; [ | cbn; intros []].
  destruct (negb (truthy n)); [cbn; intros [] | ].
  destruct (indexOf marker (toLowerCase n)) as [idx | ]; [ | cbn; intros []].
  cbv zeta. apply clean_pieces. unfold indexOf.
  destruct (indexOf_from [period] _ 0) as [e | ] eqn:He.
  - apply indexOf_from_one in He. now rewrite Nat.sub_0_r in He.
  - now apply indexOf_from_none in He.
Qed.

(** An example: the blank variable between the two commas is dropped. *)
Lemma extract_example :
  extractVariablesFromNotes ascii_lower
    (Some (str "Uso interno. Vari" ++ [225%N] ++ str "veis: nome ,, deal_id . Outras notas."))
  = [str "nome"; str "deal_id"].
Proof. vm_compute. reflexivity. Qed.

End PromptsFacts.

(* ================================================================== *)
(** * Facts about the invites route *)

Module InvitesRouteFacts.

Import InvitesRoute EntryFacts.

Ltac reject :=
  right; do 2 eexists; split; [reflexivity | ]; split;
  [repeat constructor | cbn; try split; try lia; eauto].

Section Route.

Variable Invite : Type.
Variable co : Database Invite.

(** What [administrator] ends with: the organization and the id of an
    administrator, or a rejection before any query on the invites. *)
Lemma administrator_cases :
  (exists org me_id cs,
      admin_of co org me_id /\ Forall before_invites cs
      /\ administrator co = (cs, Value Invite (org, me_id)))
  \/ (exists cs res,
        administrator co = (cs, res) /\ Forall before_invites cs
        /\ rejection res).
Proof.
  unfold administrator, admin_of.
  destruct (createClient co) as [[] | e]; cbn; [ | reject].
  destruct (getUser co) as [[u | ] | e]; cbn; try solve [reject].
  destruct (selectProfile co) as [[[me | ] [m | ]] | e] eqn:Hp; cbn;
    try solve [reject].
  destruct me as [i r [org | ]]; cbn; try solve [reject].
  destruct (truthy org) eqn:Ho; cbn; try solve [reject].
  destruct (eqb r _) eqn:Hr; cbn; try solve [reject].
  apply jsstring_eqb_eq in Hr. subst r.
  left. exists org, i. eexists. split; [ | split; [ | reflexivity]].
  - exists u. eexists. repeat split; trivial.
  - repeat constructor.
Qed.

Lemma before_invites_select cs org limit :
  Forall before_invites cs -> ~ In (call_selectInvites org limit) cs.
Proof. intros H Hin. rewrite Forall_forall in H. exact (H _ Hin). Qed.

Lemma before_invites_insert cs org r e x by_ :
  Forall before_invites cs -> ~ In (call_insertInvite org r e x by_) cs.
Proof. intros H Hin. rewrite Forall_forall in H. exact (H _ Hin). Qed.

End Route.

(** X19: the invites are read only for a signed-in user whose profile
    has an organization and the role [admin], only those of that
    organization, and at most 200 of them; a response that carries
    invites has status 200 and comes after that query. *)
Theorem invites_listed_to_administrators (Invite : Type) (co : Database Invite) :
  (forall org limit, In (call_selectInvites org limit) (fst (GET co)) ->
     limit = 200%Z /\ exists me_id, admin_of co org me_id)
  /\ (forall r l, snd (GET co) = Returns r -> body r = body_invites l ->
        status r = 200%Z
        /\ exists org me_id, admin_of co org me_id
                             /\ In (call_selectInvites org 200) (fst (GET co))).
Proof.
  unfold GET.
  destruct (administrator_cases co)
    as [(org & me_id & cs & Ha & Hcs & ->) | (cs & res & -> & Hcs & Hrej)].
  - cbn [handler_bind fst snd]. unfold handler_await.
    assert (Hin : forall o lim d,
               In (call_selectInvites o lim) (cs ++ [call_selectInvites org 200] ++ d) ->
               d = [] -> lim = 200%Z /\ exists me_id, admin_of co o me_id).
    { intros o lim d H ->. apply in_app_iff in H. destruct H as [H | [H | []]].
      - now apply before_invites_select in H.
      - injection H as <- <-. eauto. }
    destruct (selectInvites co) as [[d [m | ]] | e];
      cbn [handler fst snd error data handler_ret json]; split;
      try (intros o lim H; now apply (Hin o lim [])).
    + intros r l [= <-]. discriminate.
    + intros r l [= <-] _. split; [reflexivity | ].
      exists org, me_id. split; trivial. apply in_app_iff. right. now left.
    + discriminate.
  - destruct res as [v | r | e]; [destruct Hrej | | ]; cbn [handler_bind handler fst snd]; split.
    + intros o lim H. now apply before_invites_select in H.
    + intros r' l [= <-] Hb. destruct Hrej as [_ [m Hm]]. congruence.
    + intros o lim H. now apply before_invites_select in H.
    + discriminate.
Qed.

(** X20: an invite is inserted only for a request from an allowed
    origin, by a signed-in administrator, with a payload that the schema
    accepts; its organization and its creator are those of the
    administrator's profile, never of the payload, and its role, e-mail
    and expiry those of the payload. Only then can the status be 201. *)
Theorem invite_created_by_administrator (Invite : Type) (co : Database Invite) req :
  (forall org role mail expires created_by,
     In (call_insertInvite org role mail expires created_by) (fst (POST co req)) ->
     allowedOrigin req = true
     /\ admin_of co org created_by
     /\ exists p, parsed req = Some p /\ role = invite_role p
                  /\ mail = email p /\ expires = expiresAt p)
  /\ (forall r, snd (POST co req) = Returns r -> status r = 201%Z ->
        exists org created_by p,
          admin_of co org created_by /\ allowedOrigin req = true
          /\ parsed req = Some p
          /\ In (call_insertInvite org (invite_role p) (email p) (expiresAt p)
                   created_by) (fst (POST co req))
          /\ exists d, insertInvite co = Returns (mkResult d None)
                       /\ body r = body_invite d).
Proof.
  unfold POST. destruct (allowedOrigin req); cbn [negb].
  2: { cbn. split; [intros ? ? ? ? ? [] | intros r [= <-]; discriminate]. }
  destruct (administrator_cases co)
    as [(org & me_id & cs & Ha & Hcs & ->) | (cs & res & -> & Hcs & Hrej)].
  - cbn [handler_bind fst snd]. destruct (parsed req) as [p | ].
    2: { cbn. rewrite app_nil_r. split.
         - intros ? ? ? ? ? H. now apply before_invites_insert in H.
         - intros r [= <-]. discriminate. }
    unfold handler_await.
    assert (Hin : forall o ro ma ex cb d,
               In (call_insertInvite o ro ma ex cb)
                  (cs ++ [call_insertInvite org (invite_role p) (email p)
                            (expiresAt p) me_id] ++ d) ->
               d = [] ->
               true = true /\ admin_of co o cb
               /\ exists p', Some p = Some p' /\ ro = invite_role p'
                             /\ ma = email p' /\ ex = expiresAt p').
    { intros o ro ma ex cb d H ->. apply in_app_iff in H. destruct H as [H | [H | []]].
      - now apply before_invites_insert in H.
      - injection H as <- <- <- <- <-. split; trivial. split; trivial. now exists p. }
    destruct (insertInvite co) as [[d [m | ]] | e];
      cbn [handler fst snd error data handler_ret json]; split;
      try (intros o ro ma ex cb H; now apply (Hin o ro ma ex cb [])).
    + intros r [= <-]. discriminate.
    + intros r [= <-] _. exists org, me_id, p. repeat split; trivial.
      * apply in_app_iff. right. now left.
      * now exists d.
    + discriminate.
  - destruct res as [v | r | e]; [destruct Hrej | | ]; cbn [handler_bind handler fst snd]; split.
    + intros ? ? ? ? ? H. now apply before_invites_insert in H.
    + intros r' [= <-] Hs. destruct Hrej as [Hr _]. lia.
    + intros ? ? ? ? ? H. now apply before_invites_insert in H.
    + discriminate.
Qed.

(** An administrator lists and creates invites of the organization; a
    seller is refused before any query on the invites. *)
Example invites_examples :
  GET as_admin
  = ([call_createClient; call_getUser; call_selectProfile (str "u-1");
      call_selectInvites (str "org-1") 200],
     Returns (mkResponse 200 (body_invites [str "inv-1"])))
  /\ GET as_seller
     = ([call_createClient; call_getUser; call_selectProfile (str "u-2")],
        Returns (mkResponse 403 (body_error jsstring (str "Forbidden"))))
  /\ POST as_admin (mkRequest true (Some an_invite))
     = ([call_createClient; call_getUser; call_selectProfile (str "u-1");
         call_insertInvite (str "org-1") vendedor (Some (str "ana@acme.test")) None
           (str "u-1")],
        Returns (mkResponse 201 (body_invite (Some (str "inv-2"))))).
Proof. repeat split; vm_compute; reflexivity. Qed.

End InvitesRouteFacts.
